(** * Best Ball Blitz: the data model of the golf pairing tool

    A shallow embedding of [js/dataModel.js], of the tee-sheet projection of
    the UI controller and of the two handlers of [js/appController.js] that
    decide what reaches the store, followed by the properties of the
    specification.

    Conventions of the embedding.
    - The module-level [_data] object is the record [Store]; every exported
      function of the data model becomes a function from a store to a result
      and a new store.
    - JavaScript numbers that carry handicaps are exact rationals ([Q]);
      rounding to binary64 is not modelled.  Team ids, hole numbers and the
      tee interval are integers ([Z]); array lengths and indices are [nat].
    - Strings are sequences of 8-bit code units.
    - [Math.random()] is an argument: a rational of the interval [0,1).
    - Objects compared with [===] carry the address they were allocated at
      ([ref]); the store remembers the next free address. *)

From Stdlib Require Import Ascii String QArith Qround Qabs Lqa OrderedTypeEx.
From stdpp Require Import base option list gmap strings pretty sorting.

Local Open Scope list_scope.

(** ** The JavaScript primitives the data model relies on *)

Module JS.

(** [Math.random()]: a rational [u] with [0 <= u < 1]. *)
Record rand01 := Rand01 {
  rv : Q;
  rv_ok : (Qle_bool 0 rv && negb (Qle_bool 1 rv)) = true
}.

(** [Math.floor(Math.random() * n)] for an array length [n]. *)
Definition random_index (u : rand01) (n : nat) : nat :=
  Z.to_nat (Qfloor (rv u * inject_Z (Z.of_nat n))).

(** [arr.splice(i, 1)]: nothing happens when [i] is out of range. *)
Definition splice1 {A} (i : nat) (arr : list A) : list A := delete i arr.

(** [arr.slice(lo, hi)] and [arr.slice(lo)] for non-negative bounds. *)
Definition slice {A} (lo hi : nat) (arr : list A) : list A :=
  take (hi - lo) (drop lo arr).
Definition slice_from {A} (lo : nat) (arr : list A) : list A := drop lo arr.

(** [[arr[i], arr[j]] = [arr[j], arr[i]]] for in-range [i] and [j]. *)
Definition swap {A} (i j : nat) (arr : list A) : list A :=
  match arr !! i, arr !! j with
  | Some x, Some y => <[j := x]> (<[i := y]> arr)
  | _, _ => arr
  end.


(** *** Strings *)

(** White space and line terminators below code unit 256, the characters
    [String.prototype.trim] and [parseFloat] strip. *)
Definition is_space (c : ascii) : bool :=
  let n := nat_of_ascii c in
  ((9 <=? n)%nat && (n <=? 13)%nat) || (n =? 32)%nat || (n =? 160)%nat.

Fixpoint trim_start (s : string) : string :=
  match s with
  | String c s' => if is_space c then trim_start s' else s
  | EmptyString => EmptyString
  end.

Fixpoint trim_end (s : string) : string :=
  match s with
  | EmptyString => EmptyString
  | String c s' =>
      match trim_end s' with
      | EmptyString => if is_space c then EmptyString else String c EmptyString
      | t => String c t
      end
  end.

Definition trim (s : string) : string := trim_end (trim_start s).

(** [s.includes(c)] for a one-character needle. *)
Fixpoint includes (c : ascii) (s : string) : bool :=
  match s with
  | EmptyString => false
  | String c' s' => if Ascii.eqb c' c then true else includes c s'
  end.

(** [s.replace(c, '')]: the first occurrence of [c] is deleted. *)
Fixpoint remove_first (c : ascii) (s : string) : string :=
  match s with
  | EmptyString => EmptyString
  | String c' s' => if Ascii.eqb c' c then s' else String c' (remove_first c s')
  end.

(** [s.split(c)] for a one-character separator. *)
Fixpoint split (c : ascii) (s : string) : list string :=
  match s with
  | EmptyString => [EmptyString]
  | String c' s' =>
      if Ascii.eqb c' c then EmptyString :: split c s'
      else match split c s' with
           | hd :: tl => String c' hd :: tl
           | [] => [String c' EmptyString]
           end
  end.

Definition CR : ascii := ascii_of_nat 13.
Definition LF : ascii := ascii_of_nat 10.

(** [s.split(/\r\n|\n/)]: a line ends at CR LF or at a lone LF. *)
Fixpoint split_lines (s : string) : list string :=
  match s with
  | EmptyString => [EmptyString]
  | String c s' =>
      let cons_char rest :=
        match rest with
        | hd :: tl => String c hd :: tl
        | [] => [String c EmptyString]
        end in
      if Ascii.eqb c LF then EmptyString :: split_lines s'
      else if Ascii.eqb c CR then
        match s' with
        | String c2 s'' =>
            if Ascii.eqb c2 LF then EmptyString :: split_lines s''
            else cons_char (split_lines s')
        | EmptyString => cons_char (split_lines s')
        end
      else cons_char (split_lines s')
  end.

(** *** [parseFloat] *)

Definition digit_of (c : ascii) : option Z :=
  let n := nat_of_ascii c in
  if ((48 <=? n)%nat && (n <=? 57)%nat) then Some (Z.of_nat n - 48)%Z else None.

(** Reads the longest run of decimal digits in front of [s]: the number
    they spell after the digits already read ([acc]), how many there
    were, and the rest of the string. *)
Fixpoint read_digits (s : string) (acc : Z) (cnt : nat) : Z * nat * string :=
  match s with
  | String c s' =>
      match digit_of c with
      | Some d => read_digits s' (10 * acc + d)%Z (S cnt)
      | None => (acc, cnt, s)
      end
  | EmptyString => (acc, cnt, s)
  end.

(** An optional sign: [true] for a minus. *)
Definition read_sign (s : string) : bool * string :=
  match s with
  | String "+" s' => (false, s')
  | String "-" s' => (true, s')
  | _ => (false, s)
  end.

(** The exponent part, [e] or [E] with a signed integer; it counts only
    when at least one digit follows. *)
Definition read_exponent (s : string) : Z :=
  match s with
  | String c s' =>
      if Ascii.eqb c "e" || Ascii.eqb c "E" then
        let '(neg, s1) := read_sign s' in
        let '(e, cnt, _) := read_digits s1 0%Z 0%nat in
        match cnt with
        | O => 0%Z
        | S _ => if neg then (- e)%Z else e
        end
      else 0%Z
  | EmptyString => 0%Z
  end.

(** [parseFloat(s)]: the value of the longest prefix of [s], leading
    white space skipped, that is a decimal literal; [None] is [NaN].  The
    literal [Infinity], which [parseFloat] also reads, has no rational
    value and is read as [NaN]. *)
Definition parseFloat (s : string) : option Q :=
  let '(neg, s1) := read_sign (trim_start s) in
  let '(ip, icnt, s2) := read_digits s1 0%Z 0%nat in
  let '(m, fcnt, s3) :=
    match s2 with
    | String "." s2' =>
        let '(m, fcnt, s3) := read_digits s2' ip 0%nat in
        match icnt, fcnt with
        | O, O => (ip, 0%nat, s2)
        | _, _ => (m, fcnt, s3)
        end
    | _ => (ip, 0%nat, s2)
    end in
  match icnt, fcnt with
  | O, O => None
  | _, _ =>
      let e := (read_exponent s3 - Z.of_nat fcnt)%Z in
      let v := (inject_Z m * Qpower 10 e)%Q in
      Some (if neg then (- v)%Q else v)
  end.

(** [n.toString()] for an integer. *)
Definition int_toString (n : Z) : string := pretty n.

(** *** [Array.prototype.sort] *)

(** The sort is stable, so for a consistent comparator its result does
    not depend on the engine: it is the one an insertion sort that keeps
    equal elements in their order produces. *)
Fixpoint sort_insert {A} (cmp : A → A → Q) (x : A) (l : list A) : list A :=
  match l with
  | [] => [x]
  | y :: l' => if Qle_bool (cmp x y) 0 then x :: l else y :: sort_insert cmp x l'
  end.

Definition sort {A} (cmp : A → A → Q) (l : list A) : list A :=
  foldr (sort_insert cmp) [] l.

(** [arr[i] = x] on an array of nullable slots: an index past the end
    extends the array, the slots in between left empty. *)
Definition array_set {A} (i : nat) (x : A) (arr : list (option A)) : list (option A) :=
  if decide (i < length arr) then <[i := Some x]> arr
  else arr ++ replicate (i - length arr) None ++ [Some x].

(** [Math.ceil(n / d)] for array lengths. *)
Definition ceil_div (n d : nat) : nat :=
  Z.to_nat (Qceiling (inject_Z (Z.of_nat n) / inject_Z (Z.of_nat d))).

End JS.

(** ** js/dataModel.js *)

Module DataModel.

Inductive GroupLetter := gA | gB | gC | gD.

Global Instance GroupLetter_eq_dec : EqDecision GroupLetter.
Proof. solve_decision. Defined.

Record Player := mkPlayer {
  ref : nat;
  name : string;
  handicap : Q;
  isPlus : bool;
  displayHandicap : string
}.

Record Groups := mkGroups {
  A : list Player;
  B : list Player;
  C : list Player;
  D : list Player
}.

Record Team := mkTeam {
  id : Z;
  members : list (option Player);
  totalHandicap : Q
}.

Record Settings := mkSettings {
  balanceTeams : bool;
  maxHandicapDiff : Q;
  startFormat : string;
  startTime : string;
  timeInterval : Z
}.

Record DraftedTeamData := mkDrafted {
  draft_members : list (option Player);
  partialHandicap : Q
}.

Record DraftState := mkDraft {
  numTeams : nat;
  currentTeamIndex : nat;
  currentRoundIndex : nat;
  draftOrder : list GroupLetter;
  availableGroups : Groups;
  draftedTeamsData : list DraftedTeamData;
  targetTeamHandicap : Q;
  avgPlayerHandicap : Q
}.

(** The private [_data] object.  [holeAssignments] is keyed by the hole
    number written in decimal; [nextRef] is the address the next player
    object is allocated at. *)
Record Store := mkStore {
  players : list Player;
  groups : Groups;
  teams : list Team;
  holeAssignments : gmap string (list Z);
  settings : Settings;
  interactiveDraftState : option DraftState;
  nextRef : nat
}.

Definition emptyGroups : Groups := mkGroups [] [] [] [].

Definition initialStore : Store :=
  mkStore [] emptyGroups [] ∅
    (mkSettings false 5 "sequential" "08:00" 10) None 0.

Definition set_players (v : list Player) (s : Store) : Store :=
  mkStore v (groups s) (teams s) (holeAssignments s) (settings s)
    (interactiveDraftState s) (nextRef s).
Definition set_groups (v : Groups) (s : Store) : Store :=
  mkStore (players s) v (teams s) (holeAssignments s) (settings s)
    (interactiveDraftState s) (nextRef s).
Definition set_teams (v : list Team) (s : Store) : Store :=
  mkStore (players s) (groups s) v (holeAssignments s) (settings s)
    (interactiveDraftState s) (nextRef s).
Definition set_holeAssignments (v : gmap string (list Z)) (s : Store) : Store :=
  mkStore (players s) (groups s) (teams s) v (settings s)
    (interactiveDraftState s) (nextRef s).
Definition set_settings (v : Settings) (s : Store) : Store :=
  mkStore (players s) (groups s) (teams s) (holeAssignments s) v
    (interactiveDraftState s) (nextRef s).
Definition set_draft (v : option DraftState) (s : Store) : Store :=
  mkStore (players s) (groups s) (teams s) (holeAssignments s) (settings s)
    v (nextRef s).
Definition set_nextRef (v : nat) (s : Store) : Store :=
  mkStore (players s) (groups s) (teams s) (holeAssignments s) (settings s)
    (interactiveDraftState s) v.

Definition get_group (g : GroupLetter) (gs : Groups) : list Player :=
  match g with gA => A gs | gB => B gs | gC => C gs | gD => D gs end.

Definition put_group (g : GroupLetter) (v : list Player) (gs : Groups) : Groups :=
  match g with
  | gA => mkGroups v (B gs) (C gs) (D gs)
  | gB => mkGroups (A gs) v (C gs) (D gs)
  | gC => mkGroups (A gs) (B gs) v (D gs)
  | gD => mkGroups (A gs) (B gs) (C gs) v
  end.

(** The causes of the [{success: false, message}] and [{valid: false,
    message}] results; the text of a message is not modelled. *)
Inductive NameError := NameRequired | NameFormat.
Inductive HandicapError :=
  HandicapRequired | HandicapNotNumber | HandicapNeedsPlus | HandicapTooLarge.
Inductive Failure :=
| NotEnoughPlayers
| CannotFormTeam
| InvalidInput
| AlreadyAssigned (teamId : Z)
| HoleFull (hole : Z)
| NotOnHole (teamId hole : Z)
| NoTeamsPossible
| DraftNotInitialized
| EmptyPool (g : GroupLetter)
| DraftNotComplete.

Inductive Result (T : Type) :=
| Success (payload : T)
| Fail (cause : Failure).
Global Arguments Success {T} payload.
Global Arguments Fail {T} cause.

Definition succeeded {T} (r : Result T) : bool :=
  match r with Success _ => true | Fail _ => false end.

Definition doubleStackedHoles : list Z := [3; 4; 6; 7; 8; 10; 12; 13; 16; 18]%Z.

(** *** Private helpers *)

Definition validatePlayerName (name : string) : option NameError :=
  if String.eqb (JS.trim name) "" then Some NameRequired
  else if negb (JS.includes "," name) then Some NameFormat
  else None.

Definition validateHandicap (handicap : string) : HandicapError + Q * bool :=
  if String.eqb (JS.trim handicap) "" then inl HandicapRequired
  else
    let isPlus := JS.includes "+" handicap in
    match JS.parseFloat (if isPlus then JS.remove_first "+" handicap else handicap) with
    | None => inl HandicapNotNumber
    | Some handicapValue =>
        if negb (Qle_bool 0 handicapValue) && negb isPlus then inl HandicapNeedsPlus
        else if negb (Qle_bool handicapValue 54) then inl HandicapTooLarge
        else inr (handicapValue, isPlus)
    end.

Definition getNumericHandicap (player : Player) : Q :=
  if isPlus player then (- handicap player)%Q else handicap player.

Definition calculateTeamHandicap (members : list (option Player)) : Q :=
  foldl (λ total m,
           match m with
           | Some player => (total + getNumericHandicap player)%Q
           | None => total
           end) 0%Q members.

Definition canFormTeam (s : Store) : bool :=
  let gs := groups s in
  bool_decide (0 < length (A gs)) && bool_decide (0 < length (B gs)) &&
  bool_decide (0 < length (C gs)) && bool_decide (0 < length (D gs)).

(** The set behind [getAssignedTeamIds]: every id on some hole's list. *)
Definition getAssignedTeamIds (s : Store) : gset Z :=
  ⋃ ((λ kv, list_to_set kv.2) <$> map_to_list (holeAssignments s)).

Definition getUnassignedTeamsInternal (s : Store) : list Team :=
  filter (λ team, id team ∉ getAssignedTeamIds s) (teams s).

(** *** Public API: players and groups *)

Definition resetAll (s : Store) : Store :=
  mkStore [] emptyGroups [] ∅ (settings s) None (nextRef s).

Inductive AddPlayerResult :=
| Added (player : Player)
| Rejected (nameError : option NameError) (handicapError : option HandicapError).

Section Display.
(** [Number.prototype.toString] on a handicap value: it only feeds the
    [displayHandicap] label, so it is left open. *)
Variable number_toString : Q → string.

Definition makePlayer (r : nat) (nm : string) (value : Q) (plus : bool) : Player :=
  mkPlayer r nm value plus
    (if plus then ("+" ++ number_toString value)%string else number_toString value).

Definition addPlayer (nameInput handicapInput : string) (s : Store)
  : AddPlayerResult * Store :=
  match validatePlayerName nameInput, validateHandicap handicapInput with
  | None, inr (value, plus) =>
      let player := makePlayer (nextRef s) (JS.trim nameInput) value plus in
      (Added player,
       set_nextRef (S (nextRef s)) (set_players (players s ++ [player]) s))
  | nameError, handicapValidation =>
      (Rejected nameError
         (match handicapValidation with inl e => Some e | inr _ => None end), s)
  end.

Inductive CsvError :=
| NotEnoughData (line : nat)
| InvalidHandicap (line : nat) (cause : HandicapError).

(** One turn of the loop of [processCSV] on line [i] (counted from 0);
    [r] is the next free address. *)
Definition processLine (i : nat) (line : string)
    (acc : list Player * list CsvError * nat) : list Player * list CsvError * nat :=
  let '(importedPlayers, errors, r) := acc in
  if String.eqb (JS.trim line) "" then acc
  else
    match JS.split "," line with
    | p0 :: p1 :: p2 :: _ =>
        let lastName := JS.trim p0 in
        let firstName := JS.trim p1 in
        let handicapInput := JS.trim p2 in
        match validateHandicap handicapInput with
        | inl e => (importedPlayers, errors ++ [InvalidHandicap (i + 1) e], r)
        | inr (value, plus) =>
            let player := makePlayer r (lastName ++ ", " ++ firstName)%string value plus in
            (importedPlayers ++ [player], errors, S r)
        end
    | _ => (importedPlayers, errors ++ [NotEnoughData (i + 1)], r)
    end.

Fixpoint processLines (i : nat) (lines : list string)
    (acc : list Player * list CsvError * nat) : list Player * list CsvError * nat :=
  match lines with
  | [] => acc
  | line :: rest => processLines (S i) rest (processLine i line acc)
  end.

(** [processCSV(csv)]; the player objects it creates are allocated from
    address [r] on. *)
Definition processCSV (r : nat) (csv : string) : list Player * list CsvError :=
  let lines := JS.split_lines csv in
  let '(importedPlayers, errors, _) := processLines 0 lines ([], [], r) in
  (importedPlayers, errors).
End Display.

(** [removePlayer(index)]: [true] when a player was removed. *)
Definition removePlayer (index : Z) (s : Store) : bool * Store :=
  if bool_decide (0 ≤ index)%Z && bool_decide (index < Z.of_nat (length (players s)))%Z
  then (true, set_draft None (set_players (JS.splice1 (Z.to_nat index) (players s)) s))
  else (false, s).

Definition byHandicap (a b : Player) : Q :=
  (getNumericHandicap a - getNumericHandicap b)%Q.

Definition groupPlayers (s : Store) : Result () * Store :=
  if bool_decide (length (players s) < 4) then (Fail NotEnoughPlayers, s)
  else
    let sortedPlayers := JS.sort byHandicap (players s) in
    let quarterSize := JS.ceil_div (length sortedPlayers) 4 in
    let gs :=
      mkGroups (JS.slice 0 quarterSize sortedPlayers)
               (JS.slice quarterSize (quarterSize * 2) sortedPlayers)
               (JS.slice (quarterSize * 2) (quarterSize * 3) sortedPlayers)
               (JS.slice_from (quarterSize * 3) sortedPlayers) in
    (Success (), set_draft None (set_groups gs s)).

(** *** Team formation *)

(** [selectTeam()]; the four random numbers are the ones drawn for the
    groups A, B, C and D in that order. *)
Definition selectTeam (uA uB uC uD : JS.rand01) (s : Store) : Result Team * Store :=
  let gs := groups s in
  if negb (canFormTeam s) then (Fail CannotFormTeam, s)
  else
    let iA := JS.random_index uA (length (A gs)) in
    let iB := JS.random_index uB (length (B gs)) in
    let iC := JS.random_index uC (length (C gs)) in
    let iD := JS.random_index uD (length (D gs)) in
    let selected := [A gs !! iA; B gs !! iB; C gs !! iC; D gs !! iD] in
    let newTeam :=
      mkTeam (Z.of_nat (length (teams s)) + 1) selected (calculateTeamHandicap selected) in
    let gs' := mkGroups (JS.splice1 iA (A gs)) (JS.splice1 iB (B gs))
                        (JS.splice1 iC (C gs)) (JS.splice1 iD (D gs)) in
    (Success newTeam, set_groups gs' (set_teams (teams s ++ [newTeam]) s)).

Definition findTeamById (teamId : Z) (s : Store) : option Team :=
  List.find (λ team, bool_decide (id team = teamId)) (teams s).

(** *** Hole assignment *)

(** The guard shared by [assignTeamToHole] and [removeTeamFromHole]:
    [!teamId || !hole || hole < 1 || hole > 18]. *)
Definition invalidInput (teamId hole : Z) : bool :=
  bool_decide (teamId = 0)%Z || bool_decide (hole = 0)%Z ||
  bool_decide (hole < 1)%Z || bool_decide (18 < hole)%Z.

Definition maxTeamsOn (hole : Z) : nat :=
  if bool_decide (hole ∈ doubleStackedHoles) then 2 else 1.

Definition assignTeamToHole (teamId hole : Z) (s : Store) : Result () * Store :=
  if invalidInput teamId hole then (Fail InvalidInput, s)
  else
    let holeStr := JS.int_toString hole in
    let teamsOnHole := default [] (holeAssignments s !! holeStr) in
    let maxTeams := maxTeamsOn hole in
    if bool_decide (map_Exists (λ _ ids, teamId ∈ ids) (holeAssignments s))
    then (Fail (AlreadyAssigned teamId), s)
    else if bool_decide (maxTeams ≤ length teamsOnHole) then (Fail (HoleFull hole), s)
    else (Success (),
          set_holeAssignments (<[holeStr := teamsOnHole ++ [teamId]]> (holeAssignments s)) s).

Definition removeTeamFromHole (teamId hole : Z) (s : Store) : Result () * Store :=
  if invalidInput teamId hole then (Fail InvalidInput, s)
  else
    let holeStr := JS.int_toString hole in
    match holeAssignments s !! holeStr with
    | None => (Fail (NotOnHole teamId hole), s)
    | Some ids =>
        if bool_decide (teamId ∈ ids) then
          let ids' := filter (λ i, i ≠ teamId) ids in
          let assignments :=
            if bool_decide (length ids' = 0) then delete holeStr (holeAssignments s)
            else <[holeStr := ids']> (holeAssignments s) in
          (Success (), set_holeAssignments assignments s)
        else (Fail (NotOnHole teamId hole), s)
    end.

(** The holes a [for (let hole = 1; hole <= 18; hole++)] loop visits. *)
Definition holes1to18 : list Z := Z.of_nat <$> seq 1 18.

(** First pass of the automatic assignment: one team per hole.  The loop
    stops as soon as [teamIndex] reaches the end of [teamsToAssign]; a
    failed assignment moves on to the next hole with the same team. *)
Fixpoint firstPass (teamsToAssign : list Team) (holes : list Z)
    (teamIndex : nat) (s : Store) : nat * Store :=
  match holes with
  | [] => (teamIndex, s)
  | hole :: rest =>
      match teamsToAssign !! teamIndex with
      | None => (teamIndex, s)
      | Some team =>
          let '(assignResult, s') := assignTeamToHole (id team) hole s in
          firstPass teamsToAssign rest
            (if succeeded assignResult then S teamIndex else teamIndex) s'
      end
  end.

(** Second pass: the double-stacked holes that still have room. *)
Fixpoint secondPass (teamsToAssign : list Team) (holes : list Z)
    (teamIndex : nat) (s : Store) : nat * Store :=
  match holes with
  | [] => (teamIndex, s)
  | hole :: rest =>
      match teamsToAssign !! teamIndex with
      | None => (teamIndex, s)
      | Some team =>
          if bool_decide (hole ∈ doubleStackedHoles) then
            let teamsOnHole := default [] (holeAssignments s !! JS.int_toString hole) in
            if bool_decide (length teamsOnHole < 2) then
              let '(assignResult, s') := assignTeamToHole (id team) hole s in
              secondPass teamsToAssign rest
                (if succeeded assignResult then S teamIndex else teamIndex) s'
            else secondPass teamsToAssign rest teamIndex s
          else secondPass teamsToAssign rest teamIndex s
      end
  end.

Definition assignInTwoPasses (teamsToAssign : list Team) (s : Store) : Store :=
  let '(teamIndex, s1) := firstPass teamsToAssign holes1to18 0 s in
  (secondPass teamsToAssign holes1to18 teamIndex s1).2.

Definition autoAssignTeams (s : Store) : Result () * Store :=
  let s0 := set_holeAssignments ∅ s in
  let teamsToAssign := getUnassignedTeamsInternal s0 in
  (Success (), assignInTwoPasses teamsToAssign s0).

(** The Fisher-Yates loop [for (let i = n - 1; i > 0; i--)]; [rnd i] is
    the random number drawn in the turn with loop variable [i]. *)
Fixpoint shuffleFrom {T} (rnd : nat → JS.rand01) (i : nat) (arr : list T) : list T :=
  match i with
  | O => arr
  | S i' =>
      let j := JS.random_index (rnd i) (i + 1) in
      shuffleFrom rnd i' (JS.swap i j arr)
  end.

Definition shuffle {T} (rnd : nat → JS.rand01) (arr : list T) : list T :=
  shuffleFrom rnd (length arr - 1) arr.

Definition randomizeTeamAssignments (rnd : nat → JS.rand01) (s : Store)
  : Result () * Store :=
  let s0 := set_holeAssignments ∅ s in
  let teamsToAssign := shuffle rnd (getUnassignedTeamsInternal s0) in
  (Success (), assignInTwoPasses teamsToAssign s0).

(** *** Interactive draft *)

Definition sumHandicaps (ps : list Player) : Q :=
  foldl (λ total p, (total + getNumericHandicap p)%Q) 0%Q ps.

Definition sumTeamHandicaps (ts : list Team) : Q :=
  foldl (λ total team, (total + calculateTeamHandicap (members team))%Q) 0%Q ts.

Definition lengthQ {T} (l : list T) : Q := inject_Z (Z.of_nat (length l)).

Definition set_targets (target avg : Q) (st : DraftState) : DraftState :=
  mkDraft (numTeams st) (currentTeamIndex st) (currentRoundIndex st)
    (draftOrder st) (availableGroups st) (draftedTeamsData st) target avg.

Definition initializeInteractiveDraft (s : Store) : Result DraftState * Store :=
  let gs := groups s in
  let n :=
    Nat.min (Nat.min (Nat.min (length (A gs)) (length (B gs))) (length (C gs)))
            (length (D gs)) in
  if bool_decide (n = 0) then (Fail NoTeamsPossible, s)
  else
    let st0 :=
      mkDraft n 0 0 [gD; gC; gB; gA]
        (mkGroups (A gs) (B gs) (C gs) (D gs))
        (replicate n (mkDrafted [None; None; None; None] 0%Q))
        0%Q 0%Q in
    let st :=
      if balanceTeams (settings s) then
        let st1 :=
          if bool_decide (0 < length (players s)) then
            let avg := (sumHandicaps (players s) / lengthQ (players s))%Q in
            set_targets (avg * 4)%Q avg st0
          else st0 in
        if bool_decide (0 < length (teams s)) then
          set_targets (sumTeamHandicaps (teams s) / lengthQ (teams s))%Q
            (avgPlayerHandicap st1) st1
        else st1
      else st0 in
    (Success st, set_draft (Some st) s).

(** The distance a candidate leaves between the predicted final handicap
    of the team and the target. *)
Definition pickDifference (state : DraftState) (roundIndex : nat)
    (currentPartialHandicap : Q) (potentialPlayer : Player) : Q :=
  let remainingRounds := length (draftOrder state) - (roundIndex + 1) in
  let predictedFinalHandicap :=
    (currentPartialHandicap + getNumericHandicap potentialPlayer
     + inject_Z (Z.of_nat remainingRounds) * avgPlayerHandicap state)%Q in
  Qabs (predictedFinalHandicap - targetTeamHandicap state).

(** The search loop of the balanced pick over the candidates from index
    [j] on: [best] is [bestPlayerIdx] ([None] for [-1]) and [minDifference]
    is [None] while it is still [Infinity]. *)
Fixpoint bestCandidate (diff : Player → Q) (j : nat) (candidates : list Player)
    (best : option nat) (minDifference : option Q) : option nat :=
  match candidates with
  | [] => best
  | potentialPlayer :: rest =>
      let difference := diff potentialPlayer in
      let better :=
        match minDifference with
        | None => true
        | Some m => negb (Qle_bool m difference)
        end in
      if better then bestCandidate diff (S j) rest (Some j) (Some difference)
      else bestCandidate diff (S j) rest best minDifference
  end.

Record Pick := mkPick {
  pick_player : Player;
  pick_teamIndex : nat;
  pick_groupLetter : GroupLetter;
  isDraftComplete : bool
}.

(** What a call of [makeInteractiveDraftPick] comes to: a result object,
    or a [TypeError] thrown on a state no draft reaches. *)
Inductive PickOutcome :=
| Returned (r : Result Pick)
| Thrown.

(** The index the pick rule chooses in the pool of the current round. *)
Definition choosePlayerIndex (u : JS.rand01) (balance : bool) (state : DraftState)
    (groupLetter : GroupLetter) (currentAvailableGroup : list Player)
    (currentPartialHandicap : Q) : nat :=
  if balance && negb (bool_decide (groupLetter = gD)) then
    match bestCandidate
            (pickDifference state (currentRoundIndex state) currentPartialHandicap)
            0 currentAvailableGroup None None with
    | Some bestPlayerIdx => bestPlayerIdx
    | None => JS.random_index u (length currentAvailableGroup)
    end
  else JS.random_index u (length currentAvailableGroup).

Definition makeInteractiveDraftPick (u : JS.rand01) (s : Store) : PickOutcome * Store :=
  match interactiveDraftState s with
  | None => (Returned (Fail DraftNotInitialized), s)
  | Some state =>
      let teamIndex := currentTeamIndex state in
      let roundIndex := currentRoundIndex state in
      match draftOrder state !! roundIndex with
      | None => (Thrown, s)
      | Some groupLetter =>
          let currentAvailableGroup := get_group groupLetter (availableGroups state) in
          if bool_decide (length currentAvailableGroup = 0)
          then (Returned (Fail (EmptyPool groupLetter)), s)
          else
            match draftedTeamsData state !! teamIndex with
            | None => (Thrown, s)
            | Some teamData =>
                let chosenPlayerIndex :=
                  choosePlayerIndex u (balanceTeams (settings s)) state groupLetter
                    currentAvailableGroup (partialHandicap teamData) in
                match currentAvailableGroup !! chosenPlayerIndex with
                | None => (Thrown, s)
                | Some chosenPlayer =>
                    let memberIndex := length (draftOrder state) - 1 - roundIndex in
                    let teamData' :=
                      mkDrafted
                        (JS.array_set memberIndex chosenPlayer (draft_members teamData))
                        (partialHandicap teamData + getNumericHandicap chosenPlayer)%Q in
                    let pool' := JS.splice1 chosenPlayerIndex currentAvailableGroup in
                    let nextTeam := S teamIndex in
                    let wraps := bool_decide (numTeams state ≤ nextTeam) in
                    let state' :=
                      mkDraft (numTeams state)
                        (if wraps then 0 else nextTeam)
                        (if wraps then S roundIndex else roundIndex)
                        (draftOrder state)
                        (put_group groupLetter pool' (availableGroups state))
                        (<[teamIndex := teamData']> (draftedTeamsData state))
                        (targetTeamHandicap state) (avgPlayerHandicap state) in
                    let complete :=
                      bool_decide (length (draftOrder state') ≤ currentRoundIndex state') in
                    (Returned (Success (mkPick chosenPlayer teamIndex groupLetter complete)),
                     set_draft (Some state') s)
                end
            end
      end
  end.

(** [player === orig]: the same object. *)
Definition samePlayer (player orig : Player) : bool :=
  bool_decide (ref orig = ref player).

Definition indexOfPlayer (player : Player) (group : list Player) : option nat :=
  fst <$> list_find (λ orig, ref orig = ref player) group.

(** The body of [newTeam.members.forEach] in [finalizeDraftedTeams]: the
    member leaves the first group that holds it. *)
Definition removeFromGroups (gs : Groups) (member : option Player) : Groups :=
  match member with
  | None => gs
  | Some player =>
      match List.find (λ key, existsb (samePlayer player) (get_group key gs))
              [gA; gB; gC; gD] with
      | Some groupKey =>
          match indexOfPlayer player (get_group groupKey gs) with
          | Some playerIndex =>
              put_group groupKey (JS.splice1 playerIndex (get_group groupKey gs)) gs
          | None => gs
          end
      | None => gs
      end
  end.

(** One turn of [state.draftedTeamsData.forEach]. *)
Definition finalizeOne (teamCount : nat) (acc : list Team * Groups)
    (draftedTeamData : DraftedTeamData) : list Team * Groups :=
  let '(finalTeams, gs) := acc in
  if forallb (λ p, bool_decide (is_Some p)) (draft_members draftedTeamData) then
    let newTeam :=
      mkTeam (Z.of_nat (teamCount + length finalTeams) + 1)
        (draft_members draftedTeamData)
        (calculateTeamHandicap (draft_members draftedTeamData)) in
    (finalTeams ++ [newTeam], foldl removeFromGroups gs (members newTeam))
  else acc.

(** [finalizeDraftedTeams()]; the payload is [teamsAdded]. *)
Definition finalizeDraftedTeams (s : Store) : Result nat * Store :=
  match interactiveDraftState s with
  | None => (Fail DraftNotComplete, s)
  | Some state =>
      if bool_decide (currentRoundIndex state < length (draftOrder state))
      then (Fail DraftNotComplete, s)
      else
        let '(finalTeams, gs) :=
          foldl (finalizeOne (length (teams s))) ([], groups s) (draftedTeamsData state) in
        (Success (length finalTeams),
         set_draft None (set_teams (teams s ++ finalTeams) (set_groups gs s)))
  end.

(** The loop [for (const groupLetter in _data.groups)] of
    [addTeamAndRemovePlayers] over the keys still to visit: the player
    leaves the first group that holds it, and the loop breaks. *)
Fixpoint removeFromFirst (player : Player) (keys : list GroupLetter)
    (gs : Groups) : Groups :=
  match keys with
  | [] => gs
  | groupLetter :: rest =>
      let group := get_group groupLetter gs in
      match indexOfPlayer player group with
      | Some playerIndex => put_group groupLetter (JS.splice1 playerIndex group) gs
      | None => removeFromFirst player rest gs
      end
  end.

(** The body of [team.members.forEach] in [addTeamAndRemovePlayers]. *)
Definition removeMember (gs : Groups) (member : option Player) : Groups :=
  match member with
  | None => gs
  | Some player => removeFromFirst player [gA; gB; gC; gD] gs
  end.

Definition addTeamAndRemovePlayers (team : Team) (s : Store) : Result () * Store :=
  (Success (),
   set_groups (foldl removeMember (groups s) (members team))
     (set_teams (teams s ++ [team]) s)).

End DataModel.


(** ** The tee sheet of the UI controller *)

Module UIController.
Import DataModel.

Record Row := mkRow {
  hole : Z;
  teeTime : string;
  teamId : Z;
  row_players : list string
}.

(** [new Date(`1970-01-01T${startTime}`)] for the [HH:mm] values a time
    input yields, as minutes after local midnight; [None] is an invalid
    date.  The local offset to UTC is taken as constant over the tee
    sheet. *)
Definition parseStartTime (startTime : string) : option Z :=
  match startTime with
  | String h1 (String h2 (String colon (String m1 (String m2 EmptyString)))) =>
      match JS.digit_of h1, JS.digit_of h2, JS.digit_of m1, JS.digit_of m2 with
      | Some a, Some b, Some c, Some d =>
          let h := (10 * a + b)%Z in
          let m := (10 * c + d)%Z in
          if Ascii.eqb colon ":" && bool_decide (h < 24)%Z && bool_decide (m < 60)%Z
          then Some (h * 60 + m)%Z else None
      | _, _, _, _ => None
      end
  | _ => None
  end.

(** [n.toString().padStart(2, '0')] *)
Definition pad2 (n : Z) : string :=
  let t := JS.int_toString n in
  if bool_decide (String.length t < 2) then String "0" t else t.

Definition formatTime (date : option Z) : string :=
  match date with
  | Some t => (pad2 ((t / 60) mod 24) ++ ":" ++ pad2 (t mod 60))%string
  | None => "NaN:NaN"%string
  end.

Definition playerLabel (p : option Player) : string :=
  match p with
  | Some p => (name p ++ " (" ++ displayHandicap p ++ ")")%string
  | None => "N/A"%string
  end.

(** The body of [teamIdsOnHole.forEach]. *)
Definition teeSheetEntry (s : Store) (baseTime : option Z) (hole : Z)
    (acc : nat * list Row) (teamId : Z) : nat * list Row :=
  let '(assignedCount, teeSheetData) := acc in
  match findTeamById teamId s with
  | None => acc
  | Some team =>
      let shotgun := String.eqb (startFormat (settings s)) "shotgun" in
      let time :=
        if shotgun then baseTime
        else
          let timeOffset := (Z.of_nat assignedCount * timeInterval (settings s))%Z in
          (λ b, b + timeOffset)%Z <$> baseTime in
      (if shotgun then assignedCount else S assignedCount,
       teeSheetData ++
         [mkRow hole (formatTime time) (id team) (playerLabel <$> members team)])
  end.

Definition teeSheetHole (s : Store) (baseTime : option Z)
    (acc : nat * list Row) (hole : Z) : nat * list Row :=
  let teamIdsOnHole := default [] (holeAssignments s !! JS.int_toString hole) in
  foldl (teeSheetEntry s baseTime hole) acc teamIdsOnHole.

Definition byTimeThenHole (a b : Row) : Q :=
  if String.ltb (teeTime a) (teeTime b) then (-1)%Q
  else if String.ltb (teeTime b) (teeTime a) then 1%Q
  else inject_Z (hole a - hole b).

Definition byHole (a b : Row) : Q := inject_Z (hole a - hole b).

(** What [updateTeeSheet] writes into the table body. *)
Inductive TeeSheet :=
| NoTeamsYet
| NoTeamsAssigned
| Rows (rows : list Row).

Definition updateTeeSheet (s : Store) : TeeSheet :=
  if bool_decide (length (teams s) = 0) then NoTeamsYet
  else
    let baseTime := parseStartTime (startTime (settings s)) in
    let teeSheetData := (foldl (teeSheetHole s baseTime) (0, []) holes1to18).2 in
    let sorted :=
      if String.eqb (startFormat (settings s)) "sequential"
      then JS.sort byTimeThenHole teeSheetData
      else JS.sort byHole teeSheetData in
    match sorted with
    | [] => NoTeamsAssigned
    | _ => Rows sorted
    end.

(** *** The tournament bracket *)






End UIController.

(** ** js/appController.js *)

Module AppController.
Import DataModel.

(** The store together with the [isGrouped] flag of the UI state. *)
Record App := mkApp {
  store : Store;
  isGrouped : bool
}.

Definition groupPlayersHandler (a : App) : App :=
  let '(result, s) := groupPlayers (store a) in
  if succeeded result then mkApp s true else a.

(** [processCSVHandler(csv)]: an import with any line-level error shows
    the first error and returns before the registry is touched. *)
Definition processCSVHandler (number_toString : Q → string) (csv : string)
    (a : App) : App :=
  let s := store a in
  let '(imported, errors) := processCSV number_toString (nextRef s) csv in
  if bool_decide (0 < length errors) then a
  else
    let s1 :=
      set_nextRef (nextRef s + length imported) (set_players (players s ++ imported) s) in
    if isGrouped a then mkApp (set_teams [] (set_groups emptyGroups s1)) false
    else mkApp s1 (isGrouped a).

(** The loop [while (DataModel.canFormTeam())] of [selectAllTeamsHandler]
    with its counter [teamsCreated].  [rnd] is the stream of random
    numbers, of which every selected team takes four.  The result is [None]
    when the loop has not come to its end within [fuel] tests of its
    condition. *)
Fixpoint selectAllTeams (rnd : nat → JS.rand01) (fuel teamsCreated : nat)
    (s : Store) : option (nat * Store) :=
  match fuel with
  | O => None
  | S fuel' =>
      if canFormTeam s then
        let '(result, s') :=
          selectTeam (rnd (4 * teamsCreated)) (rnd (4 * teamsCreated + 1))
            (rnd (4 * teamsCreated + 2)) (rnd (4 * teamsCreated + 3)) s in
        if succeeded result then selectAllTeams rnd fuel' (S teamsCreated) s'
        else Some (teamsCreated, s')
      else Some (teamsCreated, s)
  end.



(** The store after [finalizeInteractiveDraftHandler]. *)
Definition finalizeInteractiveDraftHandler (s : Store) : Store :=
  (finalizeDraftedTeams s).2.

(** The store after [handleNextDraftPickHandler]: a pick that reports
    the draft complete is followed by the finalization at once. *)
Definition handleNextDraftPickHandler (u : JS.rand01) (s : Store) : Store :=
  let '(outcome, s') := makeInteractiveDraftPick u s in
  match outcome with
  | Returned (Success pickResult) =>
      if isDraftComplete pickResult then finalizeInteractiveDraftHandler s' else s'
  | _ => s'
  end.

End AppController.

(** ** The states the application reaches *)

Module Reach.
Import DataModel AppController.

(** One call into the data model, as the handlers of the application
    controller issue them.  The exported setters occur with the arguments
    the handlers pass: empty groups, no teams, no assignments, the
    registry extended by an import. *)
Inductive step : Store → Store → Prop :=
| step_resetAll s : step s (resetAll s)
| step_addPlayer nts nameInput handicapInput s :
    step s (addPlayer nts nameInput handicapInput s).2
| step_removePlayer index s : step s (removePlayer index s).2
| step_importCSV nts csv grouped s :
    step s (store (processCSVHandler nts csv (mkApp s grouped)))
| step_groupPlayers s : step s (groupPlayers s).2
| step_selectTeam uA uB uC uD s : step s (selectTeam uA uB uC uD s).2
| step_initializeDraft s : step s (initializeInteractiveDraft s).2
| step_draftPick u s : step s (makeInteractiveDraftPick u s).2
| step_finalizeDraft s : step s (finalizeDraftedTeams s).2
| step_assign teamId hole s : step s (assignTeamToHole teamId hole s).2
| step_remove teamId hole s : step s (removeTeamFromHole teamId hole s).2
| step_autoAssign s : step s (autoAssignTeams s).2
| step_randomize rnd s : step s (randomizeTeamAssignments rnd s).2
| step_setGroups s : step s (set_groups emptyGroups s)
| step_setTeams s : step s (set_teams [] s)
| step_setHoleAssignments s : step s (set_holeAssignments ∅ s)
| step_updateSetting v s : step s (set_settings v s).

Inductive reachable : Store → Prop :=
| reach_init : reachable initialStore
| reach_step s s' : reachable s → step s s' → reachable s'.

End Reach.

(** ** Saving and loading *)

Module Session.
Import DataModel.

(** What [saveToLocalStorage] writes under the key [golfApp]. *)
Record Saved := mkSaved {
  savedPlayers : list Player;
  savedGroups : Groups;
  savedTeams : list Team;
  savedHoleAssignments : gmap string (list Z);
  savedSettings : Settings
}.

Definition dataToSave (s : Store) : Saved :=
  mkSaved (players s) (groups s) (teams s) (holeAssignments s) (settings s).

(** [JSON.parse] builds new objects: the players of a list get the
    addresses from [r] on, their fields are the saved ones. *)
Definition parsePlayer (r : nat) (p : Player) : Player :=
  mkPlayer r (name p) (handicap p) (isPlus p) (displayHandicap p).

Definition parsePlayers (r : nat) (ps : list Player) : list Player :=
  imap (λ i, parsePlayer (r + i)) ps.

Definition parseMembers (r : nat) (ms : list (option Player)) : list (option Player) :=
  imap (λ i m, parsePlayer (r + i) <$> m) ms.

Fixpoint parseTeams (r : nat) (ts : list Team) : list Team :=
  match ts with
  | [] => []
  | t :: ts' =>
      mkTeam (id t) (parseMembers r (members t)) (totalHandicap t)
      :: parseTeams (r + length (members t)) ts'
  end.

Definition membersCount (ts : list Team) : nat :=
  sum_list ((λ t, length (members t)) <$> ts).

(** [loadFromLocalStorage()] when the storage holds [d]: players, groups,
    teams, assignments and settings are replaced; the draft state is not
    touched. *)
Definition loadFromLocalStorage (d : Saved) (s : Store) : Store :=
  let r0 := nextRef s in
  let ps := parsePlayers r0 (savedPlayers d) in
  let r1 := r0 + length ps in
  let gA := parsePlayers r1 (A (savedGroups d)) in
  let r2 := r1 + length gA in
  let gB := parsePlayers r2 (B (savedGroups d)) in
  let r3 := r2 + length gB in
  let gC := parsePlayers r3 (C (savedGroups d)) in
  let r4 := r3 + length gC in
  let gD := parsePlayers r4 (D (savedGroups d)) in
  let r5 := r4 + length gD in
  mkStore ps (mkGroups gA gB gC gD) (parseTeams r5 (savedTeams d))
    (savedHoleAssignments d) (savedSettings d) (interactiveDraftState s)
    (r5 + membersCount (savedTeams d)).

(** A session of the application with its storage: the calls of the
    handlers, saving, loading what was saved, and a reload of the page.
    The storage holds nothing or what [saveToLocalStorage] wrote. *)
Inductive step : Store * option Saved → Store * option Saved → Prop :=
| step_app s s' d : Reach.step s s' → step (s, d) (s', d)
| step_save s d : step (s, d) (s, Some (dataToSave s))
| step_load s d : step (s, Some d) (loadFromLocalStorage d s, Some d)
| step_reload s d : step (s, d) (initialStore, d).

Inductive reachable : Store * option Saved → Prop :=
| reach_init : reachable (initialStore, None)
| reach_step x y : reachable x → step x y → reachable y.

End Session.

(** ** Sample stores *)

Module Samples.
Import DataModel.

(** A rendering of handicap values for the samples: integers in decimal,
    anything else left blank. *)
Definition sampleToString (q : Q) : string :=
  if bool_decide (Qden q = 1%positive) then JS.int_toString (Qnum q) else ""%string.

Definition u0 : JS.rand01 := JS.Rand01 0 eq_refl.
Definition uHalf : JS.rand01 := JS.Rand01 (1 # 2) eq_refl.

Definition add (nameInput handicapInput : string) (s : Store) : Store :=
  (addPlayer sampleToString nameInput handicapInput s).2.

(** The registry of the grouping scenario of the specification. *)
Definition fourPlayers : Store :=
  add "Ng, Pat" "+2.0" (add "Lee, Kim" "20.0"
    (add "Doe, Jane" "5.0" (add "Smith, John" "10.5" initialStore))).

Definition eightPlayers : Store :=
  add "Hill, Ann" "8" (add "Gray, Bo" "7" (add "Ford, Cy" "6"
    (add "East, Di" "5" fourPlayers))).

Definition fourGrouped : Store := (groupPlayers fourPlayers).2.
Definition eightGrouped : Store := (groupPlayers eightPlayers).2.

(** One team picked at random from the four-player registry. *)
Definition oneTeam : Store := (selectTeam u0 u0 u0 u0 fourGrouped).2.

(** The eight players grouped with team balancing switched on, the draft
    started, and its first round (group D) drafted. *)
Definition eightBalanced : Store :=
  set_settings (mkSettings true 5 "sequential" "08:00" 10) eightGrouped.
Definition draftStarted : Store := (initializeInteractiveDraft eightBalanced).2.

(** Random numbers for a whole draft of two teams. *)
Definition eightDraws : list JS.rand01 :=
  [uHalf; u0; u0; uHalf; uHalf; u0; u0; uHalf].

(** The draft of the eight players after all its picks, not finalized. *)
Definition draftDone : Store :=
  foldl (λ st u, (makeInteractiveDraftPick u st).2) draftStarted eightDraws.
Definition draftDoneState : DraftState :=
  Eval vm_compute in
    default (mkDraft 0 0 0 [] emptyGroups [] 0%Q 0%Q) (interactiveDraftState draftDone).

(** Two teams picked from the eight-player registry. *)
Definition twoTeams : Store :=
  (selectTeam uHalf u0 uHalf u0 (selectTeam u0 uHalf u0 uHalf eightGrouped).2).2.

End Samples.

(** ** Orders *)

Module SortProps.

(** [x] comes before [y] or ties with it under the comparator [cmp]. *)
Definition notAfter {T} (cmp : T → T → Q) (x y : T) : Prop := (cmp x y <= 0)%Q.

(** The comparator that subtracts keys. *)
Definition byKey {T} (key : T → Q) (x y : T) : Q := (key x - key y)%Q.

(** The elements of [l] whose key equals [q], in the order of [l]. *)
Definition withKey {T} (key : T → Q) (q : Q) (l : list T) : list T :=
  filter (λ x, Qeq_bool (key x) q = true) l.

End SortProps.

(** ** Reading a CSV line by line *)

Module CsvProps.
Import DataModel.

(** What the specification says of one line of an import. *)
Inductive LineOutcome :=
| Blank
| TooShort
| Refused (cause : HandicapError)
| Imported (name : string) (value : Q) (plus : bool).

Definition classify (line : string) : LineOutcome :=
  let fields := JS.split "," line in
  if decide (JS.trim line = ""%string) then Blank
  else if decide (length fields < 3) then TooShort
  else
    match validateHandicap (JS.trim (nth 2 fields ""%string)) with
    | inl e => Refused e
    | inr (value, plus) =>
        Imported (JS.trim (nth 0 fields ""%string) ++ ", "
                  ++ JS.trim (nth 1 fields ""%string))%string value plus
    end.

(** The error a line of number [lineNo] (counted from 1) is reported with. *)
Definition lineError (lineNo : nat) (line : string) : option CsvError :=
  match classify line with
  | TooShort => Some (NotEnoughData lineNo)
  | Refused e => Some (InvalidHandicap lineNo e)
  | _ => None
  end.

(** The name, handicap value and sign of the player a line yields. *)
Definition linePlayer (line : string) : option (string * Q * bool) :=
  match classify line with
  | Imported nm value plus => Some (nm, value, plus)
  | _ => None
  end.

Definition playerData (p : Player) : string * Q * bool :=
  (name p, handicap p, isPlus p).

(** The errors of the lines [lines], the first of which has number
    [first]. *)
Definition errorsOf (first : nat) (lines : list string) : list CsvError :=
  omap (λ e, e) (imap (λ k line, lineError (first + k) line) lines).

(** The scenario of the specification: two lines, the second with a
    handicap that is no number. *)
Definition scenarioCsv : string :=
  ("A,B,10" ++ String JS.LF ("C,D,bad" ++ String JS.LF ""))%string.

End CsvProps.

(** ** The rows of the tee sheet *)

Module TeeProps.
Import DataModel UIController.

(** The teams on hole [h] that the team list knows, in list order. *)
Definition slotsOn (s : Store) (h : Z) : list (Z * Team) :=
  omap (λ teamId, (λ team, (h, team)) <$> findTeamById teamId s)
    (default [] (holeAssignments s !! JS.int_toString h)).

(** All such teams with their holes: holes 1 to 18, slots in list order. *)
Definition assignedSlots (s : Store) : list (Z * Team) :=
  holes1to18 ≫= slotsOn s.

Definition rowAt (time : option Z) (slot : Z * Team) : Row :=
  mkRow slot.1 (formatTime time) (id slot.2) (playerLabel <$> members slot.2).

(** The row of the team that has [count] assigned teams before it, under a
    sequential start. *)
Definition sequentialRow (s : Store) (baseTime : option Z) (count : nat)
    (slot : Z * Team) : Row :=
  rowAt ((λ b, b + Z.of_nat count * timeInterval (settings s))%Z <$> baseTime) slot.

Definition sequentialRows (s : Store) (baseTime : option Z) : list Row :=
  imap (sequentialRow s baseTime) (assignedSlots s).


Definition sheetOf (rows : list Row) : TeeSheet :=
  match rows with
  | [] => NoTeamsAssigned
  | _ => Rows rows
  end.

(** Row [a] may stand before row [b]: earlier displayed time, or the same
    time and no higher hole number. *)
Definition timeThenHole (a b : Row) : Prop :=
  String.ltb (teeTime a) (teeTime b) = true ∨
  (teeTime a = teeTime b ∧ (hole a ≤ hole b)%Z).

Definition holeOrder (a b : Row) : Prop := (hole a ≤ hole b)%Z.

(** The character of the decimal digit [d]. *)
Definition digitChar (d : Z) : ascii := ascii_of_nat (Z.to_nat d + 48).

(** The text [ab:cd] of a time of day. *)
Definition clockText (a b c d : Z) : string :=
  String (digitChar a) (String (digitChar b)
    (String ":" (String (digitChar c) (String (digitChar d) EmptyString)))).

End TeeProps.

(** ** The interactive draft *)

Module DraftProps.
Import DataModel.

(** [j] is the first position of [l] at which [diff] is least. *)
Definition firstArgmin {T} (diff : T → Q) (l : list T) (j : nat) : Prop :=
  ∃ x, l !! j = Some x ∧
       (∀ k y, l !! k = Some y → (diff x <= diff y)%Q) ∧
       (∀ k y, k < j → l !! k = Some y → (diff x < diff y)%Q).

(** The state of the search loop of the balanced pick after the
    candidates [seen]. *)
Definition searchState {T} (diff : T → Q) (seen : list T)
    (best : option nat) (minDifference : option Q) : Prop :=
  match best, minDifference with
  | None, None => seen = []
  | Some b, Some m => firstArgmin diff seen b ∧ ∃ x, seen !! b = Some x ∧ m = diff x
  | _, _ => False
  end.

(** The store after the picks with the random numbers [us], in order. *)
Definition picksFrom (us : list JS.rand01) (s : Store) : Store :=
  foldl (λ st u, (makeInteractiveDraftPick u st).2) s us.

(** The slot of a team a player of group [g] goes to, and the round in
    which the group is drafted. *)
Definition slotIndex (g : GroupLetter) : nat :=
  match g with gA => 0 | gB => 1 | gC => 2 | gD => 3 end.

Definition roundOf (g : GroupLetter) : nat :=
  match g with gD => 0 | gC => 1 | gB => 2 | gA => 3 end.

(** The player a drafted team has from group [g], if any yet. *)
Definition memberFrom (g : GroupLetter) (td : DraftedTeamData) : option Player :=
  mjoin (draft_members td !! slotIndex g).

(** The players drafted from group [g] so far. *)
Definition pickedIn (g : GroupLetter) (st : DraftState) : list Player :=
  omap (memberFrom g) (draftedTeamsData st).

(** All players in the groups, A first. *)
Definition allGrouped (gs : Groups) : list Player := A gs ++ B gs ++ C gs ++ D gs.

Definition mapGroups (f : list Player → list Player) (gs : Groups) : Groups :=
  mkGroups (f (A gs)) (f (B gs)) (f (C gs)) (f (D gs)).

(** The draft of [n] teams out of the groups [orig] after [k] picks. *)
Record draftInv (orig : Groups) (n k : nat) (st : DraftState) : Prop := {
  di_numTeams : numTeams st = n;
  di_order : draftOrder st = [gD; gC; gB; gA];
  di_teams : length (draftedTeamsData st) = n;
  di_cursor :
    k = currentRoundIndex st * n + currentTeamIndex st ∧
    (currentTeamIndex st < n ∧ currentRoundIndex st < 4 ∨
     currentTeamIndex st = 0 ∧ currentRoundIndex st = 4);
  di_slots : Forall (λ td, length (draft_members td) = 4) (draftedTeamsData st);
  di_filled : ∀ i td g,
    draftedTeamsData st !! i = Some td →
    (is_Some (memberFrom g td) ↔ roundOf g * n + i < k);
  di_pools : ∀ g,
    pickedIn g st ++ get_group g (availableGroups st) ≡ₚ get_group g orig;
  di_sizes : ∀ g,
    length (get_group g (availableGroups st)) + Nat.min n (k - roundOf g * n)
    = length (get_group g orig)
}.

(** The players a list of team slots holds. *)
Definition present (ms : list (option Player)) : list Player := omap (λ m, m) ms.

(** The group [l] without the players whose object is among [removed]. *)
Definition without (removed : list Player) (l : list Player) : list Player :=
  filter (λ q, ref q ∉ ref <$> removed) l.

(** The outcomes of the picks with the random numbers [us], in order. *)
Fixpoint pickOutcomes (us : list JS.rand01) (s : Store) : list PickOutcome :=
  match us with
  | [] => []
  | u :: us' =>
      (makeInteractiveDraftPick u s).1
      :: pickOutcomes us' (makeInteractiveDraftPick u s).2
  end.

Definition pickSucceeded (o : PickOutcome) : Prop :=
  ∃ pick, o = Returned (Success pick).

(** The team [finalizeDraftedTeams] makes of the drafted team of index
    [i] when the team list has [m] teams. *)
Definition teamOf (m i : nat) (td : DraftedTeamData) : Team :=
  mkTeam (Z.of_nat (m + i) + 1) (draft_members td)
    (calculateTeamHandicap (draft_members td)).

(** All four slots of a drafted team are taken. *)
Definition fullTeam (td : DraftedTeamData) : Prop :=
  ∃ a b c d, draft_members td = [Some a; Some b; Some c; Some d].

(** The smallest of the four group sizes. *)
Definition smallestGroup (gs : Groups) : nat :=
  Nat.min (Nat.min (Nat.min (length (A gs)) (length (B gs))) (length (C gs)))
          (length (D gs)).

(** No player object occurs twice in the groups. *)
Definition distinctGrouped (gs : Groups) : Prop := NoDup (ref <$> allGrouped gs).

End DraftProps.

(** ** Properties of the input texts *)

Module TextProps.




End TextProps.

(** ** Properties of the teams *)

Module TeamProps.
Import DataModel.

(** A team of four players whose total is the sum of their effective
    handicaps. *)
Definition wellFormedTeam (t : Team) : Prop :=
  ∃ a b c d,
    members t = [Some a; Some b; Some c; Some d] ∧
    totalHandicap t = calculateTeamHandicap (members t) ∧
    (totalHandicap t == getNumericHandicap a + getNumericHandicap b
                        + getNumericHandicap c + getNumericHandicap d)%Q.

(** A draft in progress has the round order D, C, B, A and four slots in
    every team. *)
Definition draftShape (d : option DraftState) : Prop :=
  ∀ st, d = Some st →
    draftOrder st = [gD; gC; gB; gA] ∧
    Forall (λ td, length (draft_members td) = 4) (draftedTeamsData st).

(** The store after the clicks on "Next Pick" with the random numbers
    [us]. *)
Definition clicksFrom (us : list JS.rand01) (s : Store) : Store :=
  foldl (λ st u, AppController.handleNextDraftPickHandler u st) s us.

(** The two stores differ at most in their draft state. *)
Definition sameButDraft (s s' : Store) : Prop :=
  s' = set_draft (interactiveDraftState s') s.


(** No player object is twice in the registry, none twice in the groups,
    and every address in use is below the next free one. *)
Record identityInv (s : Store) : Prop := {
  registry_distinct : NoDup (ref <$> players s);
  registry_allocated : Forall (λ p, ref p < nextRef s) (players s);
  groups_distinct : DraftProps.distinctGrouped (groups s)
}.

End TeamProps.

(** ** Properties of the hole assignments *)

Module HoleProps.
Import DataModel.

(** The key of a hole in [holeAssignments]. *)
Definition doubleStackedKeys : list string := JS.int_toString <$> doubleStackedHoles.

Definition capacityOfKey (key : string) : nat :=
  if bool_decide (key ∈ doubleStackedKeys) then 2 else 1.

(** A team id is on at most one hole, at most once, and no list is longer
    than the capacity of its hole: 2 on a double-stacked hole, 1 on any
    other. *)
Record holesInv (ha : gmap string (list Z)) : Prop := {
  one_hole : ∀ k1 k2 l1 l2 t,
    ha !! k1 = Some l1 → ha !! k2 = Some l2 → t ∈ l1 → t ∈ l2 → k1 = k2;
  once_on_hole : ∀ k l, ha !! k = Some l → NoDup l;
  within_capacity : ∀ k l, ha !! k = Some l → length l ≤ capacityOfKey k
}.

(** What a pass of the automatic assignment does with one team: the id is
    appended to the list of the hole. *)
Definition place (ha : gmap string (list Z)) (ht : Z * Z) : gmap string (list Z) :=
  <[JS.int_toString ht.1 := default [] (ha !! JS.int_toString ht.1) ++ [ht.2]]> ha.

(** The two passes as the specification words them: the first teams go
    to the holes 1 to 18, one each in order; the teams after them go to
    the double-stacked holes in order. *)
Definition twoPassSpec (ids : list Z) : gmap string (list Z) :=
  foldl place (foldl place ∅ (zip holes1to18 ids))
    (zip doubleStackedHoles (drop 18 ids)).

(** The scheduler changes nothing but the assignments. *)
Definition onlyHoles (s s' : Store) : Prop := ∃ ha, s' = set_holeAssignments ha s.

Definition validHole (h : Z) : Prop := (1 ≤ h ≤ 18)%Z.

(** No team from position [k] on is on a hole yet. *)
Definition freeFrom (ids : list Z) (k : nat) (ha : gmap string (list Z)) : Prop :=
  ∀ i x, k ≤ i → ids !! i = Some x → ¬ map_Exists (λ _ l, x ∈ l) ha.

Definition atMostOne (ha : gmap string (list Z)) : Prop :=
  ∀ key l, ha !! key = Some l → length l ≤ 1.

(** The ids on the holes, as a set. *)
Definition assignedIn (ha : gmap string (list Z)) : gset Z :=
  ⋃ ((λ kv, list_to_set kv.2) <$> map_to_list ha).

(** The teams are numbered [n + 1], [n + 2], ... in list order. *)
Definition numberedFrom (n : nat) (ts : list Team) : Prop :=
  id <$> ts = Z.of_nat <$> seq (n + 1) (length ts).

(** The transposition of the positions [i] and [j]. *)
Definition transpose (i j k : nat) : nat :=
  if decide (k = i) then j else if decide (k = j) then i else k.

(** The random number [q], when [q] lies in [0,1). *)
Definition mkRand (q : Q) : JS.rand01 :=
  match bool_dec (Qle_bool 0 q && negb (Qle_bool 1 q)) true with
  | left H => JS.Rand01 q H
  | right _ => JS.Rand01 0 eq_refl
  end.

(** A random number that makes [Math.floor(Math.random() * n)] come out
    as [j]. *)
Definition drawOf (j n : nat) : JS.rand01 :=
  mkRand (Z.of_nat j # Pos.of_nat n).

(** The index drawn in the turn of the Fisher-Yates loop with loop
    variable [i]. *)
Definition drawAt (rnd : nat → JS.rand01) (i : nat) : nat :=
  JS.random_index (rnd i) (i + 1).

(** Every key of the assignments is the decimal of a hole from 1 to 18,
    and its list holds at least one id, none of them 0. *)
Definition keysInv (ha : gmap string (list Z)) : Prop :=
  ∀ k l, ha !! k = Some l →
    l ≠ [] ∧ (0%Z ∉ l) ∧ ∃ h, validHole h ∧ k = JS.int_toString h.

(** The ids on the holes 1 to 18, hole by hole. *)
Definition onCourse (ha : gmap string (list Z)) : list Z :=
  holes1to18 ≫= (λ h, default [] (ha !! JS.int_toString h)).

(** The two stores differ at most in their assignments. *)
Definition sameButHoles (s s' : Store) : Prop :=
  players s' = players s ∧ groups s' = groups s ∧ teams s' = teams s ∧
  settings s' = settings s ∧
  interactiveDraftState s' = interactiveDraftState s ∧ nextRef s' = nextRef s.

End HoleProps.

(** ** Properties of a session *)

Module SessionProps.
Import DataModel.



End SessionProps.

Section HoleLemmas.
Import DataModel HoleProps.
Implicit Types (ha : gmap string (list Z)) (s : Store) (t h : Z).

Lemma capacityOfKey_hole h : capacityOfKey (JS.int_toString h) = maxTeamsOn h.
Proof.
  unfold capacityOfKey, maxTeamsOn, doubleStackedKeys.
  erewrite bool_decide_ext; [reflexivity|].
  rewrite list_elem_of_fmap. split.
  - intros (h' & Heq & Hin). by apply (inj pretty) in Heq as ->.
  - intros Hin. by exists h.
Qed.

Lemma holesInv_empty : holesInv ∅.
Proof. split; intros *; by rewrite ?lookup_empty. Qed.

Lemma holesInv_place ha h t :
  holesInv ha →
  ¬ map_Exists (λ _ ids, t ∈ ids) ha →
  length (default [] (ha !! JS.int_toString h)) < maxTeamsOn h →
  holesInv (place ha (h, t)).
Proof.
  intros [H1 H2 H3] Hfree Hroom. unfold place; simpl.
  set (k := JS.int_toString h) in *.
  assert (Hnot : ∀ k' l', ha !! k' = Some l' → t ∉ l').
  { intros k' l' Hl Hin. apply Hfree. by exists k', l'. }
  assert (Hold : ∀ x, x ∈ default [] (ha !! k) → ∃ l, ha !! k = Some l ∧ x ∈ l).
  { intros x. destruct (ha !! k) as [l|] eqn:E; simpl; [eauto|].
    by intros ?%elem_of_nil. }
  split.
  - intros k1 k2 l1 l2 x.
    destruct (decide (k1 = k)) as [->|Hk1], (decide (k2 = k)) as [->|Hk2];
      rewrite ?lookup_insert_eq, ?lookup_insert_ne by done; try done.
    + intros [= <-] Hl2 [Hx | ->%list_elem_of_singleton]%elem_of_app Hx2.
      * destruct (Hold _ Hx) as (l & Hl & Hxl). eauto.
      * by destruct (Hnot _ _ Hl2).
    + intros Hl1 [= <-] Hx1 [Hx | ->%list_elem_of_singleton]%elem_of_app.
      * destruct (Hold _ Hx) as (l & Hl & Hxl). eauto.
      * by destruct (Hnot _ _ Hl1).
    + eauto.
  - intros k' l'. destruct (decide (k' = k)) as [->|Hk'];
      rewrite ?lookup_insert_eq, ?lookup_insert_ne by done; [|eauto].
    intros [= <-]. apply NoDup_app. split_and!.
    + destruct (ha !! k) as [l|] eqn:E; simpl; [eauto | constructor].
    + intros x Hx ->%list_elem_of_singleton.
      destruct (Hold _ Hx) as (l & Hl & Hxl). by destruct (Hnot _ _ Hl).
    + apply NoDup_singleton.
  - intros k' l'. destruct (decide (k' = k)) as [->|Hk'];
      rewrite ?lookup_insert_eq, ?lookup_insert_ne by done; [|eauto].
    intros [= <-]. subst k. rewrite capacityOfKey_hole, length_app. simpl. lia.
Qed.

Lemma assignTeamToHole_cases t h s :
  (succeeded (assignTeamToHole t h s).1 = false ∧ (assignTeamToHole t h s).2 = s) ∨
  (succeeded (assignTeamToHole t h s).1 = true ∧
   (assignTeamToHole t h s).2 = set_holeAssignments (place (holeAssignments s) (h, t)) s ∧
   invalidInput t h = false ∧
   ¬ map_Exists (λ _ ids, t ∈ ids) (holeAssignments s) ∧
   length (default [] (holeAssignments s !! JS.int_toString h)) < maxTeamsOn h).
Proof.
  unfold assignTeamToHole.
  destruct (invalidInput t h) eqn:Hv; [by left|].
  case_bool_decide as Hex; [by left|].
  case_bool_decide as Hfull; [by left|].
  right. simpl. split_and!; try done. lia.
Qed.

Lemma holesInv_assign t h s :
  holesInv (holeAssignments s) → holesInv (holeAssignments (assignTeamToHole t h s).2).
Proof.
  intros Hinv.
  destruct (assignTeamToHole_cases t h s) as [[_ ->] | (_ & -> & _ & Hfree & Hroom)];
    [done|]. simpl. by apply holesInv_place.
Qed.

(** Shrinking lists, or dropping holes, keeps the invariant. *)
Lemma holesInv_shrink ha ha' :
  (∀ k l', ha' !! k = Some l' → ∃ l, ha !! k = Some l ∧ l' `sublist_of` l) →
  holesInv ha → holesInv ha'.
Proof.
  intros Hsub [H1 H2 H3]. split.
  - intros k1 k2 l1 l2 x Hl1 Hl2 Hx1 Hx2.
    destruct (Hsub _ _ Hl1) as (m1 & Hm1 & S1), (Hsub _ _ Hl2) as (m2 & Hm2 & S2).
    eapply H1; eauto using elem_of_sublist.
  - intros k l' Hl'. destruct (Hsub _ _ Hl') as (l & Hl & S).
    eapply sublist_NoDup; eauto.
  - intros k l' Hl'. destruct (Hsub _ _ Hl') as (l & Hl & S).
    apply sublist_length in S. specialize (H3 _ _ Hl). lia.
Qed.

Lemma holesInv_remove t h s :
  holesInv (holeAssignments s) → holesInv (holeAssignments (removeTeamFromHole t h s).2).
Proof.
  intros Hinv. unfold removeTeamFromHole.
  destruct (invalidInput t h); [done|].
  destruct (holeAssignments s !! JS.int_toString h) as [ids|] eqn:Hids; [|done].
  case_bool_decide; [|done]. simpl.
  eapply holesInv_shrink; [|exact Hinv].
  intros k l'. case_bool_decide.
  - rewrite lookup_delete. case_decide; [done|]. intros ?. by exists l'.
  - rewrite lookup_insert. case_decide as Hk.
    + subst k. intros [= <-]. exists ids. split; [done|]. apply sublist_filter.
    + intros ?. by exists l'.
Qed.

Lemma holesInv_firstPass tta holes k s :
  holesInv (holeAssignments s) →
  holesInv (holeAssignments (firstPass tta holes k s).2).
Proof.
  revert k s. induction holes as [|h holes IH]; intros k s Hinv; simpl; [done|].
  destruct (tta !! k) as [team|]; [|done].
  pose proof (holesInv_assign (id team) h s Hinv) as Hinv'.
  destruct (assignTeamToHole (id team) h s) as [r s']. by apply IH.
Qed.

Lemma holesInv_secondPass tta holes k s :
  holesInv (holeAssignments s) →
  holesInv (holeAssignments (secondPass tta holes k s).2).
Proof.
  revert k s. induction holes as [|h holes IH]; intros k s Hinv; simpl; [done|].
  destruct (tta !! k) as [team|]; [|done].
  case_bool_decide; [|by apply IH].
  case_bool_decide; [|by apply IH].
  pose proof (holesInv_assign (id team) h s Hinv) as Hinv'.
  destruct (assignTeamToHole (id team) h s) as [r s']. by apply IH.
Qed.

Lemma holesInv_twoPasses tta s :
  holesInv (holeAssignments s) →
  holesInv (holeAssignments (assignInTwoPasses tta s)).
Proof.
  intros Hinv. unfold assignInTwoPasses.
  pose proof (holesInv_firstPass tta holes1to18 0 s Hinv) as H1.
  destruct (firstPass tta holes1to18 0 s) as [k s1].
  by apply holesInv_secondPass.
Qed.

Lemma holesInv_autoAssign s : holesInv (holeAssignments (autoAssignTeams s).2).
Proof. apply holesInv_twoPasses. simpl. apply holesInv_empty. Qed.

Lemma holesInv_randomize rnd s :
  holesInv (holeAssignments (randomizeTeamAssignments rnd s).2).
Proof. apply holesInv_twoPasses. simpl. apply holesInv_empty. Qed.

Lemma onlyHoles_refl s : onlyHoles s s.
Proof. exists (holeAssignments s). by destruct s. Qed.

Lemma onlyHoles_trans s1 s2 s3 : onlyHoles s1 s2 → onlyHoles s2 s3 → onlyHoles s1 s3.
Proof. intros [ha ->] [ha' ->]. by exists ha'. Qed.

Lemma assign_onlyHoles t h s : onlyHoles s (assignTeamToHole t h s).2.
Proof.
  destruct (assignTeamToHole_cases t h s) as [[_ ->] | (_ & -> & _)];
    [apply onlyHoles_refl | by eexists].
Qed.

Lemma remove_onlyHoles t h s : onlyHoles s (removeTeamFromHole t h s).2.
Proof.
  unfold removeTeamFromHole.
  repeat (case_match || case_bool_decide); simpl;
    first [apply onlyHoles_refl | by eexists].
Qed.

Lemma firstPass_onlyHoles tta holes k s : onlyHoles s (firstPass tta holes k s).2.
Proof.
  revert k s. induction holes as [|h holes IH]; intros k s; simpl;
    [apply onlyHoles_refl|].
  destruct (tta !! k) as [team|]; [|apply onlyHoles_refl].
  pose proof (assign_onlyHoles (id team) h s) as H1.
  destruct (assignTeamToHole (id team) h s) as [r s']. simpl in H1.
  eapply onlyHoles_trans; [exact H1 | apply IH].
Qed.

Lemma secondPass_onlyHoles tta holes k s : onlyHoles s (secondPass tta holes k s).2.
Proof.
  revert k s. induction holes as [|h holes IH]; intros k s; simpl;
    [apply onlyHoles_refl|].
  destruct (tta !! k) as [team|]; [|apply onlyHoles_refl].
  case_bool_decide; [|by apply IH].
  case_bool_decide; [|by apply IH].
  pose proof (assign_onlyHoles (id team) h s) as H1.
  destruct (assignTeamToHole (id team) h s) as [r s']. simpl in H1.
  eapply onlyHoles_trans; [exact H1 | apply IH].
Qed.

Lemma twoPasses_onlyHoles tta s : onlyHoles s (assignInTwoPasses tta s).
Proof.
  unfold assignInTwoPasses.
  pose proof (firstPass_onlyHoles tta holes1to18 0 s) as H1.
  destruct (firstPass tta holes1to18 0 s) as [k s1]. simpl in H1.
  eapply onlyHoles_trans; [exact H1 | apply secondPass_onlyHoles].
Qed.

Lemma autoAssign_onlyHoles s : onlyHoles s (autoAssignTeams s).2.
Proof.
  unfold autoAssignTeams. simpl.
  eapply onlyHoles_trans; [|apply twoPasses_onlyHoles]. by eexists.
Qed.

Lemma randomize_onlyHoles rnd s : onlyHoles s (randomizeTeamAssignments rnd s).2.
Proof.
  unfold randomizeTeamAssignments. simpl.
  eapply onlyHoles_trans; [|apply twoPasses_onlyHoles]. by eexists.
Qed.

(** The operations on players, groups, teams and the draft leave the
    assignments alone. *)
Lemma step_holeAssignments s s' :
  Reach.step s s' →
  holeAssignments s' = holeAssignments s ∨ holeAssignments s' = ∅ ∨
  (∃ t h, s' = (assignTeamToHole t h s).2) ∨
  (∃ t h, s' = (removeTeamFromHole t h s).2) ∨
  s' = (autoAssignTeams s).2 ∨
  (∃ rnd, s' = (randomizeTeamAssignments rnd s).2).
Proof.
  destruct 1.
  - right; left; done.
  - left. unfold addPlayer. by repeat case_match.
  - left. unfold removePlayer. by case_match.
  - left. unfold AppController.processCSVHandler. simpl.
    by repeat (case_match || case_bool_decide).
  - left. unfold groupPlayers. by case_bool_decide.
  - left. unfold selectTeam. by case_match.
  - left. unfold initializeInteractiveDraft. by case_bool_decide.
  - left. unfold makeInteractiveDraftPick.
    by repeat (case_match || case_bool_decide).
  - left. unfold finalizeDraftedTeams.
    by repeat (case_match || case_bool_decide).
  - do 2 right; left. by exists teamId, hole.
  - do 3 right; left. by exists teamId, hole.
  - do 4 right; left. done.
  - do 5 right. by exists rnd.
  - by left.
  - by left.
  - right; left; done.
  - by left.
Qed.

Lemma reachable_holesInv s : Reach.reachable s → holesInv (holeAssignments s).
Proof.
  induction 1 as [|s s' _ IH Hstep]; [apply holesInv_empty|].
  destruct (step_holeAssignments _ _ Hstep)
    as [-> | [-> | [(t & h & ->) | [(t & h & ->) | [-> | (rnd & ->)]]]]].
  - done.
  - apply holesInv_empty.
  - by apply holesInv_assign.
  - by apply holesInv_remove.
  - apply holesInv_autoAssign.
  - apply holesInv_randomize.
Qed.

End HoleLemmas.

(** The two passes, run on a list of teams with pairwise distinct non-zero
    ids, place exactly the teams the specification names. *)
Section TwoPasses.
Import DataModel HoleProps.
Implicit Types (ha : gmap string (list Z)) (s : Store) (t h : Z).

Lemma set_holeAssignments_id s : set_holeAssignments (holeAssignments s) s = s.
Proof. by destruct s. Qed.

Lemma set_holeAssignments_twice ha ha' s :
  set_holeAssignments ha' (set_holeAssignments ha s) = set_holeAssignments ha' s.
Proof. done. Qed.

Lemma place_exists ha h t x :
  map_Exists (λ _ l, x ∈ l) (place ha (h, t)) ↔
  x = t ∨ map_Exists (λ _ l, x ∈ l) ha.
Proof.
  unfold place; simpl. set (k := JS.int_toString h). split.
  - intros (k' & l' & Hl' & Hx). revert Hl'. rewrite lookup_insert.
    case_decide as Hk.
    + intros [= <-]. apply elem_of_app in Hx as [Hx | ->%list_elem_of_singleton];
        [|by left].
      right. destruct (ha !! k) as [l|] eqn:E; simpl in Hx.
      * by exists k, l.
      * by apply elem_of_nil in Hx.
    + intros Hl'. right. by exists k', l'.
  - intros [-> | (k' & l' & Hl' & Hx)].
    + exists k, (default [] (ha !! k) ++ [t]). rewrite lookup_insert_eq.
      split; [done|]. apply elem_of_app. right. by apply list_elem_of_singleton.
    + destruct (decide (k' = k)) as [->|Hk].
      * exists k, (default [] (ha !! k) ++ [t]). rewrite lookup_insert_eq.
        split; [done|]. rewrite Hl'. simpl. apply elem_of_app. by left.
      * exists k', l'. by rewrite lookup_insert_ne.
Qed.

Lemma assign_succeeds t h s :
  t ≠ 0%Z → validHole h →
  ¬ map_Exists (λ _ l, t ∈ l) (holeAssignments s) →
  length (default [] (holeAssignments s !! JS.int_toString h)) < maxTeamsOn h →
  assignTeamToHole t h s
  = (Success (), set_holeAssignments (place (holeAssignments s) (h, t)) s).
Proof.
  intros Ht [Hlo Hhi] Hfree Hroom. unfold assignTeamToHole.
  replace (invalidInput t h) with false; cycle 1.
  { symmetry. unfold invalidInput.
    repeat (case_bool_decide; simpl); try done; lia. }
  rewrite bool_decide_eq_false_2 by done.
  rewrite bool_decide_eq_false_2 by lia. done.
Qed.

Lemma freeFrom_place ids k ha h t :
  NoDup ids → ids !! k = Some t →
  freeFrom ids k ha → freeFrom ids (S k) (place ha (h, t)).
Proof.
  intros Hnd Hk Hfree i x Hi Hx [-> | Hex]%place_exists.
  - pose proof (NoDup_lookup _ _ _ _ Hnd Hk Hx). lia.
  - eapply (Hfree i x); eauto with lia.
Qed.

Section WithTeams.
Variable tta : list Team.
Hypothesis ids_distinct : NoDup (id <$> tta).
Hypothesis ids_nonzero : 0%Z ∉ (id <$> tta).

Lemma firstPass_spec hs k s :
  Forall validHole hs → NoDup hs →
  (∀ h, h ∈ hs → holeAssignments s !! JS.int_toString h = None) →
  freeFrom (id <$> tta) k (holeAssignments s) → atMostOne (holeAssignments s) →
  let pairs := zip hs (drop k (id <$> tta)) in
  let ha' := foldl place (holeAssignments s) pairs in
  firstPass tta hs k s = (k + length pairs, set_holeAssignments ha' s) ∧
  freeFrom (id <$> tta) (k + length pairs) ha' ∧ atMostOne ha'.
Proof.
  revert k s. induction hs as [|h hs IH]; intros k s Hvalid Hnd Hnone Hfree Hsmall.
  { simpl. rewrite Nat.add_0_r, set_holeAssignments_id. done. }
  simpl. destruct (tta !! k) as [team|] eqn:Hteam.
  - assert (Hid : (id <$> tta) !! k = Some (id team))
      by (by rewrite list_lookup_fmap, Hteam).
    rewrite (drop_S _ _ _ Hid). simpl.
    apply Forall_cons in Hvalid as [Hh Hvalid].
    apply NoDup_cons in Hnd as [Hh_new Hnd].
    rewrite assign_succeeds; cycle 1.
    + intros E. apply ids_nonzero. rewrite <- E.
      by eapply list_elem_of_lookup_2.
    + done.
    + eapply Hfree; [|done]. done.
    + rewrite Hnone by left. simpl. unfold maxTeamsOn. case_bool_decide; lia.
    + simpl.
      set (s' := set_holeAssignments (place (holeAssignments s) (h, id team)) s).
      destruct (IH (S k) s') as (Heq & Hfree' & Hsmall'); try done.
      * intros h' Hh'. simpl. unfold place. simpl.
        rewrite lookup_insert_ne; [apply Hnone; by right|].
        intros E. apply (inj pretty) in E. by subst.
      * simpl. by apply freeFrom_place.
      * simpl. intros key l. unfold place. simpl.
        rewrite lookup_insert. case_decide.
        -- intros [= <-]. rewrite Hnone by left. done.
        -- apply Hsmall.
      * simpl in *. rewrite Heq.
        replace (k + S (length (zip hs (drop (S k) (id <$> tta)))))
          with (S k + length (zip hs (drop (S k) (id <$> tta)))) by lia.
        done.
  - assert (Hlen : length (id <$> tta) ≤ k).
    { rewrite length_fmap. by apply lookup_ge_None. }
    rewrite (drop_ge _ _ Hlen), ?zip_with_nil_r. simpl.
    rewrite Nat.add_0_r, set_holeAssignments_id. done.
Qed.

Lemma secondPass_spec hs k s :
  Forall validHole hs → NoDup hs →
  freeFrom (id <$> tta) k (holeAssignments s) →
  (∀ h, h ∈ hs → length (default [] (holeAssignments s !! JS.int_toString h)) ≤ 1) →
  let pairs := zip (filter (λ h, h ∈ doubleStackedHoles) hs) (drop k (id <$> tta)) in
  secondPass tta hs k s
  = (k + length pairs,
     set_holeAssignments (foldl place (holeAssignments s) pairs) s).
Proof.
  revert k s. induction hs as [|h hs IH]; intros k s Hvalid Hnd Hfree Hroom.
  { simpl. rewrite Nat.add_0_r, set_holeAssignments_id. done. }
  simpl.
  apply Forall_cons in Hvalid as [Hh Hvalid].
  apply NoDup_cons in Hnd as [Hh_new Hnd].
  destruct (tta !! k) as [team|] eqn:Hteam.
  - assert (Hid : (id <$> tta) !! k = Some (id team))
      by (by rewrite list_lookup_fmap, Hteam).
    rewrite filter_cons. case_bool_decide as Hdbl.
    + rewrite decide_True by done.
      rewrite (drop_S _ _ _ Hid). simpl.
      pose proof (Hroom h ltac:(left)) as Hh1.
      rewrite bool_decide_eq_true_2 by lia.
      rewrite assign_succeeds; cycle 1.
      * intros E. apply ids_nonzero. rewrite <- E.
        by eapply list_elem_of_lookup_2.
      * done.
      * eapply Hfree; [|done]. done.
      * unfold maxTeamsOn. rewrite bool_decide_eq_true_2 by done. lia.
      * simpl.
        set (s' := set_holeAssignments (place (holeAssignments s) (h, id team)) s).
        rewrite (IH (S k) s'); try done.
        -- simpl. f_equal. lia.
        -- simpl. by apply freeFrom_place.
        -- simpl. intros h' Hh'. unfold place. simpl.
           rewrite lookup_insert_ne; [apply Hroom; by right|].
           intros E. apply (inj pretty) in E. by subst.
    + rewrite decide_False by done. apply IH; try done.
      intros h' Hh'. apply Hroom. by right.
  - assert (Hlen : length (id <$> tta) ≤ k).
    { rewrite length_fmap. by apply lookup_ge_None. }
    rewrite (drop_ge _ _ Hlen), ?zip_with_nil_r. simpl.
    rewrite Nat.add_0_r, set_holeAssignments_id. done.
Qed.
Lemma filter_doubleStacked :
  filter (λ h, h ∈ doubleStackedHoles) holes1to18 = doubleStackedHoles.
Proof. by vm_compute. Qed.

Lemma holes1to18_valid : Forall validHole holes1to18.
Proof. unfold holes1to18. apply Forall_fmap, Forall_forall.
  intros i [? ?]%elem_of_seq. unfold validHole. simpl. lia. Qed.

Lemma holes1to18_NoDup : NoDup holes1to18.
Proof. unfold holes1to18. apply (NoDup_fmap_2 _), NoDup_seq. Qed.

Lemma twoPasses_spec s :
  assignInTwoPasses tta (set_holeAssignments ∅ s)
  = set_holeAssignments (twoPassSpec (id <$> tta)) s.
Proof.
  unfold assignInTwoPasses, twoPassSpec.
  destruct (firstPass_spec holes1to18 0 (set_holeAssignments ∅ s))
    as (-> & Hfree & Hsmall).
  - apply holes1to18_valid.
  - apply holes1to18_NoDup.
  - intros h _. apply lookup_empty.
  - intros i x _ _ (k & l & Hl & _).
    cbn [holeAssignments set_holeAssignments] in Hl. by rewrite lookup_empty in Hl.
  - intros k l Hl.
    cbn [holeAssignments set_holeAssignments] in Hl. by rewrite lookup_empty in Hl.
  - cbn [holeAssignments set_holeAssignments] in *. rewrite drop_0 in *.
    rewrite Nat.add_0_l in *.
    rewrite secondPass_spec; cbn [holeAssignments set_holeAssignments].
    + rewrite filter_doubleStacked, set_holeAssignments_twice. f_equal.
      rewrite length_zip. change (length holes1to18) with 18.
      destruct (decide (18 ≤ length (id <$> tta))).
      * by rewrite Nat.min_l.
      * rewrite Nat.min_r by lia. by rewrite !drop_ge by lia.
    + apply holes1to18_valid.
    + apply holes1to18_NoDup.
    + done.
    + intros h _.
      destruct (foldl place ∅ (zip holes1to18 (id <$> tta)) !! JS.int_toString h)
        as [l|] eqn:E; cbn [default length]; [by eapply Hsmall | lia].
Qed.
End WithTeams.

Lemma elem_of_assignedIn ha x :
  x ∈ assignedIn ha ↔ map_Exists (λ _ l, x ∈ l) ha.
Proof.
  unfold assignedIn. rewrite elem_of_union_list. split.
  - intros (X & HX & Hx). apply list_elem_of_fmap in HX as ([k l] & -> & Hkl).
    apply elem_of_map_to_list in Hkl. apply elem_of_list_to_set in Hx.
    by exists k, l.
  - intros (k & l & Hl & Hx). exists (list_to_set l). split.
    + apply list_elem_of_fmap. exists (k, l). split; [done|].
      by apply elem_of_map_to_list.
    + by apply elem_of_list_to_set.
Qed.

Lemma assignedIn_foldl_place ha pairs :
  assignedIn (foldl place ha pairs) = list_to_set pairs.*2 ∪ assignedIn ha.
Proof.
  revert ha. induction pairs as [|[h t] pairs IH]; intros ha; simpl.
  { by rewrite (left_id_L ∅ (∪)). }
  rewrite IH. apply set_eq. intros x.
  rewrite !elem_of_union, !elem_of_assignedIn, place_exists, elem_of_singleton.
  tauto.
Qed.

Lemma snd_zip_take {X Y} (l : list X) (k : list Y) :
  (zip l k).*2 = take (length l) k.
Proof.
  revert k. induction l as [|x l IH]; intros [|y k]; simpl; [done..|].
  by rewrite IH.
Qed.

Lemma assignedIn_empty : assignedIn ∅ = ∅.
Proof.
  apply set_eq. intros x. rewrite elem_of_assignedIn. split.
  - intros (k & l & Hl & _). by rewrite lookup_empty in Hl.
  - by intros ?%not_elem_of_empty.
Qed.

Lemma assignedIn_twoPassSpec ids :
  assignedIn (twoPassSpec ids) = list_to_set (take 28 ids).
Proof.
  unfold twoPassSpec.
  rewrite !assignedIn_foldl_place, assignedIn_empty, (right_id_L ∅ (∪)).
  rewrite !snd_zip_take.
  change (length holes1to18) with 18. change (length doubleStackedHoles) with 10.
  rewrite (union_comm_L _ _), <- list_to_set_app_L, take_take_drop. done.
Qed.

End TwoPasses.

(** [Math.floor(Math.random() * n)] *)
Section Random.
Import HoleProps.

Lemma rand01_range u : (0 <= JS.rv u)%Q ∧ (JS.rv u < 1)%Q.
Proof.
  destruct u as [q Hq]. simpl.
  apply andb_true_iff in Hq as [H0 H1]. split.
  - by apply Qle_bool_iff.
  - apply Qnot_le_lt. intros Hle%Qle_bool_iff. by rewrite Hle in H1.
Qed.

Lemma Qfloor_eq_iff (x : Q) (z : Z) :
  Qfloor x = z ↔ (inject_Z z <= x)%Q ∧ (x < inject_Z (z + 1))%Q.
Proof.
  split.
  - intros <-. split; [apply Qfloor_le | apply Qlt_floor].
  - intros [Hlo Hhi].
    pose proof (Qfloor_le x) as H1. pose proof (Qlt_floor x) as H2.
    assert (Ha : (inject_Z z < inject_Z (Qfloor x + 1))%Q) by lra.
    assert (Hb : (inject_Z (Qfloor x) < inject_Z (z + 1))%Q) by lra.
    rewrite <- Zlt_Qlt in Ha, Hb. lia.
Qed.

Lemma inject_Z_pos (n : nat) : 0 < n → (0 < inject_Z (Z.of_nat n))%Q.
Proof. intros Hn. change 0%Q with (inject_Z 0). rewrite <- Zlt_Qlt. lia. Qed.

(** Index [j] is drawn exactly by the random numbers of the interval
    from [j/n] to [(j+1)/n]: every index has the same share. *)
Lemma random_index_share u n j :
  0 < n →
  JS.random_index u n = j ↔
  (inject_Z (Z.of_nat j) / inject_Z (Z.of_nat n) <= JS.rv u)%Q ∧
  (JS.rv u < inject_Z (Z.of_nat j + 1) / inject_Z (Z.of_nat n))%Q.
Proof.
  intros Hn. unfold JS.random_index.
  destruct (rand01_range u) as [H0 H1].
  pose proof (inject_Z_pos n Hn) as HnQ.
  set (N := inject_Z (Z.of_nat n)) in *.
  assert (Hnonneg : (0 ≤ Qfloor (JS.rv u * N))%Z).
  { change 0%Z with (Qfloor 0). apply Qfloor_resp_le.
    apply Qmult_le_0_compat; lra. }
  assert (Hiff : Z.to_nat (Qfloor (JS.rv u * N)) = j ↔
                 Qfloor (JS.rv u * N) = Z.of_nat j) by lia.
  rewrite Hiff, Qfloor_eq_iff. split; intros [Hlo Hhi]; split.
  - apply Qle_shift_div_r; [done|]. lra.
  - apply Qlt_shift_div_l; [done|]. lra.
  - assert (E : (inject_Z (Z.of_nat j) == inject_Z (Z.of_nat j) / N * N)%Q)
      by (field; lra).
    rewrite E. nra.
  - assert (E : (inject_Z (Z.of_nat j + 1) == inject_Z (Z.of_nat j + 1) / N * N)%Q)
      by (field; lra).
    rewrite E. nra.
Qed.

Lemma random_index_lt u n : 0 < n → JS.random_index u n < n.
Proof.
  intros Hn.
  destruct (proj1 (random_index_share u n _ Hn) eq_refl) as [Hlo _].
  destruct (rand01_range u) as [_ H1].
  pose proof (inject_Z_pos n Hn) as HnQ.
  assert (Hlt : (inject_Z (Z.of_nat (JS.random_index u n)) < inject_Z (Z.of_nat n))%Q).
  { apply Qnot_le_lt. intros Hge.
    assert ((1 <= inject_Z (Z.of_nat (JS.random_index u n)) / inject_Z (Z.of_nat n))%Q).
    { apply Qle_shift_div_l; [done|]. lra. }
    lra. }
  rewrite <- Zlt_Qlt in Hlt. lia.
Qed.

Lemma rv_mkRand q : (0 <= q)%Q → (q < 1)%Q → JS.rv (mkRand q) = q.
Proof.
  intros H0 H1. unfold mkRand.
  destruct (bool_dec _ _) as [H|H]; [done|]. exfalso. apply H.
  apply andb_true_iff. split.
  - by apply Qle_bool_iff.
  - apply negb_true_iff. apply not_true_is_false. intros Hle%Qle_bool_iff. lra.
Qed.

Lemma random_index_drawOf j n : j < n → JS.random_index (drawOf j n) n = j.
Proof.
  intros Hj. assert (Hn : 0 < n) by lia.
  pose proof (inject_Z_pos n Hn) as HnQ.
  assert (Eq : (Z.of_nat j # Pos.of_nat n == inject_Z (Z.of_nat j) / inject_Z (Z.of_nat n))%Q).
  { rewrite (Qmake_Qdiv (Z.of_nat j) (Pos.of_nat n)).
    replace (Z.pos (Pos.of_nat n)) with (Z.of_nat n) by lia. reflexivity. }
  assert (Hj0 : (0 <= inject_Z (Z.of_nat j))%Q).
  { change 0%Q with (inject_Z 0). rewrite <- Zle_Qle. lia. }
  assert (Hjn : (inject_Z (Z.of_nat j) < inject_Z (Z.of_nat n))%Q).
  { rewrite <- Zlt_Qlt. lia. }
  apply random_index_share; [done|]. unfold drawOf.
  rewrite rv_mkRand.
  - rewrite Eq. split; [lra|].
    apply Qlt_shift_div_l; [done|].
    assert (E : (inject_Z (Z.of_nat j) / inject_Z (Z.of_nat n) * inject_Z (Z.of_nat n)
                 == inject_Z (Z.of_nat j))%Q) by (field; lra).
    rewrite E, <- Zlt_Qlt. lia.
  - rewrite Eq. apply Qle_shift_div_l; [done|]. lra.
  - rewrite Eq. apply Qlt_shift_div_r; [done|]. lra.
Qed.

End Random.

(** The Fisher-Yates loop. *)
Section Shuffle.
Import DataModel HoleProps.
Context {T : Type}.
Implicit Types (arr : list T) (i j k : nat).

Lemma transpose_involutive i j k : transpose i j (transpose i j k) = k.
Proof. unfold transpose. repeat case_decide; congruence. Qed.

Lemma transpose_inj i j : Inj (=) (=) (transpose i j).
Proof.
  intros k1 k2 E. rewrite <- (transpose_involutive i j k1), E.
  apply transpose_involutive.
Qed.

Lemma swap_lookup i j arr k :
  i < length arr → j < length arr →
  JS.swap i j arr !! k = arr !! transpose i j k.
Proof.
  intros Hi Hj. unfold JS.swap, transpose.
  destruct (lookup_lt_is_Some_2 arr i Hi) as [x Hx].
  destruct (lookup_lt_is_Some_2 arr j Hj) as [y Hy].
  rewrite Hx, Hy.
  destruct (decide (k = j)) as [->|Hkj].
  - rewrite list_lookup_insert_eq by (by rewrite length_insert).
    case_decide; congruence.
  - rewrite list_lookup_insert_ne by done.
    destruct (decide (k = i)) as [->|Hki].
    + by rewrite list_lookup_insert_eq.
    + by rewrite list_lookup_insert_ne.
Qed.

Lemma swap_length i j arr : length (JS.swap i j arr) = length arr.
Proof. unfold JS.swap. repeat case_match; by rewrite ?length_insert. Qed.

Lemma swap_Permutation i j arr : JS.swap i j arr ≡ₚ arr.
Proof.
  destruct (decide (i < length arr ∧ j < length arr)) as [[Hi Hj]|Hout].
  - apply Permutation_inj. split; [apply swap_length|].
    exists (transpose i j). split; [apply transpose_inj|].
    intros k. by apply swap_lookup.
  - unfold JS.swap.
    destruct (arr !! i) eqn:Ei; [|done]. destruct (arr !! j) eqn:Ej; [|done].
    apply lookup_lt_Some in Ei, Ej. lia.
Qed.

Lemma shuffleFrom_Permutation rnd i arr : shuffleFrom rnd i arr ≡ₚ arr.
Proof.
  revert arr. induction i as [|i IH]; intros arr; simpl; [done|].
  by rewrite IH, swap_Permutation.
Qed.

Lemma shuffle_Permutation rnd arr : shuffle rnd arr ≡ₚ arr.
Proof. apply shuffleFrom_Permutation. Qed.

Lemma swap_lookup_other i j arr k :
  k ≠ i → k ≠ j → JS.swap i j arr !! k = arr !! k.
Proof.
  intros Hi Hj. unfold JS.swap.
  destruct (arr !! i); [|done]. destruct (arr !! j); [|done].
  by rewrite !list_lookup_insert_ne.
Qed.

Lemma swap_lookup_top i j arr :
  i < length arr → j < length arr → JS.swap i j arr !! i = arr !! j.
Proof.
  intros Hi Hj. rewrite swap_lookup by done.
  unfold transpose. by rewrite decide_True.
Qed.

Lemma drawAt_le rnd i : drawAt rnd i ≤ i.
Proof. unfold drawAt. pose proof (random_index_lt (rnd i) (i + 1)). lia. Qed.

Lemma shuffleFrom_length rnd i arr : length (shuffleFrom rnd i arr) = length arr.
Proof. apply Permutation_length, shuffleFrom_Permutation. Qed.

Lemma shuffleFrom_step rnd i arr :
  shuffleFrom rnd (S i) arr = shuffleFrom rnd i (JS.swap (S i) (drawAt rnd (S i)) arr).
Proof. done. Qed.

(** The loop at [i] leaves the positions above [i] alone. *)
Lemma shuffleFrom_above rnd i arr k :
  i < k → shuffleFrom rnd i arr !! k = arr !! k.
Proof.
  revert arr. induction i as [|i IH]; intros arr Hk; [done|].
  rewrite shuffleFrom_step, IH by lia.
  pose proof (drawAt_le rnd (S i)).
  apply swap_lookup_other; lia.
Qed.

(** After the loop, position [i] holds the element drawn for it. *)
Lemma shuffleFrom_top rnd i arr :
  0 < i → i < length arr →
  shuffleFrom rnd i arr !! i = arr !! drawAt rnd i.
Proof.
  intros Hi Hlen. destruct i as [|i]; [lia|].
  rewrite shuffleFrom_step, shuffleFrom_above by lia.
  pose proof (drawAt_le rnd (S i)).
  apply swap_lookup_top; lia.
Qed.

Lemma shuffleFrom_ext rnd rnd' i arr :
  (∀ k, 0 < k ≤ i → rnd k = rnd' k) →
  shuffleFrom rnd i arr = shuffleFrom rnd' i arr.
Proof.
  revert arr. induction i as [|i IH]; intros arr Hext; [done|].
  rewrite !shuffleFrom_step. unfold drawAt. rewrite (Hext (S i)) by lia.
  apply IH. intros k Hk. apply Hext. lia.
Qed.

(** On an array without repetitions, different draws give different
    orders. *)
Lemma shuffleFrom_draws_inj rnd1 rnd2 i arr :
  NoDup arr → i < length arr →
  shuffleFrom rnd1 i arr = shuffleFrom rnd2 i arr →
  ∀ k, 0 < k ≤ i → drawAt rnd1 k = drawAt rnd2 k.
Proof.
  revert arr. induction i as [|i IH]; intros arr Hnd Hlen Heq k Hk; [lia|].
  assert (Htop : drawAt rnd1 (S i) = drawAt rnd2 (S i)).
  { pose proof (shuffleFrom_top rnd1 (S i) arr ltac:(lia) Hlen) as H1.
    pose proof (shuffleFrom_top rnd2 (S i) arr ltac:(lia) Hlen) as H2.
    rewrite Heq, H2 in H1.
    pose proof (drawAt_le rnd1 (S i)). pose proof (drawAt_le rnd2 (S i)).
    destruct (lookup_lt_is_Some_2 arr (drawAt rnd1 (S i)) ltac:(lia)) as [x Hx].
    rewrite Hx in H1. symmetry. eapply NoDup_lookup; eauto. }
  destruct (decide (k = S i)) as [->|Hne]; [done|].
  rewrite !shuffleFrom_step, Htop in Heq.
  eapply (IH _ _ _ Heq). lia.
  Unshelve.
  - by rewrite swap_Permutation.
  - rewrite swap_length. lia.
Qed.

Lemma Permutation_agree_tail arr arr' :
  arr' ≡ₚ arr → (∀ k, 0 < k → arr' !! k = arr !! k) → arr' = arr.
Proof.
  intros Hperm Hagree.
  destruct arr as [|x t], arr' as [|y t'].
  - done.
  - symmetry in Hperm. by apply Permutation_nil_cons in Hperm.
  - by apply Permutation_nil_cons in Hperm.
  - assert (t' = t) as ->.
    { apply list_eq. intros k. apply (Hagree (S k)). lia. }
    f_equal.
    apply (Permutation_app_inv_r t [y] [x]) in Hperm.
    by apply Permutation_singleton_inj in Hperm.
Qed.

(** Every order of the array is the outcome of some draws. *)
Lemma shuffleFrom_surj i arr arr' :
  arr' ≡ₚ arr → i < length arr →
  (∀ k, i < k → arr' !! k = arr !! k) →
  ∃ rnd, shuffleFrom rnd i arr = arr'.
Proof.
  revert arr. induction i as [|i IH]; intros arr Hperm Hlen Hagree.
  { exists (λ _, mkRand 0). simpl. symmetry. by apply Permutation_agree_tail. }
  assert (Hlen' : length arr' = length arr) by by apply Permutation_length.
  destruct (lookup_lt_is_Some_2 arr' (S i) ltac:(lia)) as [y Hy].
  assert (Hdrop : drop (S (S i)) arr' = drop (S (S i)) arr).
  { apply list_eq. intros k. rewrite !lookup_drop. apply Hagree. lia. }
  assert (Htake : take (S (S i)) arr' ≡ₚ take (S (S i)) arr).
  { apply (Permutation_app_inv_r (drop (S (S i)) arr)).
    rewrite <- Hdrop at 1. by rewrite !take_drop. }
  assert (Hin : y ∈ take (S (S i)) arr).
  { rewrite <- Htake. apply list_elem_of_lookup. exists (S i).
    rewrite lookup_take_lt by lia. done. }
  apply list_elem_of_lookup in Hin as [j Hj].
  assert (Hjlt : j < S (S i)).
  { apply lookup_lt_Some in Hj. rewrite length_take in Hj. lia. }
  rewrite lookup_take_lt in Hj by done.
  destruct (IH (JS.swap (S i) j arr)) as [rnd' Hrnd'].
  - by rewrite swap_Permutation.
  - rewrite swap_length. lia.
  - intros k Hk. destruct (decide (k = S i)) as [->|Hne].
    + rewrite swap_lookup_top by lia. congruence.
    + rewrite swap_lookup_other by lia. apply Hagree. lia.
  - exists (λ k, if decide (k = S i) then drawOf j (S i + 1) else rnd' k).
    rewrite shuffleFrom_step. unfold drawAt. rewrite decide_True by done.
    rewrite random_index_drawOf by lia.
    rewrite <- Hrnd'. apply shuffleFrom_ext.
    intros k Hk. rewrite decide_False by lia. done.
Qed.

Lemma shuffle_surjective arr arr' :
  arr' ≡ₚ arr → ∃ rnd, shuffle rnd arr = arr'.
Proof.
  intros Hperm. unfold shuffle.
  destruct arr as [|x t].
  { exists (λ _, mkRand 0). apply Permutation_nil_r in Hperm. by subst. }
  apply shuffleFrom_surj; [done | simpl; lia |].
  intros k Hk. simpl in Hk.
  rewrite !lookup_ge_None_2; [done | simpl; lia |].
  apply Permutation_length in Hperm. simpl in *. lia.
Qed.

Lemma shuffle_draws_injective rnd1 rnd2 arr :
  NoDup arr → shuffle rnd1 arr = shuffle rnd2 arr →
  ∀ k, 0 < k < length arr → drawAt rnd1 k = drawAt rnd2 k.
Proof.
  intros Hnd Heq k Hk. unfold shuffle in Heq.
  eapply (shuffleFrom_draws_inj rnd1 rnd2 (length arr - 1) arr); [done| |done|]; lia.
Qed.

End Shuffle.

(** Team ids are handed out in order: the teams of a reachable store are
    numbered 1, 2, 3, ... *)
Section TeamIds.
Import DataModel HoleProps.
Implicit Types (s : Store).

Lemma numberedFrom_snoc n ts team :
  numberedFrom n ts → id team = (Z.of_nat (n + length ts) + 1)%Z →
  numberedFrom n (ts ++ [team]).
Proof.
  unfold numberedFrom. intros Hts Hid.
  rewrite fmap_app, length_app, seq_app, fmap_app, Hts. simpl.
  do 3 f_equal. rewrite Hid. lia.
Qed.

Lemma numberedFrom_app n ts ts' :
  numberedFrom n ts → numberedFrom (n + length ts) ts' → numberedFrom n (ts ++ ts').
Proof.
  unfold numberedFrom. intros Hts Hts'.
  rewrite fmap_app, length_app, seq_app, fmap_app, Hts, Hts'.
  do 3 f_equal. lia.
Qed.

Lemma finalizeOne_numbered n dts ft gs :
  numberedFrom n ft →
  numberedFrom n (foldl (finalizeOne n) (ft, gs) dts).1.
Proof.
  revert ft gs. induction dts as [|d dts IH]; intros ft gs Hft; simpl; [done|].
  case_match; [|by apply IH].
  apply IH. by apply numberedFrom_snoc.
Qed.

Lemma step_teams s s' :
  Reach.step s s' →
  numberedFrom 0 (teams s) → numberedFrom 0 (teams s').
Proof.
  intros Hstep Hs. destruct Hstep.
  - done.
  - unfold addPlayer. by repeat case_match.
  - unfold removePlayer. by case_match.
  - unfold AppController.processCSVHandler. simpl.
    by repeat (case_match || case_bool_decide).
  - unfold groupPlayers. by case_bool_decide.
  - unfold selectTeam. case_match; [done|]. simpl.
    apply numberedFrom_snoc; [done|]. simpl. lia.
  - unfold initializeInteractiveDraft. by case_bool_decide.
  - unfold makeInteractiveDraftPick.
    by repeat (case_match || case_bool_decide).
  - unfold finalizeDraftedTeams.
    destruct (interactiveDraftState s) as [state|]; [|done].
    case_bool_decide; [done|].
    pose proof (finalizeOne_numbered (length (teams s)) (draftedTeamsData state)
                  [] (groups s) eq_refl) as Hn.
    destruct (foldl _ _ _) as [finalTeams gs]. simpl in *.
    by apply numberedFrom_app.
  - by destruct (assign_onlyHoles teamId hole s) as [ha ->].
  - by destruct (remove_onlyHoles teamId hole s) as [ha ->].
  - by destruct (autoAssign_onlyHoles s) as [ha ->].
  - by destruct (randomize_onlyHoles rnd s) as [ha ->].
  - done.
  - done.
  - done.
  - done.
Qed.

Lemma reachable_teams_numbered s :
  Reach.reachable s → numberedFrom 0 (teams s).
Proof. induction 1; [done | by eapply step_teams]. Qed.

Lemma numbered_NoDup ts : numberedFrom 0 ts → NoDup (id <$> ts).
Proof. intros ->. apply (NoDup_fmap_2 _), NoDup_seq. Qed.

Lemma numbered_nonzero ts : numberedFrom 0 ts → 0%Z ∉ id <$> ts.
Proof.
  intros -> (i & Hi & [? ?]%elem_of_seq)%list_elem_of_fmap. lia.
Qed.

End TeamIds.

Section Scheduler.
Import DataModel HoleProps.
Implicit Types (s : Store).

Lemma getAssigned_cleared s : getAssignedTeamIds (set_holeAssignments ∅ s) = ∅.
Proof. done. Qed.

Lemma unassigned_after_clear s :
  getUnassignedTeamsInternal (set_holeAssignments ∅ s) = teams s.
Proof.
  unfold getUnassignedTeamsInternal. rewrite getAssigned_cleared. simpl.
  induction (teams s) as [|team ts IH]; [done|].
  rewrite filter_cons, decide_True by set_solver. by rewrite IH.
Qed.

Lemma autoAssign_spec s :
  NoDup (id <$> teams s) → 0%Z ∉ id <$> teams s →
  autoAssignTeams s = (Success (), set_holeAssignments (twoPassSpec (id <$> teams s)) s).
Proof.
  intros Hnd Hnz. unfold autoAssignTeams.
  rewrite unassigned_after_clear. by rewrite twoPasses_spec.
Qed.

Lemma randomize_spec rnd s :
  NoDup (id <$> teams s) → 0%Z ∉ id <$> teams s →
  randomizeTeamAssignments rnd s
  = (Success (),
     set_holeAssignments (twoPassSpec (id <$> shuffle rnd (teams s))) s).
Proof.
  intros Hnd Hnz. unfold randomizeTeamAssignments.
  rewrite unassigned_after_clear. rewrite twoPasses_spec; [done | |].
  - by rewrite shuffle_Permutation.
  - by rewrite shuffle_Permutation.
Qed.

Lemma twoPassSpec_count ids :
  NoDup ids → size (assignedIn (twoPassSpec ids)) = length ids `min` 28.
Proof.
  intros Hnd. rewrite assignedIn_twoPassSpec, size_list_to_set.
  - rewrite length_take. lia.
  - eapply sublist_NoDup; [|apply sublist_take]. done.
Qed.

End Scheduler.

(** ** The claims on the hole assignments *)

Section SchedulerClaims.
Import DataModel HoleProps.

(** C1. In every state the application reaches, a team id is on at most
    one hole (and at most once there), a double-stacked hole (3, 4, 6, 7, 8,
    10, 12, 13, 16, 18) lists at most 2 ids and any other hole at most 1;
    and from any store with that property each of [assignTeamToHole],
    [removeTeamFromHole], [autoAssignTeams] and [randomizeTeamAssignments]
    leads to a store that has it again. *)
Theorem C1_hole_invariant :
  (∀ s, Reach.reachable s → holesInv (holeAssignments s)) ∧
  (∀ s, holesInv (holeAssignments s) →
     (∀ teamId hole, holesInv (holeAssignments (assignTeamToHole teamId hole s).2)) ∧
     (∀ teamId hole, holesInv (holeAssignments (removeTeamFromHole teamId hole s).2)) ∧
     holesInv (holeAssignments (autoAssignTeams s).2) ∧
     (∀ rnd, holesInv (holeAssignments (randomizeTeamAssignments rnd s).2))).
Proof.
  split; [apply reachable_holesInv|].
  intros s Hinv. split_and!.
  - intros. by apply holesInv_assign.
  - intros. by apply holesInv_remove.
  - apply holesInv_autoAssign.
  - intros rnd. apply holesInv_randomize.
Qed.

Lemma C1_hole_invariant_witness :
  let s := (assignTeamToHole 2 3 (assignTeamToHole 1 3 initialStore).2).2 in
  holesInv (holeAssignments s) ∧
  holesInv (holeAssignments (removeTeamFromHole 1 3 s).2).
Proof.
  intros s.
  assert (Hreach : Reach.reachable s).
  { eapply Reach.reach_step; [|apply Reach.step_assign].
    eapply Reach.reach_step; [apply Reach.reach_init | apply Reach.step_assign]. }
  pose proof (proj1 C1_hole_invariant s Hreach) as Hinv.
  split; [exact Hinv|].
  apply (proj2 C1_hole_invariant s Hinv).
Defined.

Lemma reachable_fourPlayers : Reach.reachable Samples.fourPlayers.
Proof.
  unfold Samples.fourPlayers, Samples.add.
  do 4 (eapply Reach.reach_step; [|apply Reach.step_addPlayer]).
  apply Reach.reach_init.
Qed.

Lemma reachable_eightPlayers : Reach.reachable Samples.eightPlayers.
Proof.
  unfold Samples.eightPlayers, Samples.add.
  do 4 (eapply Reach.reach_step; [|apply Reach.step_addPlayer]).
  apply reachable_fourPlayers.
Qed.

Lemma reachable_fourGrouped : Reach.reachable Samples.fourGrouped.
Proof.
  eapply Reach.reach_step; [apply reachable_fourPlayers | apply Reach.step_groupPlayers].
Qed.

Lemma reachable_eightGrouped : Reach.reachable Samples.eightGrouped.
Proof.
  eapply Reach.reach_step; [apply reachable_eightPlayers | apply Reach.step_groupPlayers].
Qed.

Lemma reachable_oneTeam : Reach.reachable Samples.oneTeam.
Proof.
  eapply Reach.reach_step; [apply reachable_fourGrouped | apply Reach.step_selectTeam].
Qed.

Lemma reachable_twoTeams : Reach.reachable Samples.twoTeams.
Proof.
  eapply Reach.reach_step; [|apply Reach.step_selectTeam].
  eapply Reach.reach_step; [apply reachable_eightGrouped | apply Reach.step_selectTeam].
Qed.

(** C5. [autoAssignTeams] and [randomizeTeamAssignments] discard the
    assignments they find and then run the two passes: the first teams go
    to the holes 1 to 18, one each in order, the teams after them to the
    double-stacked holes in order.  [autoAssignTeams] takes the teams in the
    order of the team list, [randomizeTeamAssignments] in the order the
    Fisher-Yates loop leaves them in.  Whatever the order, exactly
    min(teamCount, 28) teams end up on a hole, the first ones of that order,
    none twice.  The loop yields a rearrangement of the team list, every
    rearrangement comes from some draws, different draws give different
    rearrangements, and a draw hits every index with the same share of
    [0,1). *)
Theorem C5_automatic_assignment s :
  Reach.reachable s →
  (∀ ha, autoAssignTeams (set_holeAssignments ha s)
         = (Success (), set_holeAssignments (twoPassSpec (id <$> teams s)) s)) ∧
  (∀ ha rnd, randomizeTeamAssignments rnd (set_holeAssignments ha s)
         = (Success (),
            set_holeAssignments (twoPassSpec (id <$> shuffle rnd (teams s))) s)) ∧
  (∀ ts, ts ≡ₚ teams s →
     size (assignedIn (twoPassSpec (id <$> ts))) = length (teams s) `min` 28 ∧
     assignedIn (twoPassSpec (id <$> ts)) = list_to_set (take 28 (id <$> ts)) ∧
     holesInv (twoPassSpec (id <$> ts))) ∧
  (∀ rnd, shuffle rnd (teams s) ≡ₚ teams s) ∧
  (∀ ts, ts ≡ₚ teams s → ∃ rnd, shuffle rnd (teams s) = ts) ∧
  (∀ rnd1 rnd2, shuffle rnd1 (teams s) = shuffle rnd2 (teams s) →
     ∀ k, 0 < k < length (teams s) → drawAt rnd1 k = drawAt rnd2 k) ∧
  (∀ rnd k j, drawAt rnd k = j ↔
     (inject_Z (Z.of_nat j) / inject_Z (Z.of_nat (k + 1)) <= JS.rv (rnd k))%Q ∧
     (JS.rv (rnd k) < inject_Z (Z.of_nat j + 1) / inject_Z (Z.of_nat (k + 1)))%Q).
Proof.
  intros Hreach.
  pose proof (reachable_teams_numbered s Hreach) as Hnum.
  pose proof (numbered_NoDup _ Hnum) as Hnd.
  pose proof (numbered_nonzero _ Hnum) as Hnz.
  split_and!.
  - intros ha. by rewrite (autoAssign_spec (set_holeAssignments ha s)).
  - intros ha rnd. by rewrite (randomize_spec rnd (set_holeAssignments ha s)).
  - intros ts Hperm.
    assert (Hnd' : NoDup (id <$> ts)) by by rewrite Hperm.
    assert (Hnz' : 0%Z ∉ id <$> ts) by by rewrite Hperm.
    split_and!.
    + rewrite twoPassSpec_count by done.
      by rewrite length_fmap, (Permutation_length Hperm).
    + apply assignedIn_twoPassSpec.
    + pose proof (holesInv_autoAssign (set_teams ts s)) as Hinv.
      by rewrite (autoAssign_spec (set_teams ts s)) in Hinv.
  - intros rnd. apply shuffle_Permutation.
  - intros ts Hperm. by apply shuffle_surjective.
  - intros rnd1 rnd2 Heq. apply shuffle_draws_injective; [|done].
    by eapply NoDup_fmap_1.
  - intros rnd k j. apply random_index_share. lia.
Qed.

Lemma C5_automatic_assignment_witness :
  (autoAssignTeams Samples.twoTeams).1 = Success () ∧
  size (getAssignedTeamIds (autoAssignTeams Samples.twoTeams).2) = 2.
Proof.
  destruct (C5_automatic_assignment Samples.twoTeams reachable_twoTeams)
    as (Hauto & _ & Hcount & _).
  specialize (Hauto (holeAssignments Samples.twoTeams)).
  rewrite set_holeAssignments_id in Hauto. rewrite Hauto.
  split; [done|].
  destruct (Hcount (teams Samples.twoTeams) ltac:(done)) as (Hsize & _).
  exact Hsize.
Defined.

End SchedulerClaims.

(** ** [Array.prototype.sort] with a consistent comparator *)

Section Sort.
Context {T : Type}.
Variable cmp : T → T → Q.
Implicit Types (x y : T) (l : list T).

Lemma sort_insert_Permutation x l : JS.sort_insert cmp x l ≡ₚ x :: l.
Proof.
  induction l as [|y l IH]; simpl; [done|].
  destruct (Qle_bool (cmp x y) 0); [done|].
  by rewrite IH, Permutation_swap.
Qed.

Lemma sort_Permutation l : JS.sort cmp l ≡ₚ l.
Proof.
  induction l as [|x l IH]; simpl; [done|].
  by rewrite sort_insert_Permutation, IH.
Qed.

Lemma sort_length l : length (JS.sort cmp l) = length l.
Proof. apply Permutation_length, sort_Permutation. Qed.

Local Notation "'notAfter'" := (SortProps.notAfter cmp).

Lemma StronglySorted_weaken (R R' : T → T → Prop) l :
  (∀ x y, R x y → R' x y) → StronglySorted R l → StronglySorted R' l.
Proof.
  intros HR. induction 1 as [|x l Hs IH Hall]; constructor; [done|].
  eapply Forall_impl; [exact Hall|]. intros y. apply HR.
Qed.

Hypothesis cmp_total : ∀ x y, notAfter x y ∨ notAfter y x.
Hypothesis cmp_trans : ∀ x y z, notAfter x y → notAfter y z → notAfter x z.

Lemma sort_insert_sorted x l :
  StronglySorted notAfter l → StronglySorted notAfter (JS.sort_insert cmp x l).
Proof.
  induction 1 as [|y l Hsorted IH Hall]; simpl.
  { repeat constructor. }
  destruct (Qle_bool (cmp x y) 0) eqn:E.
  - apply Qle_bool_iff in E. constructor; [by constructor|].
    constructor; [done|].
    eapply Forall_impl; [exact Hall|]. intros z Hz. by eapply cmp_trans.
  - assert (Hyx : notAfter y x).
    { destruct (cmp_total x y) as [Hxy|]; [|done].
      apply Qle_bool_iff in Hxy. congruence. }
    constructor; [done|].
    rewrite sort_insert_Permutation. by constructor.
Qed.

Lemma sort_sorted l : StronglySorted notAfter (JS.sort cmp l).
Proof.
  induction l as [|x l IH]; simpl; [constructor|].
  by apply sort_insert_sorted.
Qed.

(** An array already in order is left as it is. *)
Lemma sort_of_sorted l : Sorted notAfter l → JS.sort cmp l = l.
Proof.
  induction 1 as [|x l Hsorted IH Hhd]; simpl; [done|].
  rewrite IH. destruct Hhd as [|y l Hxy]; simpl; [done|].
  apply Qle_bool_iff in Hxy. by rewrite Hxy.
Qed.

End Sort.

(** A comparator that subtracts keys sorts by key and keeps the elements
    with equal keys in their order. *)
Section SortByKey.
Context {T : Type}.
Variable key : T → Q.
Implicit Types (x y : T) (l : list T).
Local Notation "'cmp'" := (SortProps.byKey key).

Lemma byKey_notAfter x y : SortProps.notAfter cmp x y ↔ (key x <= key y)%Q.
Proof. unfold SortProps.notAfter, SortProps.byKey. split; intros; lra. Qed.

Lemma sortByKey_sorted l :
  StronglySorted (λ x y, key x <= key y)%Q (JS.sort cmp l).
Proof.
  eapply StronglySorted_weaken; [|apply (sort_sorted cmp)].
  - intros x y. apply byKey_notAfter.
  - intros x y. rewrite !byKey_notAfter. lra.
  - intros x y z. rewrite !byKey_notAfter. lra.
Qed.

Lemma sort_insert_withKey q x l :
  SortProps.withKey key q (JS.sort_insert cmp x l)
  = SortProps.withKey key q (x :: l).
Proof.
  unfold SortProps.withKey.
  induction l as [|y l IH]; simpl; [done|].
  unfold SortProps.byKey at 1.
  destruct (Qle_bool (key x - key y) 0) eqn:E; [done|].
  rewrite (filter_cons _ y), IH, !(filter_cons _ x), (filter_cons _ y).
  destruct (decide (Qeq_bool (key x) q = true)) as [Hx|Hx]; [|done].
  destruct (decide (Qeq_bool (key y) q = true)) as [Hy|Hy]; [|done].
  apply Qeq_bool_iff in Hx, Hy.
  assert (Hle : (key x - key y <= 0)%Q) by lra.
  apply Qle_bool_iff in Hle. congruence.
Qed.

Lemma sortByKey_stable q l :
  SortProps.withKey key q (JS.sort cmp l) = SortProps.withKey key q l.
Proof.
  induction l as [|x l IH]; simpl; [done|].
  rewrite sort_insert_withKey. unfold SortProps.withKey in *.
  by rewrite !(filter_cons _ x), IH.
Qed.

End SortByKey.

(** ** Grouping *)

Section Grouping.
Import DataModel.
Implicit Types (s : Store).

Lemma Qceiling_bounds (x : Q) :
  (inject_Z (Qceiling x) - 1 < x)%Q ∧ (x <= inject_Z (Qceiling x))%Q.
Proof.
  split; [|apply Qle_ceiling].
  pose proof (Qceiling_lt x) as H.
  assert (E : (inject_Z (Qceiling x - 1) == inject_Z (Qceiling x) - 1)%Q).
  { unfold Z.sub. rewrite inject_Z_plus. reflexivity. }
  lra.
Qed.

(** [Math.ceil(n / d)] is the least [c] with [n <= c * d]. *)
Lemma ceil_div_spec (n d : nat) :
  0 < d → n ≤ JS.ceil_div n d * d ∧ JS.ceil_div n d * d < n + d.
Proof.
  intros Hd. unfold JS.ceil_div.
  pose proof (inject_Z_pos d Hd) as HdQ.
  set (N := inject_Z (Z.of_nat n)). set (D := inject_Z (Z.of_nat d)) in *.
  destruct (Qceiling_bounds (N / D)) as [Hlo Hhi].
  set (c := Qceiling (N / D)) in *.
  assert (HN : (0 <= N)%Q).
  { unfold N. change 0%Q with (inject_Z 0). rewrite <- Zle_Qle. lia. }
  assert (E : (N / D * D == N)%Q) by (field; lra).
  assert (H1 : (N <= inject_Z c * D)%Q) by (rewrite <- E; nra).
  assert (H2 : (inject_Z c * D < N + D)%Q).
  { assert ((inject_Z c - 1) * D < N / D * D)%Q by nra. lra. }
  unfold N, D in H1, H2.
  rewrite <- inject_Z_mult, <- Zle_Qle in H1.
  rewrite <- inject_Z_mult, <- inject_Z_plus, <- Zlt_Qlt in H2.
  assert (0 ≤ c)%Z by nia. nia.
Qed.


Lemma groupPlayers_few s :
  length (players s) < 4 → groupPlayers s = (Fail NotEnoughPlayers, s).
Proof. intros Hn. unfold groupPlayers. by rewrite bool_decide_eq_true_2. Qed.

Lemma groupPlayers_enough s :
  4 ≤ length (players s) →
  let sorted := JS.sort byHandicap (players s) in
  let q := JS.ceil_div (length (players s)) 4 in
  groupPlayers s
  = (Success (),
     set_draft None
       (set_groups (mkGroups (take q sorted) (take q (drop q sorted))
                             (take q (drop (q * 2) sorted)) (drop (q * 3) sorted)) s)).
Proof.
  intros Hn. unfold groupPlayers. rewrite bool_decide_eq_false_2 by lia.
  unfold JS.slice, JS.slice_from. rewrite sort_length.
  set (q := JS.ceil_div (length (players s)) 4).
  rewrite drop_0. repeat f_equal; lia.
Qed.

Lemma slices_concat {X} (l : list X) q :
  take q l ++ take q (drop q l) ++ take q (drop (q * 2) l) ++ drop (q * 3) l = l.
Proof.
  rewrite (app_assoc (take q l)), take_take_drop.
  replace (q * 2) with (q + q) by lia.
  rewrite app_assoc, take_take_drop.
  replace (q * 3) with (q + q + q) by lia. apply take_drop.
Qed.


(** C4. With fewer than 4 players [groupPlayers] fails and leaves the
    store, so the groups, as it was.  With N >= 4 players it succeeds: the
    players are sorted by effective handicap ascending, players of equal
    handicap kept in registry order, and cut into the contiguous slices A,
    B, C of ceil(N/4) players each (fewer once the players run out) and D
    with the rest.  The four sizes add up to N, and nobody in A has a
    higher effective handicap than anybody in D. *)
Theorem C4_groupPlayers s :
  (length (players s) < 4 → groupPlayers s = (Fail NotEnoughPlayers, s)) ∧
  (4 ≤ length (players s) →
   ∃ sorted q,
     let n := length (players s) in
     let gs := groups (groupPlayers s).2 in
     (groupPlayers s).1 = Success () ∧
     sorted ≡ₚ players s ∧
     StronglySorted (λ a b, getNumericHandicap a <= getNumericHandicap b)%Q sorted ∧
     (∀ h, SortProps.withKey getNumericHandicap h sorted
           = SortProps.withKey getNumericHandicap h (players s)) ∧
     (n ≤ q * 4 ∧ q * 4 < n + 4) ∧
     (A gs = take q sorted ∧ B gs = take q (drop q sorted) ∧
      C gs = take q (drop (q * 2) sorted) ∧ D gs = drop (q * 3) sorted) ∧
     A gs ++ B gs ++ C gs ++ D gs = sorted ∧
     (length (A gs) = q ∧ length (B gs) = q `min` (n - q) ∧
      length (C gs) = q `min` (n - q * 2) ∧ length (D gs) = n - q * 3) ∧
     length (A gs) + length (B gs) + length (C gs) + length (D gs) = n ∧
     (∀ a d, a ∈ A gs → d ∈ D gs → (getNumericHandicap a <= getNumericHandicap d)%Q)).
Proof.
  split; [apply groupPlayers_few|].
  intros Hn.
  exists (JS.sort byHandicap (players s)), (JS.ceil_div (length (players s)) 4).
  rewrite (groupPlayers_enough s Hn). cbn [fst snd groups set_draft set_groups A B C D].
  set (sorted := JS.sort byHandicap (players s)).
  set (q := JS.ceil_div (length (players s)) 4).
  destruct (ceil_div_spec (length (players s)) 4 ltac:(lia)) as [Hq1 Hq2].
  fold q in Hq1, Hq2.
  assert (Hlen : length sorted = length (players s)) by apply sort_length.
  assert (Hsorted : StronglySorted (λ a b, getNumericHandicap a <= getNumericHandicap b)%Q
                      sorted) by apply (sortByKey_sorted getNumericHandicap).
  split_and!; try done.
  - apply sort_Permutation.
  - intros h. apply (sortByKey_stable getNumericHandicap).
  - apply slices_concat.
  - rewrite length_take. lia.
  - rewrite length_take, length_drop. lia.
  - rewrite length_take, length_drop. lia.
  - rewrite length_drop. lia.
  - rewrite !length_take, !length_drop. lia.
  - intros a d Ha Hd.
    rewrite <- (take_drop (q * 3) sorted) in Hsorted.
    eapply (StronglySorted_app_1_elem_of _ _ _ _ _ Hsorted); [|done].
    apply elem_of_take in Ha as (i & Hi & Hiq).
    apply elem_of_take. exists i. split; [done | lia].
Qed.

Lemma C4_groupPlayers_witness :
  let gs := groups (groupPlayers Samples.fourPlayers).2 in
  length (A gs) + length (B gs) + length (C gs) + length (D gs) = 4.
Proof.
  assert (Hn : 4 ≤ length (players Samples.fourPlayers)) by (vm_compute; lia).
  destruct (proj2 (C4_groupPlayers Samples.fourPlayers) Hn)
    as (sorted & q & _ & _ & _ & _ & _ & _ & _ & _ & Hsum & _).
  exact Hsum.
Defined.



(** C9, as the specification has it, fails: a team formed before a
    regrouping is still in the team list after it, whether [groupPlayers]
    is called directly or through its handler. *)
Lemma C9_counterexample :
  ¬ (∀ s, (groupPlayers s).1 = Success () →
          interactiveDraftState (groupPlayers s).2 = None ∧
          teams (groupPlayers s).2 = []).
Proof.
  intros H. destruct (H Samples.oneTeam) as [_ Hteams]; [by vm_compute|].
  by vm_compute in Hteams.
Qed.

(** C9, amended. Every successful call of [groupPlayers], direct or
    through [groupPlayersHandler], discards an interactive draft in
    progress and replaces the groups; the teams formed before, like the
    players, the hole assignments and the settings, stay as they were. *)
Theorem C9_regrouping_discards_draft_only s :
  (groupPlayers s).1 = Success () →
  let s' := (groupPlayers s).2 in
  interactiveDraftState s' = None ∧
  teams s' = teams s ∧ players s' = players s ∧
  holeAssignments s' = holeAssignments s ∧ settings s' = settings s ∧
  (∀ grouped,
     AppController.groupPlayersHandler (AppController.mkApp s grouped)
     = AppController.mkApp s' true).
Proof.
  unfold groupPlayers, AppController.groupPlayersHandler, groupPlayers.
  simpl. case_bool_decide; [done|]. simpl. done.
Qed.

Lemma C9_regrouping_discards_draft_only_witness :
  interactiveDraftState (groupPlayers Samples.oneTeam).2 = None ∧
  teams (groupPlayers Samples.oneTeam).2 = teams Samples.oneTeam.
Proof.
  destruct (C9_regrouping_discards_draft_only Samples.oneTeam) as (H1 & H2 & _).
  - by vm_compute.
  - by split.
Defined.

End Grouping.

(** ** The player registry *)

Section Registry.
Import DataModel.
Implicit Types (s : Store).
Variable number_toString : Q → string.


Lemma addPlayer_added nameInput handicapInput s p s' :
  addPlayer number_toString nameInput handicapInput s = (Added p, s') ↔
  validatePlayerName nameInput = None ∧
  validateHandicap handicapInput = inr (handicap p, isPlus p) ∧
  p = makePlayer number_toString (nextRef s) (JS.trim nameInput) (handicap p) (isPlus p) ∧
  s' = set_nextRef (S (nextRef s)) (set_players (players s ++ [p]) s).
Proof.
  unfold addPlayer.
  destruct (validatePlayerName nameInput) as [e|];
    [split; [by destruct (validateHandicap _) as [|[]] | by intros [? _]]|].
  destruct (validateHandicap handicapInput) as [e|[value plus]].
  { split; [done | by intros (_ & ? & _)]. }
  split.
  - intros [= <- <-]. done.
  - intros (_ & [= -> ->] & Hp & ->). by rewrite <- Hp.
Qed.




End Registry.


(** ** CSV import *)

Section Csv.
Import DataModel CsvProps.
Variable number_toString : Q → string.

Lemma processLine_classify i line ps es r :
  processLine number_toString i line (ps, es, r)
  = match classify line with
    | Blank => (ps, es, r)
    | TooShort => (ps, es ++ [NotEnoughData (i + 1)], r)
    | Refused e => (ps, es ++ [InvalidHandicap (i + 1) e], r)
    | Imported nm value plus =>
        (ps ++ [makePlayer number_toString r nm value plus], es, S r)
    end.
Proof.
  unfold processLine, classify.
  destruct (String.eqb_spec (JS.trim line) "") as [Hb|Hb].
  { by rewrite decide_True. }
  rewrite decide_False by done.
  destruct (JS.split "," line) as [|p0 [|p1 [|p2 rest]]]; cbn [length nth];
    case_decide; try done; try lia.
  by destruct (validateHandicap (JS.trim p2)) as [e|[value plus]].
Qed.

Lemma errorsOf_cons first line lines :
  errorsOf first (line :: lines)
  = match lineError first line with
    | Some e => e :: errorsOf (S first) lines
    | None => errorsOf (S first) lines
    end.
Proof.
  unfold errorsOf. cbn [imap omap]. rewrite Nat.add_0_r.
  assert (Himap : imap ((λ k l, lineError (first + k) l) ∘ S) lines
                  = imap (λ k l, lineError (S first + k) l) lines).
  { apply imap_ext. intros k l _. cbn. f_equal. lia. }
  by rewrite Himap.
Qed.

Lemma processLines_spec i lines ps es r :
  ∃ new,
    processLines number_toString i lines (ps, es, r)
    = (ps ++ new, es ++ errorsOf (i + 1) lines, r + length new) ∧
    playerData <$> new = omap linePlayer lines ∧
    ref <$> new = seq r (length new) ∧
    Forall (λ p, p = makePlayer number_toString (ref p) (name p) (handicap p) (isPlus p))
      new.
Proof.
  revert i ps es r. induction lines as [|line lines IH]; intros i ps es r.
  { exists []. unfold errorsOf. cbn. rewrite !app_nil_r.
    replace (r + 0) with r by lia. split_and!; [done..|constructor]. }
  cbn [processLines]. rewrite processLine_classify, errorsOf_cons.
  change (omap linePlayer (line :: lines))
    with (match linePlayer line with
          | Some y => y :: omap linePlayer lines
          | None => omap linePlayer lines
          end).
  replace (S (i + 1)) with (S i + 1) by lia.
  unfold lineError, linePlayer.
  destruct (classify line) as [| |e|nm value plus]; cbv beta iota.
  - destruct (IH (S i) ps es r) as (new & -> & H1 & H2 & H3). by exists new.
  - destruct (IH (S i) ps (es ++ [NotEnoughData (i + 1)]) r) as (new & -> & H1 & H2 & H3).
    exists new. by rewrite <- app_assoc.
  - destruct (IH (S i) ps (es ++ [InvalidHandicap (i + 1) e]) r)
      as (new & -> & H1 & H2 & H3).
    exists new. by rewrite <- app_assoc.
  - destruct (IH (S i) (ps ++ [makePlayer number_toString r nm value plus]) es (S r))
      as (new & -> & H1 & H2 & H3).
    exists (makePlayer number_toString r nm value plus :: new).
    rewrite <- app_assoc. cbn. split_and!.
    + do 2 f_equal. lia.
    + by rewrite H1.
    + by rewrite H2.
    + by constructor.
Qed.

Lemma processCSV_spec r csv :
  let lines := JS.split_lines csv in
  let result := processCSV number_toString r csv in
  playerData <$> result.1 = omap linePlayer lines ∧
  ref <$> result.1 = seq r (length result.1) ∧
  Forall (λ p, p = makePlayer number_toString (ref p) (name p) (handicap p) (isPlus p))
    result.1 ∧
  result.2 = errorsOf 1 lines.
Proof.
  intros lines result. unfold result, processCSV. fold lines.
  destruct (processLines_spec 0 lines [] [] r) as (new & -> & H1 & H2 & H3).
  done.
Qed.

Lemma outcomes_count first lines :
  length (omap linePlayer lines) + length (errorsOf first lines)
  = length (filter (λ line, JS.trim line ≠ ""%string) lines).
Proof.
  revert first. induction lines as [|line lines IH]; intros first; [done|].
  rewrite errorsOf_cons, filter_cons.
  change (omap linePlayer (line :: lines))
    with (match linePlayer line with
          | Some y => y :: omap linePlayer lines
          | None => omap linePlayer lines
          end).
  specialize (IH (S first)).
  unfold lineError at 1, linePlayer at 1, classify.
  destruct (decide (JS.trim line ≠ ""%string)) as [Hnb|Hnb];
    destruct (decide (JS.trim line = ""%string)) as [Hb|Hb]; try done.
  - destruct (decide (length (JS.split "," line) < 3)); [simpl; lia|].
    destruct (validateHandicap _) as [e|[value plus]]; simpl; lia.
Qed.

(** C7, as the specification has it, fails on its own scenario: the
    player read from the line [A,B,10] is named "A, B", last name first as
    in the file, not "B, A"; and the handler, finding an error on line 2,
    adds nothing to the registry. *)
Lemma C7_counterexample :
  ¬ (∃ p, (processCSV Samples.sampleToString 0 scenarioCsv).1 = [p] ∧
          name p = "B, A"%string ∧ (handicap p == 10)%Q) ∧
  players (AppController.store
             (AppController.processCSVHandler Samples.sampleToString scenarioCsv
                (AppController.mkApp initialStore false))) = [].
Proof.
  split; [|reflexivity].
  intros (p & Hp & Hname & _). vm_compute in Hp. injection Hp as <-.
  by vm_compute in Hname.
Qed.

(** C7, amended. For every CSV input [processCSV] skips the blank lines,
    reports every other line that has fewer than 3 comma-separated fields
    or an invalid handicap with one error carrying its line number, and
    returns for every remaining line, in order, one player built like a
    manually entered one, named "Last, First".  [processCSVHandler] adds
    the returned players to the registry only when no error was reported
    and otherwise changes nothing.  For the input of the scenario
    [processCSV] returns one player, "A, B" with handicap 10, and one
    error, for line 2. *)
Theorem C7_csv_import csv a :
  let lines := JS.split_lines csv in
  let result :=
    processCSV number_toString (nextRef (AppController.store a)) csv in
  let a' := AppController.processCSVHandler number_toString csv a in
  (playerData <$> result.1 = omap linePlayer lines ∧
   result.2 = errorsOf 1 lines ∧
   length result.1 + length result.2
   = length (filter (λ line, JS.trim line ≠ ""%string) lines)) ∧
  (ref <$> result.1 = seq (nextRef (AppController.store a)) (length result.1) ∧
   Forall (λ p, p = makePlayer number_toString (ref p) (name p) (handicap p) (isPlus p))
     result.1) ∧
  (result.2 ≠ [] → a' = a) ∧
  (result.2 = [] →
   players (AppController.store a') = players (AppController.store a) ++ result.1) ∧
  (∀ r, playerData <$> (processCSV number_toString r scenarioCsv).1
        = [("A, B"%string, 10%Q, false)] ∧
        (processCSV number_toString r scenarioCsv).2
        = [InvalidHandicap 2 HandicapNotNumber]).
Proof.
  intros lines result a'.
  destruct (processCSV_spec (nextRef (AppController.store a)) csv)
    as (Hdata & Hrefs & Hshape & Herrs).
  fold lines in Hdata, Herrs. fold result in Hdata, Hrefs, Hshape, Herrs.
  split_and!; try done.
  - rewrite <- (outcomes_count 1 lines), <- Hdata, <- Herrs.
    by rewrite length_fmap.
  - intros Hne. unfold a', AppController.processCSVHandler.
    fold result. destruct result as [imported errors]. simpl in *.
    rewrite bool_decide_eq_true_2; [done|]. destruct errors; [done|simpl; lia].
  - intros Hnil. unfold a', AppController.processCSVHandler.
    fold result. destruct result as [imported errors]. simpl in *. subst errors.
    rewrite Hnil, bool_decide_eq_false_2 by (simpl; lia).
    by destruct (AppController.isGrouped a).
Qed.

End Csv.

Lemma C7_csv_import_witness :
  AppController.processCSVHandler Samples.sampleToString CsvProps.scenarioCsv
    (AppController.mkApp Samples.fourPlayers true)
  = AppController.mkApp Samples.fourPlayers true.
Proof.
  destruct (C7_csv_import Samples.sampleToString CsvProps.scenarioCsv
              (AppController.mkApp Samples.fourPlayers true))
    as (_ & _ & Hkeep & _).
  apply Hkeep. by vm_compute.
Defined.

(** ** The tee sheet *)

Section TeeSheet.
Import DataModel UIController TeeProps.
Implicit Types (s : Store) (a b c : Row).

Lemma ltb_lt (x y : string) : String.ltb x y = true ↔ String_as_OT.lt x y.
Proof.
  unfold String.ltb. rewrite <- String_as_OT.cmp_lt. unfold String_as_OT.cmp.
  destruct (String.compare x y); split; congruence.
Qed.


Lemma ltb_irrefl (x : string) : String.ltb x x = false.
Proof.
  apply not_true_is_false. rewrite ltb_lt. intros H.
  by apply String_as_OT.lt_not_eq in H.
Qed.

Lemma ltb_trichotomy (x y : string) :
  String.ltb x y = false → String.ltb y x = false → x = y.
Proof.
  unfold String.ltb. rewrite (String.compare_antisym y x).
  destruct (String.compare x y) eqn:E; simpl; try done.
  intros _ _. by apply String_as_OT.cmp_eq.
Qed.

Lemma byTimeThenHole_notAfter a b :
  SortProps.notAfter byTimeThenHole a b ↔ timeThenHole a b.
Proof.
  unfold SortProps.notAfter, byTimeThenHole, timeThenHole.
  destruct (String.ltb (teeTime a) (teeTime b)) eqn:Hab.
  { split; [by left | done]. }
  destruct (String.ltb (teeTime b) (teeTime a)) eqn:Hba.
  { split; [done|]. intros [? | [Heq _]]; [done|].
    rewrite Heq, ltb_irrefl in Hba. done. }
  pose proof (ltb_trichotomy _ _ Hab Hba) as Heq.
  change 0%Q with (inject_Z 0). rewrite <- Zle_Qle. split.
  - intros Hle. right. split; [done | lia].
  - intros [? | [_ Hle]]; [done | lia].
Qed.




(** The loop over the teams of one hole, then over the holes. *)
Lemma omap_cons {X Y} (f : X → option Y) x l :
  omap f (x :: l) = match f x with Some y => y :: omap f l | None => omap f l end.
Proof. done. Qed.

Lemma teeSheetEntries_sequential s baseTime h count rows ids :
  String.eqb (startFormat (settings s)) "shotgun" = false →
  foldl (teeSheetEntry s baseTime h) (count, rows) ids
  = (count + length (omap (λ teamId, (λ team, (h, team)) <$> findTeamById teamId s) ids),
     rows ++ imap (λ i, sequentialRow s baseTime (count + i))
               (omap (λ teamId, (λ team, (h, team)) <$> findTeamById teamId s) ids)).
Proof.
  intros Hfmt. revert count rows.
  induction ids as [|teamId ids IH]; intros count rows.
  { cbn. by rewrite Nat.add_0_r, app_nil_r. }
  rewrite omap_cons. cbn [foldl].
  replace (teeSheetEntry s baseTime h (count, rows) teamId)
    with (match findTeamById teamId s with
          | Some team => (S count, rows ++ [sequentialRow s baseTime count (h, team)])
          | None => (count, rows)
          end)
    by (unfold teeSheetEntry; rewrite Hfmt; by destruct (findTeamById teamId s)).
  destruct (findTeamById teamId s) as [team|]; cbn [fmap option_fmap option_map].
  - rewrite IH, <- app_assoc. cbn [length imap app]. rewrite Nat.add_0_r.
    f_equal; [lia|]. do 2 f_equal.
    apply imap_ext. intros i slot _. cbn. f_equal. lia.
  - apply IH.
Qed.

Lemma teeSheetEntries_shotgun s baseTime h count rows ids :
  String.eqb (startFormat (settings s)) "shotgun" = true →
  foldl (teeSheetEntry s baseTime h) (count, rows) ids
  = (count,
     rows ++ (rowAt baseTime
                <$> omap (λ teamId, (λ team, (h, team)) <$> findTeamById teamId s) ids)).
Proof.
  intros Hfmt. revert rows.
  induction ids as [|teamId ids IH]; intros rows.
  { cbn. by rewrite app_nil_r. }
  rewrite omap_cons. cbn [foldl].
  replace (teeSheetEntry s baseTime h (count, rows) teamId)
    with (match findTeamById teamId s with
          | Some team => (count, rows ++ [rowAt baseTime (h, team)])
          | None => (count, rows)
          end)
    by (unfold teeSheetEntry; rewrite Hfmt; by destruct (findTeamById teamId s)).
  destruct (findTeamById teamId s) as [team|]; cbn [fmap option_fmap option_map].
  - rewrite IH, <- app_assoc. done.
  - apply IH.
Qed.

Lemma teeSheetHoles_sequential s baseTime holes count rows :
  String.eqb (startFormat (settings s)) "shotgun" = false →
  foldl (teeSheetHole s baseTime) (count, rows) holes
  = (count + length (holes ≫= slotsOn s),
     rows ++ imap (λ i, sequentialRow s baseTime (count + i)) (holes ≫= slotsOn s)).
Proof.
  intros Hfmt. revert count rows.
  induction holes as [|h holes IH]; intros count rows.
  { cbn. by rewrite Nat.add_0_r, app_nil_r. }
  cbn [foldl]. rewrite bind_cons.
  replace (teeSheetHole s baseTime (count, rows) h)
    with (count + length (slotsOn s h),
          rows ++ imap (λ i, sequentialRow s baseTime (count + i)) (slotsOn s h))
    by (unfold teeSheetHole; by rewrite teeSheetEntries_sequential).
  rewrite IH, length_app, imap_app, <- app_assoc.
  f_equal; [lia|]. do 2 f_equal.
  apply imap_ext. intros i slot _. cbn. f_equal. lia.
Qed.

Lemma teeSheetHoles_shotgun s baseTime holes count rows :
  String.eqb (startFormat (settings s)) "shotgun" = true →
  foldl (teeSheetHole s baseTime) (count, rows) holes
  = (count, rows ++ (rowAt baseTime <$> (holes ≫= slotsOn s))).
Proof.
  intros Hfmt. revert rows.
  induction holes as [|h holes IH]; intros rows.
  { cbn. by rewrite app_nil_r. }
  cbn [foldl]. rewrite bind_cons.
  replace (teeSheetHole s baseTime (count, rows) h)
    with (count, rows ++ (rowAt baseTime <$> slotsOn s h))
    by (unfold teeSheetHole; by rewrite teeSheetEntries_shotgun).
  by rewrite IH, fmap_app, <- app_assoc.
Qed.

Lemma slotsOn_hole s h slot : slot ∈ slotsOn s h → slot.1 = h.
Proof.
  unfold slotsOn. intros (teamId & _ & Hslot)%list_elem_of_omap.
  destruct (findTeamById teamId s); simplify_eq/=. done.
Qed.

Lemma sameHole_sorted baseTime h (slots : list (Z * Team)) :
  (∀ slot, slot ∈ slots → slot.1 = h) →
  StronglySorted holeOrder (rowAt baseTime <$> slots).
Proof.
  induction slots as [|slot slots IH]; intros Hsame; csimpl.
  { apply SSorted_nil. }
  apply SSorted_cons.
  - apply IH. intros slot' Hin. apply Hsame. by right.
  - rewrite Forall_fmap, Forall_forall. intros slot' Hin.
    unfold holeOrder. cbn. rewrite (Hsame slot) by left.
    rewrite (Hsame slot') by (by right). done.
Qed.

Lemma shotgunRows_in_hole_order s baseTime holes :
  StronglySorted Z.le holes →
  StronglySorted holeOrder (rowAt baseTime <$> (holes ≫= slotsOn s)).
Proof.
  induction 1 as [|h holes Hsorted IH Hall]; csimpl; [apply SSorted_nil|].
  rewrite fmap_app. apply StronglySorted_app_2.
  - intros a b (sa & -> & Ha)%list_elem_of_fmap (sb & -> & Hb)%list_elem_of_fmap.
    unfold holeOrder. cbn. rewrite (slotsOn_hole _ _ _ Ha).
    apply list_elem_of_bind in Hb as (h' & Hb & Hh').
    rewrite (slotsOn_hole _ _ _ Hb).
    by eapply (proj1 (Forall_forall _ _) Hall).
  - apply (sameHole_sorted baseTime h). apply slotsOn_hole.
  - done.
Qed.

Lemma holes1to18_sorted : StronglySorted Z.le holes1to18.
Proof. by apply (bool_decide_unpack _). Qed.

Lemma digit_of_Some (c : ascii) (d : Z) :
  JS.digit_of c = Some d →
  (0 ≤ d ≤ 9)%Z ∧ c = ascii_of_nat (Z.to_nat d + 48).
Proof.
  unfold JS.digit_of.
  destruct (48 <=? nat_of_ascii c) eqn:Hlo; [|done].
  destruct (nat_of_ascii c <=? 57) eqn:Hhi; [|done].
  apply Nat.leb_le in Hlo, Hhi. intros [= <-]. split; [lia|].
  replace (Z.to_nat (Z.of_nat (nat_of_ascii c) - 48) + 48) with (nat_of_ascii c) by lia.
  by rewrite ascii_nat_embedding.
Qed.

Lemma pad2_digits :
  Forall (λ d1, Forall (λ d2,
    pad2 (10 * d1 + d2)
    = String (ascii_of_nat (Z.to_nat d1 + 48))
        (String (ascii_of_nat (Z.to_nat d2 + 48)) EmptyString))
    (seqZ 0 10)) (seqZ 0 10).
Proof. by apply (bool_decide_unpack _). Qed.

Lemma pad2_two_digits (d1 d2 : Z) :
  (0 ≤ d1 ≤ 9)%Z → (0 ≤ d2 ≤ 9)%Z →
  pad2 (10 * d1 + d2)
  = String (ascii_of_nat (Z.to_nat d1 + 48))
      (String (ascii_of_nat (Z.to_nat d2 + 48)) EmptyString).
Proof.
  intros H1 H2.
  pose proof (proj1 (Forall_forall _ _) pad2_digits d1) as Hd1.
  cbv beta in Hd1.
  apply (proj1 (Forall_forall _ _) (Hd1 ltac:(apply elem_of_seqZ; lia)) d2).
  apply elem_of_seqZ. lia.
Qed.

(** A valid start time is displayed as it was entered. *)
Lemma formatTime_parseStartTime startTime base :
  parseStartTime startTime = Some base →
  formatTime (Some base) = startTime ∧ (0 ≤ base < 1440)%Z.
Proof.
  unfold parseStartTime.
  destruct startTime as [|h1 [|h2 [|colon [|m1 [|m2 [|? ?]]]]]]; try done.
  destruct (JS.digit_of h1) as [a|] eqn:Ha; [|done].
  destruct (JS.digit_of h2) as [b|] eqn:Hb; [|done].
  destruct (JS.digit_of m1) as [c'|] eqn:Hc; [|done].
  destruct (JS.digit_of m2) as [d|] eqn:Hd; [|done].
  apply digit_of_Some in Ha as [Ha ->], Hb as [Hb ->], Hc as [Hc ->], Hd as [Hd ->].
  cbv zeta.
  destruct (Ascii.eqb_spec colon ":") as [->|]; [|done].
  case_bool_decide as Hh; [|done]. case_bool_decide as Hm; [|done].
  cbn [andb]. intros [= <-]. split; [|lia].
  unfold formatTime.
  assert (Hdiv : (((10 * a + b) * 60 + (10 * c' + d)) / 60 = 10 * a + b)%Z).
  { rewrite Z.div_add_l by lia. rewrite (Z.div_small (10 * c' + d)) by lia. lia. }
  assert (Hmod : (((10 * a + b) * 60 + (10 * c' + d)) mod 60 = 10 * c' + d)%Z).
  { replace ((10 * a + b) * 60 + (10 * c' + d))%Z
      with ((10 * c' + d) + (10 * a + b) * 60)%Z by lia.
    rewrite Z.mod_add by lia. apply Z.mod_small. lia. }
  rewrite Hdiv, Hmod, (Z.mod_small (10 * a + b) 24) by lia.
  rewrite !pad2_two_digits by done. done.
Qed.

Lemma updateTeeSheet_no_teams s : teams s = [] → updateTeeSheet s = NoTeamsYet.
Proof. intros Hts. unfold updateTeeSheet. by rewrite Hts. Qed.

Lemma updateTeeSheet_sequential s :
  teams s ≠ [] → startFormat (settings s) = "sequential"%string →
  updateTeeSheet s
  = sheetOf (JS.sort byTimeThenHole
               (sequentialRows s (parseStartTime (startTime (settings s))))).
Proof.
  intros Hts Hfmt. unfold updateTeeSheet.
  rewrite bool_decide_eq_false_2 by (by destruct (teams s)).
  rewrite teeSheetHoles_sequential by (by rewrite Hfmt).
  rewrite Hfmt. done.
Qed.



End TeeSheet.


(** ** The pick rule of the draft *)

Section PickRule.
Import DataModel DraftProps.
Variable diff : Player → Q.
Implicit Types (l seen : list Player).

Lemma firstArgmin_lt l j : firstArgmin diff l j → j < length l.
Proof. intros (x & Hx & _). by eapply lookup_lt_Some. Qed.

Lemma searchState_next seen x best minDifference :
  searchState diff seen best minDifference →
  let better :=
    match minDifference with
    | None => true
    | Some m => negb (Qle_bool m (diff x))
    end in
  searchState diff (seen ++ [x])
    (if better then Some (length seen) else best)
    (if better then Some (diff x) else minDifference).
Proof.
  unfold searchState.
  destruct best as [b|], minDifference as [m|]; try done; cbn.
  - intros [(y & Hy & Hle & Hlt) (y' & Hy' & ->)].
    assert (y' = y) as -> by congruence.
    destruct (Qle_bool (diff y) (diff x)) eqn:E; cbn.
    + apply Qle_bool_iff in E. split.
      * exists y. split_and!.
        -- by apply lookup_app_l_Some.
        -- intros k z [Hz | [_ Hz]]%lookup_app_Some; [eauto|].
           apply list_lookup_singleton_Some in Hz as [_ <-]. done.
        -- intros k z Hk [Hz | [Hge Hz]]%lookup_app_Some; [eauto|].
           apply lookup_lt_Some in Hy. lia.
      * exists y. split; [by apply lookup_app_l_Some | done].
    + assert (Hlt' : (diff x < diff y)%Q).
      { apply Qnot_le_lt. intros H%Qle_bool_iff. congruence. }
      assert (Hx : (seen ++ [x]) !! length seen = Some x).
      { rewrite lookup_app_r by lia. by rewrite Nat.sub_diag. }
      split; [|by exists x].
      exists x. split_and!; [done| |].
      * intros k z [Hz | [_ Hz]]%lookup_app_Some.
        -- specialize (Hle _ _ Hz). lra.
        -- apply list_lookup_singleton_Some in Hz as [_ <-]. lra.
      * intros k z Hk [Hz | [Hge Hz]]%lookup_app_Some; [|lia].
        specialize (Hle _ _ Hz). lra.
  - intros ->. cbn. split; [|by exists x].
    exists x. split_and!; [done| |].
    + intros [|k] z Hz; [|done]. cbn in Hz. injection Hz as <-. lra.
    + intros k z Hk. lia.
Qed.

Lemma bestCandidate_spec seen l best minDifference :
  searchState diff seen best minDifference →
  match bestCandidate diff (length seen) l best minDifference with
  | Some b => firstArgmin diff (seen ++ l) b
  | None => seen ++ l = []
  end.
Proof.
  revert seen best minDifference.
  induction l as [|x l IH]; intros seen best minDifference Hstate.
  { cbn. rewrite app_nil_r. unfold searchState in Hstate.
    destruct best, minDifference; try done. by destruct Hstate. }
  cbn [bestCandidate].
  pose proof (searchState_next seen x best minDifference Hstate) as Hnext.
  cbv zeta in Hnext.
  specialize (IH (seen ++ [x])). rewrite length_app, Nat.add_1_r in IH.
  rewrite <- app_assoc in IH. cbn [app] in IH.
  destruct (match minDifference with
            | Some m => negb (Qle_bool m (diff x))
            | None => true
            end); by apply IH.
Qed.

(** On a pool that is not empty the search finds the first candidate of
    least difference; the fall-back to a random pick is never taken. *)
Lemma bestCandidate_found l :
  l ≠ [] →
  ∃ j, bestCandidate diff 0 l None None = Some j ∧ firstArgmin diff l j.
Proof.
  intros Hne.
  pose proof (bestCandidate_spec [] l None None eq_refl) as H. cbn in H.
  destruct (bestCandidate diff 0 l None None) as [j|]; [eauto | done].
Qed.

End PickRule.

Section Pick.
Import DataModel DraftProps.
Implicit Types (s : Store) (st : DraftState) (g : GroupLetter).

Lemma choosePlayerIndex_random u balance st g pool partial :
  balance = false ∨ g = gD →
  choosePlayerIndex u balance st g pool partial = JS.random_index u (length pool).
Proof.
  unfold choosePlayerIndex. intros [-> | ->]; [done|].
  by rewrite andb_false_r.
Qed.

Lemma choosePlayerIndex_balanced u st g pool partial :
  g ≠ gD → pool ≠ [] →
  firstArgmin (pickDifference st (currentRoundIndex st) partial) pool
    (choosePlayerIndex u true st g pool partial).
Proof.
  intros Hg Hpool. unfold choosePlayerIndex.
  rewrite bool_decide_eq_false_2 by done. cbn [andb negb].
  destruct (bestCandidate_found
              (pickDifference st (currentRoundIndex st) partial) pool Hpool)
    as (j & -> & Hj).
  done.
Qed.

Lemma choosePlayerIndex_lt u balance st g pool partial :
  pool ≠ [] → choosePlayerIndex u balance st g pool partial < length pool.
Proof.
  intros Hpool.
  destruct balance, (decide (g = gD)) as [->|Hg].
  - rewrite choosePlayerIndex_random by auto.
    apply random_index_lt. destruct pool; [done | simpl; lia].
  - eapply firstArgmin_lt. by apply choosePlayerIndex_balanced.
  - rewrite choosePlayerIndex_random by auto.
    apply random_index_lt. destruct pool; [done | simpl; lia].
  - rewrite choosePlayerIndex_random by auto.
    apply random_index_lt. destruct pool; [done | simpl; lia].
Qed.


(** A pick from a pool that is not empty: what is returned and what the
    draft state becomes. *)
Lemma pick_succeeds u s st g td :
  interactiveDraftState s = Some st →
  draftOrder st !! currentRoundIndex st = Some g →
  get_group g (availableGroups st) ≠ [] →
  draftedTeamsData st !! currentTeamIndex st = Some td →
  let pool := get_group g (availableGroups st) in
  let j := choosePlayerIndex u (balanceTeams (settings s)) st g pool (partialHandicap td) in
  let wraps := bool_decide (numTeams st ≤ S (currentTeamIndex st)) in
  ∃ chosen st',
    pool !! j = Some chosen ∧
    makeInteractiveDraftPick u s
    = (Returned (Success (mkPick chosen (currentTeamIndex st) g
         (bool_decide (length (draftOrder st) ≤ currentRoundIndex st')))),
       set_draft (Some st') s) ∧
    numTeams st' = numTeams st ∧ draftOrder st' = draftOrder st ∧
    targetTeamHandicap st' = targetTeamHandicap st ∧
    avgPlayerHandicap st' = avgPlayerHandicap st ∧
    currentTeamIndex st' = (if wraps then 0 else S (currentTeamIndex st)) ∧
    currentRoundIndex st'
    = (if wraps then S (currentRoundIndex st) else currentRoundIndex st) ∧
    availableGroups st' = put_group g (delete j pool) (availableGroups st) ∧
    draftedTeamsData st'
    = <[currentTeamIndex st :=
          mkDrafted
            (JS.array_set (length (draftOrder st) - 1 - currentRoundIndex st) chosen
               (draft_members td))
            (partialHandicap td + getNumericHandicap chosen)%Q]>
        (draftedTeamsData st).
Proof.
  intros Hst Hg Hpool Htd pool j wraps.
  destruct (lookup_lt_is_Some_2 pool j) as [chosen Hchosen].
  { by apply choosePlayerIndex_lt. }
  exists chosen. eexists. split; [done|].
  unfold makeInteractiveDraftPick. rewrite Hst, Hg.
  rewrite bool_decide_eq_false_2; cycle 1.
  { fold pool. destruct pool; [done | simpl; lia]. }
  rewrite Htd. fold pool. fold j. rewrite Hchosen.
  split; [reflexivity|]. done.
Qed.


End Pick.


(** ** The course of a draft *)

Section Draft.
Import DataModel DraftProps.
Implicit Types (s : Store) (st : DraftState) (g : GroupLetter) (gs orig : Groups).

Lemma get_put_group_eq g v gs : get_group g (put_group g v gs) = v.
Proof. by destruct g. Qed.

Lemma get_put_group_ne g g' v gs :
  g ≠ g' → get_group g' (put_group g v gs) = get_group g' gs.
Proof. by destruct g, g'. Qed.

Lemma roundOf_lookup g r : [gD; gC; gB; gA] !! r = Some g → r = roundOf g.
Proof. do 4 (destruct r as [|r]; [by intros [= <-]|]). done. Qed.

Lemma lookup_roundOf g : [gD; gC; gB; gA] !! roundOf g = Some g.
Proof. by destruct g. Qed.

Lemma slot_of_round g : 4 - 1 - roundOf g = slotIndex g.
Proof. by destruct g. Qed.

Lemma roundOf_inj g g' : roundOf g = roundOf g' → g = g'.
Proof. by destruct g, g'. Qed.

Lemma slotIndex_inj g g' : slotIndex g = slotIndex g' → g = g'.
Proof. by destruct g, g'. Qed.

Lemma smallestGroup_le gs g : smallestGroup gs ≤ length (get_group g gs).
Proof. unfold smallestGroup. destruct g; simpl; lia. Qed.

Lemma set_targets_inv orig n k target avg st :
  draftInv orig n k st → draftInv orig n k (set_targets target avg st).
Proof. by intros []. Qed.

Lemma omap_replicate_None {X Y} (f : X → option Y) n x :
  f x = None → omap f (replicate n x) = [].
Proof. intros Hf. induction n as [|n IH]; [done|]. cbn. by rewrite Hf. Qed.

(** The draft starts whenever every group has a player. *)
Lemma initialize_succeeds s :
  0 < smallestGroup (groups s) →
  ∃ st, initializeInteractiveDraft s = (Success st, set_draft (Some st) s) ∧
        draftInv (groups s) (smallestGroup (groups s)) 0 st.
Proof.
  intros Hn. unfold initializeInteractiveDraft.
  fold (smallestGroup (groups s)).
  rewrite bool_decide_eq_false_2 by lia.
  eexists. split; [reflexivity|].
  set (n := smallestGroup (groups s)) in *.
  assert (Hinv : draftInv (groups s) n 0
            (mkDraft n 0 0 [gD; gC; gB; gA]
               (mkGroups (A (groups s)) (B (groups s)) (C (groups s)) (D (groups s)))
               (replicate n (mkDrafted [None; None; None; None] 0%Q)) 0%Q 0%Q)).
  { split; cbn.
    - done.
    - done.
    - apply length_replicate.
    - split; [lia|]. left. lia.
    - by apply Forall_replicate.
    - intros i td g [-> _]%lookup_replicate. split; [|lia].
      destruct g; cbn; by intros [? ?].
    - intros g. unfold pickedIn. cbn.
      rewrite omap_replicate_None by (by destruct g). by destruct g.
    - intros g. rewrite Nat.min_0_r. by destruct g. }
  destruct (balanceTeams (settings s)); [|done].
  repeat case_bool_decide; repeat apply set_targets_inv; done.
Qed.

Lemma memberFrom_set g g' chosen td partial :
  length (draft_members td) = 4 →
  memberFrom g' (mkDrafted (JS.array_set (slotIndex g) chosen (draft_members td)) partial)
  = if decide (g' = g) then Some chosen else memberFrom g' td.
Proof.
  intros Hlen. unfold memberFrom, JS.array_set. cbn [draft_members].
  assert (Hslot : ∀ x, slotIndex x < 4) by (by intros []; cbn; lia).
  rewrite decide_True by (rewrite Hlen; apply Hslot).
  case_decide as Hg.
  - subst g'. rewrite list_lookup_insert_eq by (rewrite Hlen; apply Hslot). done.
  - rewrite list_lookup_insert_ne; [done|].
    intros E. apply slotIndex_inj in E. by subst.
Qed.

Lemma omap_insert_new {X Y} (f : X → option Y) (l : list X) i x x' y :
  l !! i = Some x → f x = None → f x' = Some y →
  omap f (<[i := x']> l) ≡ₚ y :: omap f l.
Proof.
  revert i. induction l as [|z l IH]; intros [|i] Hi Hx Hx'; try done.
  - injection Hi as ->.
    change (<[0 := x']> (x :: l)) with (x' :: l).
    by rewrite !omap_cons, Hx, Hx'.
  - change (<[S i := x']> (z :: l)) with (z :: <[i := x']> l).
    rewrite !omap_cons. destruct (f z).
    + rewrite (IH i) by done. apply Permutation_swap.
    + by apply IH.
Qed.

Lemma omap_insert_same {X Y} (f : X → option Y) (l : list X) i x x' :
  l !! i = Some x → f x' = f x → omap f (<[i := x']> l) = omap f l.
Proof.
  revert i. induction l as [|z l IH]; intros [|i] Hi Hx; try done.
  - injection Hi as ->.
    change (<[0 := x']> (x :: l)) with (x' :: l).
    by rewrite !omap_cons, Hx.
  - change (<[S i := x']> (z :: l)) with (z :: <[i := x']> l).
    rewrite !omap_cons. by rewrite (IH i).
Qed.

Lemma cursor_unique (n r r' i t : nat) :
  i < n → t < n → r' * n + i = r * n + t → r' = r ∧ i = t.
Proof.
  intros Hi Ht E. apply (Nat.div_mod_unique n); [done..|].
  by rewrite !(Nat.mul_comm n).
Qed.

Lemma picks_of_other_round (n r r' t : nat) :
  t < n → r' ≠ r →
  Nat.min n (r * n + t - r' * n) = Nat.min n (S (r * n + t) - r' * n).
Proof.
  intros Ht Hne. destruct (decide (r' < r)).
  - assert (S r' * n ≤ r * n) by (apply Nat.mul_le_mono_r; lia).
    simpl in *. lia.
  - assert (S r * n ≤ r' * n) by (apply Nat.mul_le_mono_r; lia).
    simpl in *. lia.
Qed.

(** One pick of a draft that is not complete succeeds and moves the draft
    on by one. *)
Lemma pick_step u s st orig n k :
  interactiveDraftState s = Some st →
  (∀ g, n ≤ length (get_group g orig)) →
  draftInv orig n k st → k < 4 * n →
  ∃ pick st',
    makeInteractiveDraftPick u s = (Returned (Success pick), set_draft (Some st') s) ∧
    draftInv orig n (S k) st'.
Proof.
  intros Hst Hn [Hnum Horder Hteams [Hk Hcur] Hslots Hfilled Hpools Hsizes] Hlt.
  destruct Hcur as [[Ht Hr] | [Ht Hr]]; [|rewrite Ht, Hr in Hk; lia].
  set (r := currentRoundIndex st) in *. set (t := currentTeamIndex st) in *.
  destruct (lookup_lt_is_Some_2 [gD; gC; gB; gA] r ltac:(simpl; lia)) as [g Hg].
  pose proof (roundOf_lookup g r Hg) as Hrg.
  assert (Hpool_len : length (get_group g (availableGroups st)) + t
                      = length (get_group g orig)).
  { rewrite <- (Hsizes g). f_equal. rewrite <- Hrg. lia. }
  assert (Hpool : get_group g (availableGroups st) ≠ []).
  { intros E. rewrite E in Hpool_len. specialize (Hn g). simpl in Hpool_len. lia. }
  destruct (lookup_lt_is_Some_2 (draftedTeamsData st) t ltac:(lia)) as [td Htd].
  destruct (pick_succeeds u s st g td Hst ltac:(by rewrite Horder) Hpool Htd)
    as (chosen & st' & Hchosen & Hpick & Hnum' & Horder' & _ & _ & Ht' & Hr' & Hav' & Htds').
  fold r t in Ht', Hr', Htds'.
  rewrite Horder in Htds'. cbn [length] in Htds'. rewrite Hrg, slot_of_round in Htds'.
  set (j := choosePlayerIndex u (balanceTeams (settings s)) st g
              (get_group g (availableGroups st)) (partialHandicap td)) in *.
  set (td' := mkDrafted (JS.array_set (slotIndex g) chosen (draft_members td))
                (partialHandicap td + getNumericHandicap chosen)%Q) in *.
  assert (Hlen_td : length (draft_members td) = 4).
  { eapply (proj1 (Forall_forall _ _) Hslots). by eapply list_elem_of_lookup_2. }
  assert (Hnew : memberFrom g td = None).
  { destruct (memberFrom g td) eqn:E; [|done].
    assert (roundOf g * n + t < k) by (apply (Hfilled t td g Htd); eauto). lia. }
  eexists _, st'. split; [exact Hpick|].
  split.
  - congruence.
  - congruence.
  - rewrite Htds', length_insert. done.
  - rewrite Ht', Hr', Hnum. fold r t.
    destruct (decide (n ≤ S t)).
    + rewrite !bool_decide_eq_true_2 by done.
      split; [simpl; lia|]. destruct (decide (r = 3)); [right | left]; lia.
    + rewrite !bool_decide_eq_false_2 by done. split; [lia|]. left. lia.
  - rewrite Htds'. apply Forall_insert; [done|].
    unfold td', JS.array_set. cbn [draft_members].
    rewrite decide_True by (rewrite Hlen_td; destruct g; cbn; lia).
    by rewrite length_insert.
  - intros i tdi g' Hi.
    rewrite Htds' in Hi. apply list_lookup_insert_Some in Hi.
    destruct Hi as [(<- & <- & _) | (Hne & Hi)].
    + unfold td'. rewrite memberFrom_set by done.
      destruct (decide (g' = g)) as [->|Hgg].
      * split; [lia | eauto].
      * rewrite (Hfilled t td g' Htd).
        assert (roundOf g' * n + t ≠ k); [|lia].
        rewrite Hk. intros [E _]%cursor_unique; [|done..].
        rewrite Hrg in E. by apply roundOf_inj in E.
    + rewrite (Hfilled i tdi g' Hi).
      assert (i < n). { rewrite <- Hteams. by eapply lookup_lt_Some. }
      assert (roundOf g' * n + i ≠ k); [|lia].
      rewrite Hk. intros [_ E]%cursor_unique; done.
  - intros g'. unfold pickedIn. rewrite Hav', Htds'.
    destruct (decide (g' = g)) as [->|Hgg].
    + rewrite get_put_group_eq.
      rewrite (omap_insert_new _ _ _ td td' chosen); [|done|done|]; cycle 1.
      { unfold td'. rewrite memberFrom_set by done. by rewrite decide_True. }
      rewrite <- (Hpools g). unfold pickedIn. cbn.
      rewrite (delete_Permutation _ _ _ Hchosen) at 2.
      by rewrite Permutation_middle.
    + rewrite get_put_group_ne by done.
      rewrite (omap_insert_same _ _ _ td td'); [apply Hpools | done |].
      unfold td'. rewrite memberFrom_set by done. by rewrite decide_False.
  - intros g'. rewrite Hav'.
    destruct (decide (g' = g)) as [->|Hgg].
    + rewrite get_put_group_eq, length_delete by eauto.
      rewrite <- Hpool_len.
      assert (0 < length (get_group g (availableGroups st)))
        by (destruct (get_group g (availableGroups st)); [done | simpl; lia]).
      rewrite <- Hrg. lia.
    + rewrite get_put_group_ne by done. rewrite <- (Hsizes g'). f_equal.
      rewrite Hk. symmetry. apply picks_of_other_round; [done|].
      rewrite Hrg. intros E. by apply roundOf_inj in E.
Qed.

(** *** Taking drafted players out of the groups *)

Lemma filter_all {X} (P : X → Prop) `{!∀ x, Decision (P x)} (l : list X) :
  (∀ x, x ∈ l → P x) → filter P l = l.
Proof.
  induction l as [|y l IH]; intros HP; [done|].
  rewrite filter_cons, decide_True by (apply HP; left).
  rewrite IH; [done|]. intros x Hx. apply HP. by right.
Qed.

Lemma delete_filter_ref (l : list Player) i x :
  NoDup (ref <$> l) → l !! i = Some x →
  delete i l = filter (λ q, ref q ≠ ref x) l.
Proof.
  revert i. induction l as [|y l IH]; intros i Hnd Hi; [done|].
  rewrite fmap_cons in Hnd. apply NoDup_cons in Hnd as [Hy Hnd].
  destruct i as [|i]; cbn in Hi.
  - injection Hi as ->. cbn [delete list_delete].
    rewrite filter_cons, decide_False by (intros H; by apply H).
    symmetry. apply filter_all. intros q Hq E. apply Hy. rewrite <- E.
    by apply list_elem_of_fmap_2.
  - change (delete (S i) (y :: l)) with (y :: delete i l).
    rewrite filter_cons, decide_True; [by rewrite (IH i)|].
    intros E. apply Hy. rewrite E. apply list_elem_of_fmap_2.
    by eapply list_elem_of_lookup_2.
Qed.

Lemma distinct_group g gs : distinctGrouped gs → NoDup (ref <$> get_group g gs).
Proof.
  unfold distinctGrouped, allGrouped. rewrite !fmap_app, !NoDup_app.
  intros (HA & _ & HB & _ & HC & _ & HD). by destruct g.
Qed.

Lemma distinct_across g g' gs x q :
  distinctGrouped gs → x ∈ get_group g gs → q ∈ get_group g' gs →
  ref q = ref x → g = g'.
Proof.
  unfold distinctGrouped, allGrouped. rewrite !fmap_app, !NoDup_app.
  intros (_ & HA & _ & HB & _ & HC & _) Hx Hq E.
  apply (list_elem_of_fmap_2 ref) in Hx, Hq. rewrite E in Hq.
  destruct g, g'; try done; exfalso; cbn [get_group] in Hx, Hq;
    first [ apply (HA _ Hx) | apply (HA _ Hq) | apply (HB _ Hx)
          | apply (HB _ Hq) | apply (HC _ Hx) | apply (HC _ Hq) ];
    rewrite ?elem_of_app; by eauto.
Qed.

Lemma existsb_samePlayer p l :
  existsb (samePlayer p) l = true ↔ ∃ q, q ∈ l ∧ ref q = ref p.
Proof.
  rewrite existsb_exists. unfold samePlayer. split.
  - intros (q & Hq%list_elem_of_In & E%bool_decide_eq_true). eauto.
  - intros (q & Hq%list_elem_of_In & E). exists q. by rewrite bool_decide_eq_true.
Qed.

Lemma removeFromGroups_filter gs p :
  distinctGrouped gs →
  removeFromGroups gs (Some p) = mapGroups (filter (λ q, ref q ≠ ref p)) gs.
Proof.
  intros Hdist. unfold removeFromGroups.
  destruct (List.find _ _) as [g|] eqn:Hfind.
  - apply find_some in Hfind as [_ Hin].
    apply existsb_samePlayer in Hin as (x & Hx & Hxp).
    unfold indexOfPlayer.
    destruct (list_find_elem_of (λ o : Player, ref o = ref p) _ x Hx Hxp) as [[i y] Hfound].
    rewrite Hfound. cbn [fmap option_fmap option_map fst].
    apply list_find_Some in Hfound as (Hi & Hy & _).
    unfold JS.splice1.
    rewrite (delete_filter_ref _ _ y (distinct_group g gs Hdist) Hi), Hy.
    assert (Hother : ∀ g', g' ≠ g →
              filter (λ q, ref q ≠ ref p) (get_group g' gs) = get_group g' gs).
    { intros g' Hne. apply filter_all. intros q Hq E. apply Hne. symmetry.
      eapply (distinct_across g g' gs y q); eauto using list_elem_of_lookup_2.
      congruence. }
    unfold mapGroups.
    destruct g; cbn [put_group get_group]; f_equal; symmetry;
      first [ by apply (Hother gA) | by apply (Hother gB)
            | by apply (Hother gC) | by apply (Hother gD) ].
  - assert (Hnone : ∀ g, filter (λ q, ref q ≠ ref p) (get_group g gs) = get_group g gs).
    { intros g. apply filter_all. intros q Hq E.
      assert (Hg : existsb (samePlayer p) (get_group g gs) = false).
      { apply (find_none _ _ Hfind g). destruct g; cbn; tauto. }
      rewrite (proj2 (existsb_samePlayer p (get_group g gs))) in Hg by eauto.
      done. }
    unfold mapGroups. destruct gs as [a b c d]. cbn [A B C D].
    f_equal; symmetry;
      [apply (Hnone gA) | apply (Hnone gB) | apply (Hnone gC) | apply (Hnone gD)].
Qed.

Lemma distinct_filter (P : Player → Prop) `{!∀ x, Decision (P x)} gs :
  distinctGrouped gs → distinctGrouped (mapGroups (filter P) gs).
Proof.
  unfold distinctGrouped, allGrouped, mapGroups. cbn.
  intros Hnd. eapply sublist_NoDup; [exact Hnd|].
  apply fmap_sublist. repeat apply sublist_app; apply sublist_filter.
Qed.

Lemma removeAll_filter gs ms :
  distinctGrouped gs →
  foldl removeFromGroups gs ms = mapGroups (without (present ms)) gs.
Proof.
  revert gs. induction ms as [|[p|] ms IH]; intros gs Hdist; cbn [foldl].
  - unfold mapGroups, without, present. cbn.
    rewrite !filter_all by (intros ? _; apply not_elem_of_nil). by destruct gs.
  - rewrite removeFromGroups_filter by done.
    rewrite IH by by apply distinct_filter.
    unfold mapGroups, without, present. cbn [A B C D]. rewrite omap_cons, fmap_cons.
    rewrite !list_filter_filter.
    f_equal; apply list_filter_iff; intros q; rewrite not_elem_of_cons; tauto.
  - cbn [removeFromGroups]. rewrite IH by done. done.
Qed.

(** *** A run of picks *)

Lemma picks_run us : ∀ s st orig n k,
  interactiveDraftState s = Some st →
  (∀ g, n ≤ length (get_group g orig)) →
  draftInv orig n k st → k + length us ≤ 4 * n →
  Forall pickSucceeded (pickOutcomes us s) ∧
  ∃ st', picksFrom us s = set_draft (Some st') s ∧
         draftInv orig n (k + length us) st'.
Proof.
  induction us as [|u us IH]; intros s st orig n k Hst Hn Hinv Hk.
  - split; [constructor|]. exists st. rewrite Nat.add_0_r. split; [|done].
    destruct s; cbn in *; by subst.
  - cbn [length] in Hk.
    destruct (pick_step u s st orig n k Hst Hn Hinv) as (pick & st' & Hpick & Hinv');
      [lia|].
    destruct (IH (set_draft (Some st') s) st' orig n (S k))
      as (Hall & st'' & Hrun & Hinv''); [done..|lia|].
    cbn [pickOutcomes]. unfold picksFrom in *. cbn [foldl].
    rewrite Hpick. cbn [fst snd]. split.
    + constructor; [by exists pick|done].
    + exists st''. split; [exact Hrun|].
      cbn [length]. by replace (k + S (length us)) with (S k + length us) by lia.
Qed.

(** *** Finalizing *)

Lemma finalize_incomplete s st orig n k :
  interactiveDraftState s = Some st → draftInv orig n k st → k < 4 * n →
  finalizeDraftedTeams s = (Fail DraftNotComplete, s).
Proof.
  intros Hst Hinv Hk. unfold finalizeDraftedTeams. rewrite Hst.
  destruct Hinv as [_ Hord _ [Hc Hcur] _ _ _ _]. rewrite Hord. cbn [length].
  rewrite bool_decide_eq_true_2; [done|].
  destruct Hcur as [[_ ?]|[H0 H4]]; [done|]. rewrite H0, H4 in Hc. lia.
Qed.

Lemma full_teams orig n st :
  draftInv orig n (4 * n) st → Forall fullTeam (draftedTeamsData st).
Proof.
  intros Hinv. apply Forall_lookup. intros i td Hi.
  pose proof (lookup_lt_Some _ _ _ Hi) as Hlt.
  rewrite (di_teams _ _ _ _ Hinv) in Hlt.
  pose proof (proj1 (Forall_lookup _ _) (di_slots _ _ _ _ Hinv) i td Hi) as Hlen.
  cbn in Hlen.
  assert (Hfull : ∀ g, is_Some (memberFrom g td)).
  { intros g. apply (di_filled _ _ _ _ Hinv i td g Hi). destruct g; cbn; lia. }
  unfold fullTeam.
  destruct (draft_members td) as [|m0 [|m1 [|m2 [|m3 [|]]]]] eqn:E; try done.
  destruct (Hfull gA) as [a Ha], (Hfull gB) as [b Hb],
    (Hfull gC) as [c Hc], (Hfull gD) as [d Hd].
  unfold memberFrom in *. rewrite E in *. cbn in *. subst. eauto.
Qed.

Lemma without_nil l : without [] l = l.
Proof. apply filter_all. intros ? _. apply not_elem_of_nil. Qed.

Lemma without_without X1 X2 l : without X2 (without X1 l) = without (X1 ++ X2) l.
Proof.
  unfold without. rewrite list_filter_filter. apply list_filter_iff.
  intros q. rewrite fmap_app, not_elem_of_app. tauto.
Qed.

Lemma finalizeOne_full m ft gs td :
  fullTeam td → distinctGrouped gs →
  finalizeOne m (ft, gs) td =
    (ft ++ [teamOf m (length ft) td],
     mapGroups (without (present (draft_members td))) gs).
Proof.
  intros (a & b & c & d & Hm) Hdist. unfold finalizeOne.
  assert (forallb (λ p, bool_decide (is_Some p)) (draft_members td) = true) as ->.
  { rewrite Hm. cbn. by rewrite ?bool_decide_eq_true_2 by eauto. }
  cbn [members]. by rewrite removeAll_filter.
Qed.

Lemma finalize_fold m tds : ∀ ft gs,
  Forall fullTeam tds → distinctGrouped gs →
  foldl (finalizeOne m) (ft, gs) tds =
    (ft ++ imap (λ i, teamOf m (length ft + i)) tds,
     mapGroups (without (present (tds ≫= draft_members))) gs).
Proof.
  induction tds as [|td tds IH]; intros ft gs Hfull Hdist.
  - cbn. rewrite app_nil_r. f_equal. unfold mapGroups.
    rewrite !without_nil. by destruct gs.
  - apply Forall_cons in Hfull as [Htd Hfull].
    cbn [foldl]. rewrite finalizeOne_full by done.
    rewrite IH by (done || by apply distinct_filter).
    f_equal.
    + rewrite <- app_assoc. f_equal. cbn [imap app]. rewrite Nat.add_0_r.
      f_equal. apply imap_ext. intros i x _. cbn. rewrite length_app. cbn.
      f_equal. lia.
    + unfold mapGroups. cbn [A B C D]. rewrite !without_without.
      cbn [mbind list_bind]. unfold present. by rewrite omap_app.
Qed.

Lemma finalize_complete s st orig n :
  interactiveDraftState s = Some st → draftInv orig n (4 * n) st →
  distinctGrouped (groups s) →
  finalizeDraftedTeams s =
    (Success n,
     set_draft None
       (set_teams (teams s ++ imap (teamOf (length (teams s))) (draftedTeamsData st))
          (set_groups
             (mapGroups (without (present (draftedTeamsData st ≫= draft_members)))
                (groups s)) s))).
Proof.
  intros Hst Hinv Hdist. unfold finalizeDraftedTeams. rewrite Hst.
  pose proof (full_teams _ _ _ Hinv) as Hfull.
  destruct Hinv as [_ Hord Hlen [Hc Hcur] _ _ _ _]. rewrite Hord. cbn [length].
  rewrite bool_decide_eq_false_2 by (destruct Hcur as [[? ?]|[? ?]]; nia).
  rewrite finalize_fold by done. cbn [app length Nat.add].
  by rewrite length_imap, Hlen.
Qed.

(** *** What the finished draft holds *)

Lemma memberFrom_present g td p :
  memberFrom g td = Some p → p ∈ present (draft_members td).
Proof.
  unfold memberFrom, present. intros H.
  destruct (draft_members td !! slotIndex g) as [[q|]|] eqn:E; try done.
  cbn in H. injection H as ->. apply list_elem_of_omap. exists (Some p).
  split; [|done]. by eapply list_elem_of_lookup_2.
Qed.

Lemma present_memberFrom td p :
  length (draft_members td) = 4 → p ∈ present (draft_members td) →
  ∃ g, memberFrom g td = Some p.
Proof.
  unfold present, memberFrom. intros Hlen Hp.
  apply list_elem_of_omap in Hp as (m & Hm & ->).
  apply list_elem_of_lookup_1 in Hm as [i Hi].
  pose proof (lookup_lt_Some _ _ _ Hi) as Hlt. rewrite Hlen in Hlt.
  destruct i as [|[|[|[|i]]]]; [exists gA|exists gB|exists gC|exists gD|lia];
    cbn [slotIndex]; by rewrite Hi.
Qed.

Lemma picked_removed g st p :
  p ∈ pickedIn g st → p ∈ present (draftedTeamsData st ≫= draft_members).
Proof.
  unfold pickedIn. intros (td & Htd & Hm)%list_elem_of_omap.
  apply memberFrom_present in Hm. unfold present in *.
  apply list_elem_of_omap in Hm as (m & Hm & Hp).
  apply list_elem_of_omap. exists m. split; [|done].
  apply list_elem_of_bind. eauto.
Qed.

Lemma removed_picked orig n k st p :
  draftInv orig n k st →
  p ∈ present (draftedTeamsData st ≫= draft_members) → ∃ g, p ∈ pickedIn g st.
Proof.
  intros Hinv Hp. unfold present in Hp.
  apply list_elem_of_omap in Hp as (m & Hm & Hp).
  apply list_elem_of_bind in Hm as (td & Hm & Htd).
  pose proof (proj1 (Forall_forall _ _) (di_slots _ _ _ _ Hinv) td Htd) as Hlen.
  destruct (present_memberFrom td p Hlen) as [g Hg].
  { apply list_elem_of_omap. eauto. }
  exists g. apply list_elem_of_omap. eauto.
Qed.

Lemma picked_original orig n k st g p :
  draftInv orig n k st → p ∈ pickedIn g st → p ∈ get_group g orig.
Proof.
  intros Hinv Hp. rewrite <- (di_pools _ _ _ _ Hinv g), elem_of_app. by left.
Qed.

Lemma filter_none {X} (P : X → Prop) `{!∀ x, Decision (P x)} (l : list X) :
  (∀ x, x ∈ l → ¬ P x) → filter P l = [].
Proof.
  induction l as [|y l IH]; intros HP; [done|].
  rewrite filter_cons, decide_False by (apply HP; left).
  apply IH. intros x Hx. apply HP. by right.
Qed.

Lemma get_mapGroups g f gs : get_group g (mapGroups f gs) = f (get_group g gs).
Proof. by destruct g. Qed.

Lemma remaining_groups orig n k st g :
  distinctGrouped orig → draftInv orig n k st →
  without (present (draftedTeamsData st ≫= draft_members)) (get_group g orig)
  ≡ₚ get_group g (availableGroups st).
Proof.
  intros Hdist Hinv. pose proof (di_pools _ _ _ _ Hinv g) as Hperm.
  unfold without. rewrite <- Hperm at 1. rewrite filter_app.
  rewrite filter_none, filter_all; [done| |].
  - intros q Hq Hin. apply list_elem_of_fmap in Hin as (p & E & Hp).
    destruct (removed_picked _ _ _ _ _ Hinv Hp) as [g' Hg'].
    assert (g' = g) as ->.
    { eapply (distinct_across g' g orig p q); eauto using picked_original.
      rewrite <- Hperm, elem_of_app. by right. }
    pose proof (distinct_group g orig Hdist) as Hnd.
    rewrite <- Hperm, fmap_app in Hnd. apply NoDup_app in Hnd as (_ & Hnd & _).
    apply (Hnd (ref p)); [by apply list_elem_of_fmap_2|].
    rewrite <- E. by apply list_elem_of_fmap_2.
  - intros p Hp Hnot. apply Hnot. apply list_elem_of_fmap_2.
    by eapply picked_removed.
Qed.

Lemma team_origins orig n st m i td :
  draftInv orig n (4 * n) st → draftedTeamsData st !! i = Some td →
  ∃ a b c d,
    members (teamOf m i td) = [Some a; Some b; Some c; Some d] ∧
    a ∈ A orig ∧ b ∈ B orig ∧ c ∈ C orig ∧ d ∈ D orig.
Proof.
  intros Hinv Hi.
  pose proof (proj1 (Forall_lookup _ _) (full_teams _ _ _ Hinv) i td Hi)
    as (a & b & c & d & Hm).
  exists a, b, c, d. split; [done|].
  assert (Hin : ∀ g p, memberFrom g td = Some p → p ∈ get_group g orig).
  { intros g p Hp. eapply picked_original; [done|].
    apply list_elem_of_omap. exists td. split; [|done].
    by eapply list_elem_of_lookup_2. }
  unfold memberFrom in Hin. rewrite Hm in Hin.
  repeat split; [apply (Hin gA)|apply (Hin gB)|apply (Hin gC)|apply (Hin gD)]; done.
Qed.

Lemma bind_members_imap (f : nat → DraftedTeamData → Team) tds :
  (∀ i td, members (f i td) = draft_members td) →
  imap f tds ≫= members = tds ≫= draft_members.
Proof.
  revert f. induction tds as [|td tds IH]; intros f Hf; [done|].
  cbn [imap mbind list_bind]. rewrite Hf. f_equal. apply (IH (f ∘ S)).
  intros i td'. apply Hf.
Qed.

(** C2. On a store whose groups hold no player object twice and whose
    smallest group has n > 0 players, [initializeInteractiveDraft] succeeds
    with numTeams = n.  Every one of up to 4n picks that follow succeeds.
    After fewer than 4n picks [finalizeDraftedTeams] fails and leaves the
    store, so the team list, as it was.  After exactly 4n picks it succeeds
    with teamsAdded = n: the team list is the former one followed by n new
    teams with ids continuing the count, each with four filled slots holding
    a player of group A, B, C and D in this order; the live groups are the
    former groups without the members of the new teams, each n players
    shorter; the draft state is gone, and the registry and the hole
    assignments are untouched. *)
Theorem C2_draft_finalize (us : list JS.rand01) (s : Store) :
  distinctGrouped (groups s) →
  0 < smallestGroup (groups s) →
  let n := smallestGroup (groups s) in
  ∃ st0,
    initializeInteractiveDraft s = (Success st0, set_draft (Some st0) s) ∧
    numTeams st0 = n ∧
    let drafted := picksFrom us (set_draft (Some st0) s) in
    (length us ≤ 4 * n →
       Forall pickSucceeded (pickOutcomes us (set_draft (Some st0) s))) ∧
    (length us < 4 * n →
       finalizeDraftedTeams drafted = (Fail DraftNotComplete, drafted) ∧
       teams drafted = teams s) ∧
    (length us = 4 * n →
       ∃ newTeams,
         let final := (finalizeDraftedTeams drafted).2 in
         (finalizeDraftedTeams drafted).1 = Success n ∧
         teams final = teams s ++ newTeams ∧
         length newTeams = n ∧
         (∀ i t, newTeams !! i = Some t →
            id t = (Z.of_nat (length (teams s) + i) + 1)%Z ∧
            ∃ a b c d,
              members t = [Some a; Some b; Some c; Some d] ∧
              a ∈ A (groups s) ∧ b ∈ B (groups s) ∧
              c ∈ C (groups s) ∧ d ∈ D (groups s)) ∧
         groups final
         = mapGroups (without (present (newTeams ≫= members))) (groups s) ∧
         (∀ g, length (get_group g (groups final))
               = length (get_group g (groups s)) - n) ∧
         interactiveDraftState final = None ∧
         players final = players s ∧
         holeAssignments final = holeAssignments s).
Proof.
  intros Hdist Hpos n.
  destruct (initialize_succeeds s Hpos) as (st0 & Hinit & Hinv0).
  exists st0. split; [exact Hinit|].
  split; [exact (di_numTeams _ _ _ _ Hinv0)|].
  intros drafted.
  assert (Hrun : length us ≤ 4 * n →
            Forall pickSucceeded (pickOutcomes us (set_draft (Some st0) s)) ∧
            ∃ st', drafted = set_draft (Some st') s ∧
                   draftInv (groups s) n (length us) st').
  { intros Hle.
    destruct (picks_run us (set_draft (Some st0) s) st0 (groups s) n 0)
      as (Hall & st' & Hrun & Hinv);
      [done | intros g; apply smallestGroup_le | done | lia |].
    split; [done|]. exists st'. split; [exact Hrun|done]. }
  split_and!.
  - intros Hle. by destruct (Hrun Hle).
  - intros Hlt. destruct (Hrun ltac:(lia)) as (_ & st' & Hd & Hinv). split.
    + eapply finalize_incomplete; [|exact Hinv|done]. by rewrite Hd.
    + by rewrite Hd.
  - intros Heq. destruct (Hrun ltac:(lia)) as (_ & st' & Hd & Hinv).
    rewrite Heq in Hinv.
    exists (imap (teamOf (length (teams s))) (draftedTeamsData st')).
    rewrite (finalize_complete drafted st' (groups s) n);
      [|by rewrite Hd|done|by rewrite Hd].
    rewrite Hd. cbn.
    rewrite bind_members_imap by done.
    split_and!; try done.
    + by rewrite length_imap, (di_teams _ _ _ _ Hinv).
    + intros i t Ht. apply list_lookup_imap_Some in Ht as (td & Htd & ->).
      split; [done|]. by eapply team_origins.
    + intros g. rewrite get_mapGroups.
      rewrite (remaining_groups (groups s) n (4 * n) st' g Hdist Hinv).
      pose proof (di_sizes _ _ _ _ Hinv g) as Hsize.
      destruct g; cbn [roundOf] in Hsize; lia.
Qed.

End Draft.

Lemma C2_draft_finalize_witness :
  ∃ st0 newTeams,
    DataModel.initializeInteractiveDraft Samples.eightBalanced
    = (DataModel.Success st0,
       DataModel.set_draft (Some st0) Samples.eightBalanced) ∧
    DataModel.teams
      (DataModel.finalizeDraftedTeams
         (DraftProps.picksFrom Samples.eightDraws
            (DataModel.set_draft (Some st0) Samples.eightBalanced))).2
    = newTeams ∧
    length newTeams = 2.
Proof.
  assert (Hdist : DraftProps.distinctGrouped (DataModel.groups Samples.eightBalanced)).
  { apply (bool_decide_unpack _). vm_compute. reflexivity. }
  assert (Hpos : 0 < DraftProps.smallestGroup (DataModel.groups Samples.eightBalanced)).
  { apply (bool_decide_unpack _). vm_compute. reflexivity. }
  destruct (C2_draft_finalize Samples.eightDraws Samples.eightBalanced Hdist Hpos)
    as (st0 & Hinit & _ & _ & _ & Hfinal).
  destruct Hfinal as (newTeams & _ & Hteams & Hlen & _).
  { vm_compute. reflexivity. }
  exists st0, newTeams. split; [exact Hinit|]. split.
  - rewrite Hteams. vm_compute. reflexivity.
  - rewrite Hlen. vm_compute. reflexivity.
Defined.

(** ** More on the course *)

Section Course.
Import DataModel HoleProps.
Implicit Types (ha : gmap string (list Z)) (s : Store) (t h : Z).

Lemma invalidInput_false t h :
  invalidInput t h = false → t ≠ 0%Z ∧ validHole h.
Proof.
  unfold invalidInput, validHole.
  repeat (case_bool_decide; simpl); try done. intros _. lia.
Qed.

Lemma keysInv_empty : keysInv ∅.
Proof. intros k l. by rewrite lookup_empty. Qed.

Lemma keysInv_assign t h s :
  keysInv (holeAssignments s) → keysInv (holeAssignments (assignTeamToHole t h s).2).
Proof.
  intros Hinv.
  destruct (assignTeamToHole_cases t h s) as [[_ ->] | (_ & -> & Hvalid & _ & _)];
    [done|].
  apply invalidInput_false in Hvalid as [Ht Hh].
  intros k l. cbn [holeAssignments set_holeAssignments]. unfold place. cbn [fst snd].
  rewrite lookup_insert. case_decide as Hk; [|apply Hinv].
  intros [= <-]. split_and!.
  - by destruct (default [] _).
  - rewrite not_elem_of_app, list_elem_of_singleton. split; [|done].
    destruct (holeAssignments s !! JS.int_toString h) as [l|] eqn:E; cbn.
    + by destruct (Hinv _ _ E) as (_ & ? & _).
    + apply not_elem_of_nil.
  - exists h. by subst k.
Qed.

Lemma keysInv_remove t h s :
  keysInv (holeAssignments s) → keysInv (holeAssignments (removeTeamFromHole t h s).2).
Proof.
  intros Hinv. unfold removeTeamFromHole.
  destruct (invalidInput t h); [done|].
  destruct (holeAssignments s !! JS.int_toString h) as [ids|] eqn:Hids; [|done].
  case_bool_decide; [|done]. cbn [snd holeAssignments set_holeAssignments].
  intros k l. case_bool_decide as Hlen.
  - rewrite lookup_delete. case_decide; [done|]. apply Hinv.
  - rewrite lookup_insert. case_decide as Hk; [|apply Hinv].
    intros [= <-]. destruct (Hinv _ _ Hids) as (_ & Hz & Hh). split_and!.
    + intros E. by rewrite E in Hlen.
    + intros Hin. apply Hz. by apply list_elem_of_filter in Hin as [_ ?].
    + by subst k.
Qed.

Section Passes.
Variable P : gmap string (list Z) → Prop.
Hypothesis P_assign :
  ∀ t h s, P (holeAssignments s) → P (holeAssignments (assignTeamToHole t h s).2).

Lemma firstPass_preserves tta holes k s :
  P (holeAssignments s) → P (holeAssignments (firstPass tta holes k s).2).
Proof.
  revert k s. induction holes as [|h holes IH]; intros k s Hinv; simpl; [done|].
  destruct (tta !! k) as [team|]; [|done].
  pose proof (P_assign (id team) h s Hinv) as Hinv'.
  destruct (assignTeamToHole (id team) h s) as [r s']. by apply IH.
Qed.

Lemma secondPass_preserves tta holes k s :
  P (holeAssignments s) → P (holeAssignments (secondPass tta holes k s).2).
Proof.
  revert k s. induction holes as [|h holes IH]; intros k s Hinv; simpl; [done|].
  destruct (tta !! k) as [team|]; [|done].
  case_bool_decide; [|by apply IH].
  case_bool_decide; [|by apply IH].
  pose proof (P_assign (id team) h s Hinv) as Hinv'.
  destruct (assignTeamToHole (id team) h s) as [r s']. by apply IH.
Qed.

Lemma twoPasses_preserve tta s :
  P (holeAssignments s) → P (holeAssignments (assignInTwoPasses tta s)).
Proof.
  intros Hinv. unfold assignInTwoPasses.
  pose proof (firstPass_preserves tta holes1to18 0 s Hinv) as H1.
  destruct (firstPass tta holes1to18 0 s) as [k s1].
  by apply secondPass_preserves.
Qed.
End Passes.

Lemma reachable_keysInv s : Reach.reachable s → keysInv (holeAssignments s).
Proof.
  induction 1 as [|s s' _ IH Hstep]; [apply keysInv_empty|].
  destruct (step_holeAssignments _ _ Hstep)
    as [-> | [-> | [(t & h & ->) | [(t & h & ->) | [-> | (rnd & ->)]]]]].
  - done.
  - apply keysInv_empty.
  - by apply keysInv_assign.
  - by apply keysInv_remove.
  - apply (twoPasses_preserve keysInv keysInv_assign). apply keysInv_empty.
  - apply (twoPasses_preserve keysInv keysInv_assign). apply keysInv_empty.
Qed.

Lemma size_list_to_set_le (l : list Z) : size (list_to_set (C:=gset Z) l) ≤ length l.
Proof.
  induction l as [|x l IH]; cbn [list_to_set length].
  - by rewrite size_empty.
  - rewrite size_union_alt, size_singleton.
    pose proof (subseteq_size (list_to_set l ∖ {[x]}) (list_to_set (C:=gset Z) l)
                  (subseteq_difference_l _ _ _ (reflexivity _))).
    lia.
Qed.

Lemma bind_length_le {X Y} (f : X → list Y) (cap : X → nat) (l : list X) :
  (∀ x, length (f x) ≤ cap x) → length (l ≫= f) ≤ sum_list (cap <$> l).
Proof.
  intros Hcap. induction l as [|x l IH]; [done|].
  rewrite bind_cons, fmap_cons, length_app. specialize (Hcap x).
  change (sum_list (cap x :: (cap <$> l))) with (cap x + sum_list (cap <$> l)).
  lia.
Qed.

Lemma assigned_onCourse ha :
  keysInv ha → assignedIn ha ⊆ list_to_set (onCourse ha).
Proof.
  intros Hkeys x (k & l & Hl & Hx)%elem_of_assignedIn.
  destruct (Hkeys _ _ Hl) as (_ & _ & h & [Hlo Hhi] & ->).
  apply elem_of_list_to_set. unfold onCourse. apply list_elem_of_bind.
  exists h. rewrite Hl. split; [done|].
  unfold holes1to18. apply list_elem_of_fmap. exists (Z.to_nat h).
  split; [lia|]. apply elem_of_seq. lia.
Qed.

Lemma onCourse_length ha : holesInv ha → length (onCourse ha) ≤ 28.
Proof.
  intros Hinv.
  change 28 with (sum_list (maxTeamsOn <$> holes1to18)).
  apply bind_length_le. intros h.
  destruct (ha !! JS.int_toString h) as [l|] eqn:E; cbn.
  - rewrite <- capacityOfKey_hole. by eapply within_capacity.
  - unfold maxTeamsOn. case_bool_decide; lia.
Qed.

(** X1. In every state the application reaches, each key of the hole
    assignments is the decimal text of a hole from 1 to 18 and lists at
    least one team id, none of them 0 (a hole that loses its last team
    loses its key); so the teams on the course are never more than 28, the
    capacity of the 18 holes. *)
Theorem reachable_course s :
  Reach.reachable s →
  keysInv (holeAssignments s) ∧ size (getAssignedTeamIds s) ≤ 28.
Proof.
  intros Hreach. pose proof (reachable_keysInv s Hreach) as Hkeys.
  split; [done|].
  pose proof (subseteq_size _ _ (assigned_onCourse _ Hkeys)) as H1.
  pose proof (size_list_to_set_le (onCourse (holeAssignments s))) as H2.
  pose proof (onCourse_length _ (reachable_holesInv s Hreach)) as H3.
  unfold getAssignedTeamIds. unfold assignedIn in H1. lia.
Qed.

Lemma onlyHoles_same s s' : onlyHoles s s' → sameButHoles s s'.
Proof. by intros [ha ->]. Qed.

(** X2. Manual assignment and removal, [autoAssignTeams] and
    [randomizeTeamAssignments] leave the registry, the groups, the teams,
    the settings and the draft state as they were, whatever the outcome;
    and an assignment or removal that is refused changes nothing at all. *)
Theorem scheduler_frame s :
  (∀ teamId hole,
     sameButHoles s (assignTeamToHole teamId hole s).2 ∧
     (succeeded (assignTeamToHole teamId hole s).1 = false →
      (assignTeamToHole teamId hole s).2 = s)) ∧
  (∀ teamId hole,
     sameButHoles s (removeTeamFromHole teamId hole s).2 ∧
     (succeeded (removeTeamFromHole teamId hole s).1 = false →
      (removeTeamFromHole teamId hole s).2 = s)) ∧
  sameButHoles s (autoAssignTeams s).2 ∧
  (∀ rnd, sameButHoles s (randomizeTeamAssignments rnd s).2).
Proof.
  split_and!.
  - intros t h. split; [apply onlyHoles_same, assign_onlyHoles|].
    destruct (assignTeamToHole_cases t h s) as [[_ ->] | (-> & _)]; done.
  - intros t h. split; [apply onlyHoles_same, remove_onlyHoles|].
    unfold removeTeamFromHole. by repeat (case_match || case_bool_decide).
  - apply onlyHoles_same, autoAssign_onlyHoles.
  - intros rnd. apply onlyHoles_same, randomize_onlyHoles.
Qed.

(** X3. Taking a team off the hole it was just put on restores the
    store: when [assignTeamToHole] succeeds on a store that keeps no empty
    list under the key of the hole, [removeTeamFromHole] with the same
    arguments succeeds and gives back the store as it was before, the key
    of the hole deleted again if the team was alone on it. *)
Theorem assign_then_remove t h s :
  holeAssignments s !! JS.int_toString h ≠ Some [] →
  succeeded (assignTeamToHole t h s).1 = true →
  removeTeamFromHole t h (assignTeamToHole t h s).2 = (Success (), s).
Proof.
  intros Hne Hok.
  destruct (assignTeamToHole_cases t h s) as [[Hf _] | (_ & -> & Hvalid & Hfree & _)];
    [congruence|].
  unfold removeTeamFromHole. rewrite Hvalid.
  cbn [holeAssignments set_holeAssignments]. unfold place. cbn [fst snd].
  set (key := JS.int_toString h) in *. rewrite lookup_insert_eq.
  rewrite bool_decide_eq_true_2 by (apply elem_of_app; right; by left).
  assert (Hold : filter (λ i, i ≠ t) (default [] (holeAssignments s !! key) ++ [t])
                 = default [] (holeAssignments s !! key)).
  { rewrite filter_app, filter_cons, decide_False, filter_nil, app_nil_r
      by (intros H; by apply H).
    apply filter_all. intros x Hx ->. apply Hfree.
    destruct (holeAssignments s !! key) as [l|] eqn:E; cbn in Hx.
    - by exists key, l.
    - by apply elem_of_nil in Hx. }
  rewrite Hold. f_equal.
  destruct (holeAssignments s !! key) as [l|] eqn:E; cbn [default].
  - rewrite bool_decide_eq_false_2 by (destruct l; [done | cbn; lia]).
    rewrite insert_insert_eq, insert_id by done. by destruct s.
  - rewrite bool_decide_eq_true_2 by done.
    rewrite delete_insert_id by done. by destruct s.
Qed.

Lemma filter_ext_in {X} (P Q : X → Prop) `{!∀ x, Decision (P x)}
    `{!∀ x, Decision (Q x)} (l : list X) :
  (∀ x, x ∈ l → P x ↔ Q x) → filter P l = filter Q l.
Proof.
  induction l as [|x l IH]; intros HPQ; [done|].
  rewrite !filter_cons.
  rewrite IH by (intros y Hy; apply HPQ; by right).
  destruct (decide (P x)) as [HP|HP], (decide (Q x)) as [HQ|HQ]; try done.
  - by apply (HPQ x) in HP; [|left].
  - by apply (HPQ x) in HQ; [|left].
Qed.

Lemma filter_not_taken {X} (f : X → Z) (l : list X) n :
  NoDup (f <$> l) →
  filter (λ x, f x ∉ (list_to_set (take n (f <$> l)) : gset Z)) l = drop n l.
Proof.
  revert n. induction l as [|x l IH]; intros n Hnd.
  { by destruct n. }
  rewrite fmap_cons in Hnd. apply NoDup_cons in Hnd as [Hx Hnd].
  destruct n as [|n].
  - cbn [take drop list_to_set]. apply filter_all. intros y _. set_solver.
  - rewrite fmap_cons. cbn [take drop list_to_set].
    rewrite filter_cons, decide_False by set_solver.
    rewrite <- (IH n Hnd). apply filter_ext_in. intros y Hy.
    assert (f y ≠ f x).
    { intros E. apply Hx. rewrite <- E. by apply list_elem_of_fmap_2. }
    rewrite not_elem_of_union, elem_of_singleton. tauto.
Qed.

(** X4. On a store the application reaches, the teams that
    [getUnassignedTeams] reports after [autoAssignTeams] are exactly the
    teams after the 28th of the team list, in order: none when there are at
    most 28 teams.  After [randomizeTeamAssignments] they are the teams the
    shuffle put after the 28th place. *)
Theorem unassigned_after_assignment s :
  Reach.reachable s →
  getUnassignedTeamsInternal (autoAssignTeams s).2 = drop 28 (teams s) ∧
  (length (teams s) ≤ 28 → getUnassignedTeamsInternal (autoAssignTeams s).2 = []) ∧
  (∀ rnd, getUnassignedTeamsInternal (randomizeTeamAssignments rnd s).2
          ≡ₚ drop 28 (shuffle rnd (teams s))).
Proof.
  intros Hreach.
  pose proof (reachable_teams_numbered s Hreach) as Hnum.
  pose proof (numbered_NoDup _ Hnum) as Hnd.
  pose proof (numbered_nonzero _ Hnum) as Hnz.
  assert (Hauto : getUnassignedTeamsInternal (autoAssignTeams s).2 = drop 28 (teams s)).
  { rewrite autoAssign_spec by done. unfold getUnassignedTeamsInternal.
    cbn [snd teams set_holeAssignments].
    change (getAssignedTeamIds (set_holeAssignments ?ha s)) with (assignedIn ha).
    rewrite assignedIn_twoPassSpec. by apply filter_not_taken. }
  split_and!.
  - done.
  - intros Hle. rewrite Hauto. by apply drop_ge.
  - intros rnd. rewrite randomize_spec by done. unfold getUnassignedTeamsInternal.
    cbn [snd teams set_holeAssignments].
    change (getAssignedTeamIds (set_holeAssignments ?ha s)) with (assignedIn ha).
    rewrite assignedIn_twoPassSpec.
    rewrite <- (filter_not_taken id (shuffle rnd (teams s)) 28)
      by by rewrite shuffle_Permutation.
    apply filter_Permutation. symmetry. apply shuffle_Permutation.
Qed.

End Course.

Lemma assign_then_remove_witness :
  DataModel.removeTeamFromHole 1 3
    (DataModel.assignTeamToHole 1 3 DataModel.initialStore).2
  = (DataModel.Success (), DataModel.initialStore).
Proof.
  apply (assign_then_remove 1 3 DataModel.initialStore).
  - vm_compute. discriminate.
  - vm_compute. reflexivity.
Defined.

Lemma unassigned_after_assignment_witness :
  DataModel.getUnassignedTeamsInternal (DataModel.autoAssignTeams Samples.twoTeams).2
  = [].
Proof.
  destruct (unassigned_after_assignment Samples.twoTeams reachable_twoTeams)
    as (_ & Hnone & _).
  apply Hnone. vm_compute. lia.
Defined.

Lemma reachable_course_witness :
  size (DataModel.getAssignedTeamIds (DataModel.autoAssignTeams Samples.twoTeams).2) ≤ 28.
Proof.
  apply (reachable_course (DataModel.autoAssignTeams Samples.twoTeams).2).
  eapply Reach.reach_step; [apply reachable_twoTeams | apply Reach.step_autoAssign].
Defined.

(** ** Forming teams *)

Section Teams.
Import DataModel DraftProps TeamProps HoleProps AppController.
Implicit Types (s : Store) (st : DraftState) (g : GroupLetter) (gs : Groups).

Lemma canFormTeam_smallest s : canFormTeam s = true ↔ 0 < smallestGroup (groups s).
Proof.
  unfold canFormTeam, smallestGroup.
  rewrite !andb_true_iff, !bool_decide_eq_true. lia.
Qed.

(** X5. The three guards on team formation agree: [canFormTeam] holds
    exactly when the smallest group has a player, and that is exactly when
    [selectTeam] succeeds, whatever the random numbers, and when
    [initializeInteractiveDraft] succeeds. *)
Theorem guards_agree s :
  (canFormTeam s = true ↔ 0 < smallestGroup (groups s)) ∧
  (∀ uA uB uC uD, succeeded (selectTeam uA uB uC uD s).1 = canFormTeam s) ∧
  succeeded (initializeInteractiveDraft s).1 = canFormTeam s.
Proof.
  split_and!.
  - apply canFormTeam_smallest.
  - intros uA uB uC uD. unfold selectTeam. by destruct (canFormTeam s).
  - unfold initializeInteractiveDraft. cbn zeta.
    case_bool_decide as Hn; cbn [fst succeeded]; symmetry.
    + destruct (canFormTeam s) eqn:E; [|done].
      apply canFormTeam_smallest in E. unfold smallestGroup in E. lia.
    + apply canFormTeam_smallest. unfold smallestGroup. lia.
Qed.

Lemma calculateTeamHandicap_four a b c d :
  (calculateTeamHandicap [Some a; Some b; Some c; Some d]
   == getNumericHandicap a + getNumericHandicap b
      + getNumericHandicap c + getNumericHandicap d)%Q.
Proof. unfold calculateTeamHandicap. cbn [foldl]. ring. Qed.

Lemma wellFormed_four n a b c d :
  wellFormedTeam
    (mkTeam n [Some a; Some b; Some c; Some d]
       (calculateTeamHandicap [Some a; Some b; Some c; Some d])).
Proof.
  exists a, b, c, d. split_and!; [done..|]. apply calculateTeamHandicap_four.
Qed.

Lemma selectTeam_ok uA uB uC uD s :
  canFormTeam s = true →
  ∃ a b c d,
    let iA := JS.random_index uA (length (A (groups s))) in
    let iB := JS.random_index uB (length (B (groups s))) in
    let iC := JS.random_index uC (length (C (groups s))) in
    let iD := JS.random_index uD (length (D (groups s))) in
    let team :=
      mkTeam (Z.of_nat (length (teams s)) + 1) [Some a; Some b; Some c; Some d]
        (calculateTeamHandicap [Some a; Some b; Some c; Some d]) in
    A (groups s) !! iA = Some a ∧ B (groups s) !! iB = Some b ∧
    C (groups s) !! iC = Some c ∧ D (groups s) !! iD = Some d ∧
    selectTeam uA uB uC uD s
    = (Success team,
       set_groups (mkGroups (delete iA (A (groups s))) (delete iB (B (groups s)))
                     (delete iC (C (groups s))) (delete iD (D (groups s))))
         (set_teams (teams s ++ [team]) s)).
Proof.
  intros Hcan. unfold selectTeam. rewrite Hcan. cbn [negb].
  unfold canFormTeam in Hcan.
  rewrite !andb_true_iff, !bool_decide_eq_true in Hcan.
  destruct Hcan as (((HA & HB) & HC) & HD).
  destruct (lookup_lt_is_Some_2 _ _ (random_index_lt uA _ HA)) as [a Ha].
  destruct (lookup_lt_is_Some_2 _ _ (random_index_lt uB _ HB)) as [b Hb].
  destruct (lookup_lt_is_Some_2 _ _ (random_index_lt uC _ HC)) as [c Hc].
  destruct (lookup_lt_is_Some_2 _ _ (random_index_lt uD _ HD)) as [d Hd].
  exists a, b, c, d. cbn zeta. rewrite Ha, Hb, Hc, Hd. done.
Qed.

(** X6. When a team can be formed, [selectTeam] succeeds: the new team
    gets the id teamCount + 1 and is appended to the team list; its members
    are, in the order A, B, C, D, the players at the indices
    floor(random * length) of the four groups; its total is the sum of
    their effective handicaps; each group loses exactly that one player, so
    it is the new group with the player put back; the registry, the
    assignments and the draft state are untouched. *)
Theorem selectTeam_draws_one uA uB uC uD s :
  canFormTeam s = true →
  ∃ team s' a b c d,
    selectTeam uA uB uC uD s = (Success team, s') ∧
    id team = (Z.of_nat (length (teams s)) + 1)%Z ∧
    teams s' = teams s ++ [team] ∧
    members team = [Some a; Some b; Some c; Some d] ∧
    A (groups s) !! JS.random_index uA (length (A (groups s))) = Some a ∧
    B (groups s) !! JS.random_index uB (length (B (groups s))) = Some b ∧
    C (groups s) !! JS.random_index uC (length (C (groups s))) = Some c ∧
    D (groups s) !! JS.random_index uD (length (D (groups s))) = Some d ∧
    wellFormedTeam team ∧
    A (groups s) ≡ₚ a :: A (groups s') ∧ B (groups s) ≡ₚ b :: B (groups s') ∧
    C (groups s) ≡ₚ c :: C (groups s') ∧ D (groups s) ≡ₚ d :: D (groups s') ∧
    players s' = players s ∧ holeAssignments s' = holeAssignments s ∧
    interactiveDraftState s' = interactiveDraftState s.
Proof.
  intros Hcan.
  destruct (selectTeam_ok uA uB uC uD s Hcan)
    as (a & b & c & d & Ha & Hb & Hc & Hd & Heq).
  eexists _, _, a, b, c, d. split; [exact Heq|].
  cbn [id teams members groups set_groups set_teams A B C D players holeAssignments
       interactiveDraftState].
  split_and!; try done.
  - apply wellFormed_four.
  - by apply delete_Permutation.
  - by apply delete_Permutation.
  - by apply delete_Permutation.
  - by apply delete_Permutation.
Qed.

Lemma selectTeam_sizes uA uB uC uD s :
  canFormTeam s = true →
  let s' := (selectTeam uA uB uC uD s).2 in
  succeeded (selectTeam uA uB uC uD s).1 = true ∧
  length (teams s') = S (length (teams s)) ∧
  (∀ g, S (length (get_group g (groups s'))) = length (get_group g (groups s))) ∧
  S (smallestGroup (groups s')) = smallestGroup (groups s).
Proof.
  intros Hcan.
  destruct (selectTeam_ok uA uB uC uD s Hcan)
    as (a & b & c & d & Ha & Hb & Hc & Hd & Heq).
  rewrite Heq. cbn [fst snd succeeded teams groups set_groups set_teams].
  apply lookup_lt_Some in Ha, Hb, Hc, Hd.
  assert (Hg : ∀ g, S (length (get_group g
                 (mkGroups (delete (JS.random_index uA (length (A (groups s)))) (A (groups s)))
                    (delete (JS.random_index uB (length (B (groups s)))) (B (groups s)))
                    (delete (JS.random_index uC (length (C (groups s)))) (C (groups s)))
                    (delete (JS.random_index uD (length (D (groups s)))) (D (groups s))))))
               = length (get_group g (groups s))).
  { intros g. destruct g; cbn [get_group A B C D]; rewrite length_delete by
      (by apply lookup_lt_is_Some_2); lia. }
  split_and!; [done | rewrite length_app; cbn; lia | exact Hg |].
  pose proof (Hg gA) as HgA. pose proof (Hg gB) as HgB.
  pose proof (Hg gC) as HgC. pose proof (Hg gD) as HgD.
  unfold smallestGroup. cbn [get_group A B C D] in *. lia.
Qed.

Lemma selectAll_run rnd : ∀ n fuel c s,
  smallestGroup (groups s) = n → n < fuel →
  ∃ s', selectAllTeams rnd fuel c s = Some (c + n, s') ∧
        canFormTeam s' = false ∧
        length (teams s') = length (teams s) + n ∧
        ∀ g, length (get_group g (groups s')) + n = length (get_group g (groups s)).
Proof.
  induction n as [|n IH]; intros fuel c s Hn Hfuel;
    (destruct fuel as [|fuel]; [lia|]); cbn [selectAllTeams].
  - assert (Hcan : canFormTeam s = false).
    { destruct (canFormTeam s) eqn:E; [|done].
      apply canFormTeam_smallest in E. lia. }
    rewrite Hcan. exists s. rewrite !Nat.add_0_r.
    split_and!; (done || (intros g; lia)).
  - assert (Hcan : canFormTeam s = true) by (apply canFormTeam_smallest; lia).
    rewrite Hcan.
    destruct (selectTeam_sizes (rnd (4 * c)) (rnd (4 * c + 1)) (rnd (4 * c + 2))
                (rnd (4 * c + 3)) s Hcan) as (Hok & Hteams & Hg & Hsmall).
    destruct (selectTeam _ _ _ _ s) as [result s1]. cbn [fst snd] in *.
    rewrite Hok.
    destruct (IH fuel (S c) s1) as (s' & Hrun & Hend & Hlen & Hgs); [lia..|].
    exists s'. split_and!.
    + rewrite Hrun. do 2 f_equal. lia.
    + done.
    + lia.
    + intros g. specialize (Hg g). specialize (Hgs g). lia.
Qed.

Lemma selectAll_short rnd : ∀ fuel c s,
  fuel ≤ smallestGroup (groups s) → selectAllTeams rnd fuel c s = None.
Proof.
  induction fuel as [|fuel IH]; intros c s Hfuel; [done|].
  cbn [selectAllTeams].
  assert (Hcan : canFormTeam s = true) by (apply canFormTeam_smallest; lia).
  rewrite Hcan.
  destruct (selectTeam_sizes (rnd (4 * c)) (rnd (4 * c + 1)) (rnd (4 * c + 2))
              (rnd (4 * c + 3)) s Hcan) as (Hok & _ & _ & Hsmall).
  destruct (selectTeam _ _ _ _ s) as [result s1]. cbn [fst snd] in *.
  rewrite Hok. apply IH. lia.
Qed.

(** X7. The loop of "select all teams" comes to its end: with n the
    size of the smallest group it forms exactly n teams, testing its
    condition n + 1 times, whatever the random numbers; afterwards no
    further team can be formed, the team list is n teams longer and every
    group n players shorter. *)
Theorem selectAll_forms_all rnd fuel s :
  let n := smallestGroup (groups s) in
  (fuel ≤ n → selectAllTeams rnd fuel 0 s = None) ∧
  (n < fuel →
   ∃ s', selectAllTeams rnd fuel 0 s = Some (n, s') ∧
         canFormTeam s' = false ∧
         length (teams s') = length (teams s) + n ∧
         ∀ g, length (get_group g (groups s')) + n = length (get_group g (groups s))).
Proof.
  intros n. split.
  - apply selectAll_short.
  - intros Hfuel. by apply (selectAll_run rnd n fuel 0 s).
Qed.

Lemma numberedFrom_cons n team ts :
  numberedFrom n (team :: ts) →
  id team = (Z.of_nat n + 1)%Z ∧ numberedFrom (S n) ts.
Proof.
  unfold numberedFrom. cbn [fmap list_fmap length seq].
  replace (n + 1) with (S n) by lia. cbn [seq fmap list_fmap].
  intros [= Hid Hts]. split; [lia|].
  rewrite Hts. by replace (S n + 1) with (S (S n)) by lia.
Qed.

Lemma find_numbered ts : ∀ n i t,
  numberedFrom n ts → ts !! i = Some t →
  id t = (Z.of_nat (n + i) + 1)%Z ∧
  List.find (λ team, bool_decide (id team = Z.of_nat (n + i) + 1)%Z) ts = Some t.
Proof.
  induction ts as [|t0 ts IH]; intros n i t Hnum Hi; [done|].
  apply numberedFrom_cons in Hnum as [Hid Hnum].
  destruct i as [|i]; cbn in Hi.
  - injection Hi as ->. rewrite Nat.add_0_r. split; [done|].
    cbn [List.find]. by rewrite bool_decide_eq_true_2.
  - destruct (IH (S n) i t Hnum Hi) as [Ht Hfind].
    replace (n + S i) with (S n + i) by lia. split; [done|].
    cbn [List.find]. rewrite bool_decide_eq_false_2 by lia. done.
Qed.

Lemma find_outside ts : ∀ n x,
  numberedFrom n ts → (x ≤ Z.of_nat n ∨ Z.of_nat (n + length ts) < x)%Z →
  List.find (λ team, bool_decide (id team = x)) ts = None.
Proof.
  induction ts as [|t0 ts IH]; intros n x Hnum Hx; [done|].
  apply numberedFrom_cons in Hnum as [Hid Hnum].
  cbn [List.find length] in *. rewrite bool_decide_eq_false_2 by lia.
  apply (IH (S n)); [done|]. lia.
Qed.

(** X8. In every state the application reaches the teams are numbered
    1, 2, 3, ... in the order of the team list, so [findTeamById] with the
    id i + 1 finds the team at index i, and with any id below 1 or above
    the team count it finds nothing. *)
Theorem teams_numbered s :
  Reach.reachable s →
  (∀ i t, teams s !! i = Some t →
     id t = (Z.of_nat i + 1)%Z ∧ findTeamById (Z.of_nat i + 1) s = Some t) ∧
  (∀ x, (x < 1 ∨ Z.of_nat (length (teams s)) < x)%Z → findTeamById x s = None).
Proof.
  intros Hreach. pose proof (reachable_teams_numbered s Hreach) as Hnum. split.
  - intros i t Hi. apply (find_numbered _ 0 i t Hnum Hi).
  - intros x Hx. apply (find_outside _ 0 x Hnum). cbn. lia.
Qed.

End Teams.

Lemma selectTeam_draws_one_witness :
  ∃ team s',
    DataModel.selectTeam Samples.u0 Samples.u0 Samples.u0 Samples.u0 Samples.fourGrouped
    = (DataModel.Success team, s') ∧
    DataModel.id team = 1%Z.
Proof.
  destruct (selectTeam_draws_one Samples.u0 Samples.u0 Samples.u0 Samples.u0
              Samples.fourGrouped)
    as (team & s' & a & b & c & d & Heq & Hid & _).
  { vm_compute. reflexivity. }
  exists team, s'. split; [exact Heq|]. rewrite Hid. vm_compute. reflexivity.
Defined.

Lemma selectAll_forms_all_witness :
  ∃ s', AppController.selectAllTeams (λ _, Samples.u0) 3 0 Samples.eightGrouped
        = Some (2, s') ∧
        DataModel.canFormTeam s' = false.
Proof.
  destruct (selectAll_forms_all (λ _, Samples.u0) 3 Samples.eightGrouped) as [_ Hrun].
  destruct Hrun as (s' & Hrun & Hend & _).
  { vm_compute. lia. }
  exists s'. split; [|exact Hend].
  rewrite Hrun. do 2 f_equal.
Defined.

Lemma teams_numbered_witness :
  DataModel.findTeamById 3 Samples.twoTeams = None.
Proof.
  apply (proj2 (teams_numbered Samples.twoTeams reachable_twoTeams)).
  change (Z.of_nat (length (DataModel.teams Samples.twoTeams))) with 2%Z.
  lia.
Defined.

(** ** The identity of the player objects *)

Section Identity.
Import DataModel DraftProps TeamProps HoleProps AppController.
Implicit Types (s : Store) (gs : Groups).

Lemma identity_same s s' :
  players s' = players s → nextRef s' = nextRef s → groups s' = groups s →
  identityInv s → identityInv s'.
Proof. intros Hp Hn Hg [H1 H2 H3]. split; by rewrite ?Hp, ?Hn, ?Hg. Qed.

Lemma identity_groups gs' s s' :
  players s' = players s → nextRef s' = nextRef s → groups s' = gs' →
  distinctGrouped gs' → identityInv s → identityInv s'.
Proof. intros Hp Hn Hg Hd [H1 H2 H3]. split; by rewrite ?Hp, ?Hn, ?Hg. Qed.

Lemma distinct_empty : distinctGrouped emptyGroups.
Proof. apply NoDup_nil_2. Qed.

Lemma distinct_sub gs gs' :
  allGrouped gs' `sublist_of` allGrouped gs → distinctGrouped gs → distinctGrouped gs'.
Proof.
  unfold distinctGrouped. intros Hsub Hnd.
  eapply sublist_NoDup; [exact Hnd|]. by apply fmap_sublist.
Qed.

Lemma identity_extend new s :
  ref <$> new = seq (nextRef s) (length new) →
  identityInv s →
  NoDup (ref <$> (players s ++ new)) ∧
  Forall (λ p, ref p < nextRef s + length new) (players s ++ new).
Proof.
  intros Hnew [Hnd Hlt _]. split.
  - rewrite fmap_app, Hnew. apply NoDup_app. split_and!; [done| |apply NoDup_seq].
    intros x (p & -> & Hp)%list_elem_of_fmap [Hx _]%elem_of_seq.
    rewrite Forall_forall in Hlt. specialize (Hlt p Hp). lia.
  - apply Forall_app. split.
    + eapply Forall_impl; [exact Hlt|]. cbn. intros. lia.
    + apply Forall_forall. intros p Hp.
      apply (list_elem_of_fmap_2 ref) in Hp. rewrite Hnew in Hp.
      apply elem_of_seq in Hp. lia.
Qed.

Lemma finalizeOne_distinct m ft gs td :
  distinctGrouped gs → distinctGrouped (finalizeOne m (ft, gs) td).2.
Proof.
  intros Hd. unfold finalizeOne. case_match; [|done].
  cbn [snd members]. rewrite removeAll_filter by done. by apply distinct_filter.
Qed.

Lemma finalize_fold_distinct m tds : ∀ ft gs,
  distinctGrouped gs → distinctGrouped (foldl (finalizeOne m) (ft, gs) tds).2.
Proof.
  induction tds as [|td tds IH]; intros ft gs Hd; [done|].
  cbn [foldl]. pose proof (finalizeOne_distinct m ft gs td Hd) as Hd'.
  destruct (finalizeOne m (ft, gs) td) as [ft' gs']. by apply IH.
Qed.

Lemma step_identity s s' :
  Reach.step s s' → identityInv s → identityInv s'.
Proof.
  intros Hstep Hinv. destruct Hstep.
  - split; cbn; [apply NoDup_nil_2 | done | apply distinct_empty].
  - destruct (addPlayer nts nameInput handicapInput s) as [[p|ne he] s1] eqn:E;
      cbn [snd].
    + apply addPlayer_added in E as (_ & _ & Hp & ->).
      destruct (identity_extend [p] s) as [Hnd Hlt]; [by rewrite Hp|done|].
      split; cbn [players nextRef groups set_nextRef set_players].
      * done.
      * eapply Forall_impl; [exact Hlt|]. cbn. intros. lia.
      * apply Hinv.
    + unfold addPlayer in E. by repeat case_match; simplify_eq.
  - unfold removePlayer. case_match; [|done]. cbn [snd].
    destruct Hinv as [Hnd Hlt Hg].
    split; cbn [players nextRef groups set_draft set_players]; [| |done].
    + eapply sublist_NoDup; [exact Hnd|]. apply fmap_sublist, sublist_delete.
    + by apply Forall_delete.
  - unfold processCSVHandler.
    destruct (processCSV_spec nts (nextRef s) csv) as (_ & Hrefs & _).
    cbn [store isGrouped].
    destruct (processCSV nts (nextRef s) csv) as [imported errors].
    cbn [fst snd] in Hrefs. case_bool_decide; [done|].
    destruct (identity_extend imported s Hrefs Hinv) as [Hnd Hlt].
    destruct grouped; cbn [store]; split;
      cbn [players nextRef groups set_nextRef set_players set_teams set_groups];
      try done; [apply distinct_empty | apply Hinv].
  - destruct (decide (length (players s) < 4)) as [Hfew|Hn].
    + by rewrite (groupPlayers_few s Hfew).
    + rewrite (groupPlayers_enough s) by lia. cbn [snd].
      eapply (identity_groups _ s); [done | done | reflexivity | | exact Hinv].
      cbn [groups set_draft set_groups].
      unfold distinctGrouped, allGrouped. cbn [A B C D].
      rewrite slices_concat, sort_Permutation. apply Hinv.
  - destruct (canFormTeam s) eqn:Hcan.
    + destruct (selectTeam_ok uA uB uC uD s Hcan) as (a & b & c & d & _ & _ & _ & _ & ->).
      cbn [snd]. eapply (identity_groups _ s); [done | done | reflexivity | | exact Hinv].
      cbn [groups set_groups]. eapply distinct_sub; [|apply Hinv].
      unfold allGrouped. cbn [A B C D].
      repeat apply sublist_app; apply sublist_delete.
    + unfold selectTeam. by rewrite Hcan.
  - apply (identity_same s); [..|exact Hinv];
      unfold initializeInteractiveDraft; by case_bool_decide.
  - apply (identity_same s); [..|exact Hinv];
      unfold makeInteractiveDraftPick; by repeat (case_match || case_bool_decide).
  - unfold finalizeDraftedTeams.
    destruct (interactiveDraftState s) as [state|]; [|done].
    case_bool_decide; [done|].
    pose proof (finalize_fold_distinct (length (teams s)) (draftedTeamsData state)
                  [] (groups s) (groups_distinct _ Hinv)) as Hd.
    destruct (foldl _ _ _) as [finalTeams gs]. cbn [snd] in *.
    eapply (identity_groups _ s); [done | done | reflexivity | exact Hd | exact Hinv].
  - destruct (assign_onlyHoles teamId hole s) as [ha ->].
    by apply (identity_same s).
  - destruct (remove_onlyHoles teamId hole s) as [ha ->].
    by apply (identity_same s).
  - destruct (autoAssign_onlyHoles s) as [ha ->]. by apply (identity_same s).
  - destruct (randomize_onlyHoles rnd s) as [ha ->]. by apply (identity_same s).
  - eapply (identity_groups _ s); [done | done | reflexivity | apply distinct_empty | exact Hinv].
  - by apply (identity_same s).
  - by apply (identity_same s).
  - by apply (identity_same s).
Qed.

(** X9. In every state the application reaches no player object occurs
    twice in the registry and none occurs twice in the groups A, B, C, D
    taken together: a player is in at most one group, at one position.  So
    the removal by identity that ends a draft takes out exactly the drafted
    players. *)
Theorem reachable_identity s :
  Reach.reachable s →
  NoDup (ref <$> players s) ∧
  NoDup (ref <$> (A (groups s) ++ B (groups s) ++ C (groups s) ++ D (groups s))) ∧
  identityInv s.
Proof.
  intros Hreach.
  assert (Hinv : identityInv s).
  { induction Hreach as [|s s' _ IH Hstep].
    - split; cbn; [apply NoDup_nil_2 | done | apply distinct_empty].
    - by eapply step_identity. }
  split_and!; [apply Hinv | apply Hinv | done].
Qed.

End Identity.

Lemma reachable_identity_witness :
  DraftProps.distinctGrouped (DataModel.groups Samples.eightGrouped).
Proof.
  apply (reachable_identity Samples.eightGrouped reachable_eightGrouped).
Defined.

(** ** The shape of teams and drafts *)

Section Shape.
Import DataModel DraftProps TeamProps HoleProps AppController.
Implicit Types (s : Store) (st : DraftState) (gs : Groups).

(** A pick either leaves the store alone and reports no success, or finds
    a draft with a round to play, a pool that is not empty and a team to
    pick for. *)
Lemma pick_cases u s :
  ((makeInteractiveDraftPick u s).2 = s ∧
   ∀ pick, (makeInteractiveDraftPick u s).1 ≠ Returned (Success pick)) ∨
  ∃ st g td,
    interactiveDraftState s = Some st ∧
    draftOrder st !! currentRoundIndex st = Some g ∧
    get_group g (availableGroups st) ≠ [] ∧
    draftedTeamsData st !! currentTeamIndex st = Some td.
Proof.
  unfold makeInteractiveDraftPick.
  destruct (interactiveDraftState s) as [st|] eqn:Hst; [|by left].
  destruct (draftOrder st !! currentRoundIndex st) as [g|] eqn:Hg; [|by left].
  case_bool_decide as Hpool; [by left|].
  destruct (draftedTeamsData st !! currentTeamIndex st) as [td|] eqn:Htd; [|by left].
  right. exists st, g, td. split_and!; try done.
  intros E. by rewrite E in Hpool.
Qed.

Lemma sameButDraft_refl s : sameButDraft s s.
Proof. unfold sameButDraft. by destruct s. Qed.

Lemma pick_frame u s : sameButDraft s (makeInteractiveDraftPick u s).2.
Proof.
  destruct (pick_cases u s) as [[-> _] | (st & g & td & Hst & Hg & Hpool & Htd)].
  - apply sameButDraft_refl.
  - destruct (pick_succeeds u s st g td Hst Hg Hpool Htd) as (chosen & st' & _ & -> & _).
    done.
Qed.

Lemma sameButDraft_trans s1 s2 s3 :
  sameButDraft s1 s2 → sameButDraft s2 s3 → sameButDraft s1 s3.
Proof. unfold sameButDraft. intros -> ->. done. Qed.

Lemma picks_frame us : ∀ s, sameButDraft s (picksFrom us s).
Proof.
  induction us as [|u us IH]; intros s; [apply sameButDraft_refl|].
  unfold picksFrom. cbn [foldl].
  eapply sameButDraft_trans; [apply (pick_frame u)|apply IH].
Qed.

(** X10. Starting a draft and picking touch nothing but the draft
    state: after [initializeInteractiveDraft], after
    [makeInteractiveDraftPick] and after any run of picks the registry, the
    live groups, the teams, the assignments and the settings are as before
    (the picks draw from the copies of the groups made at the start); and a
    start or a pick that reports no success changes nothing at all. *)
Theorem draft_frame s :
  (sameButDraft s (initializeInteractiveDraft s).2 ∧
   (succeeded (initializeInteractiveDraft s).1 = false →
    (initializeInteractiveDraft s).2 = s)) ∧
  (∀ u, sameButDraft s (makeInteractiveDraftPick u s).2 ∧
        ((∀ pick, (makeInteractiveDraftPick u s).1 ≠ Returned (Success pick)) →
         (makeInteractiveDraftPick u s).2 = s)) ∧
  (∀ us, sameButDraft s (picksFrom us s) ∧
         groups (picksFrom us s) = groups s ∧ teams (picksFrom us s) = teams s ∧
         players (picksFrom us s) = players s).
Proof.
  split_and!.
  - unfold initializeInteractiveDraft. case_bool_decide; [apply sameButDraft_refl|].
    done.
  - unfold initializeInteractiveDraft. by case_bool_decide.
  - intros u. split; [apply pick_frame|].
    destruct (pick_cases u s) as [[-> _] | (st & g & td & Hst & Hg & Hpool & Htd)];
      [done|].
    destruct (pick_succeeds u s st g td Hst Hg Hpool Htd) as (chosen & st' & _ & -> & _).
    intros Hno. by destruct (Hno _ eq_refl).
  - intros us. pose proof (picks_frame us s) as Hframe.
    split; [done|]. by rewrite Hframe.
Qed.

Lemma array_set_length {X} i (x : X) arr :
  i < length arr → length (JS.array_set i x arr) = length arr.
Proof.
  intros Hi. unfold JS.array_set. rewrite decide_True by done.
  by rewrite length_insert.
Qed.

Lemma pick_shape u s :
  draftShape (interactiveDraftState s) →
  draftShape (interactiveDraftState (makeInteractiveDraftPick u s).2).
Proof.
  intros Hshape.
  destruct (pick_cases u s) as [[-> _] | (st & g & td & Hst & Hg & Hpool & Htd)];
    [done|].
  destruct (pick_succeeds u s st g td Hst Hg Hpool Htd)
    as (chosen & st' & _ & -> & _ & Hord & _ & _ & _ & _ & _ & Htds).
  destruct (Hshape st Hst) as [Horder Hslots].
  intros st'' [= <-]. rewrite Hord, Htds. split; [done|].
  apply Forall_insert; [done|]. cbn [draft_members].
  rewrite Horder in Hg |- *. apply lookup_lt_Some in Hg. cbn [length] in *.
  rewrite Forall_lookup in Hslots. specialize (Hslots _ _ Htd). cbn in Hslots.
  rewrite array_set_length; [done|lia].
Qed.

Lemma initialize_shape s :
  draftShape (interactiveDraftState s) →
  draftShape (interactiveDraftState (initializeInteractiveDraft s).2).
Proof.
  intros Hshape. unfold initializeInteractiveDraft.
  case_bool_decide; [done|]. cbn [snd interactiveDraftState set_draft].
  intros st [= <-].
  assert (Hrep : ∀ n, Forall (λ td, length (draft_members td) = 4)
                   (replicate n (mkDrafted [None; None; None; None] 0%Q))).
  { intros n. by apply Forall_replicate. }
  repeat (case_match || case_bool_decide); cbn; split; done.
Qed.

Lemma finalizeOne_wf m ft gs td :
  Forall wellFormedTeam ft → length (draft_members td) = 4 →
  Forall wellFormedTeam (finalizeOne m (ft, gs) td).1.
Proof.
  intros Hft Hlen. unfold finalizeOne.
  destruct (forallb _ _) eqn:Hall; [|done]. cbn [fst].
  apply Forall_app. split; [done|]. apply Forall_singleton.
  destruct (draft_members td) as [|[a|] [|[b|] [|[c|] [|[d|] [|]]]]]; try done.
  apply wellFormed_four.
Qed.

Lemma finalize_fold_wf m tds : ∀ ft gs,
  Forall wellFormedTeam ft →
  Forall (λ td, length (draft_members td) = 4) tds →
  Forall wellFormedTeam (foldl (finalizeOne m) (ft, gs) tds).1.
Proof.
  induction tds as [|td tds IH]; intros ft gs Hft Hlen; [done|].
  apply Forall_cons in Hlen as [Htd Hlen]. cbn [foldl].
  pose proof (finalizeOne_wf m ft gs td Hft Htd) as Hft'.
  destruct (finalizeOne m (ft, gs) td) as [ft' gs']. by apply IH.
Qed.

Lemma step_shape s s' :
  Reach.step s s' →
  Forall wellFormedTeam (teams s) ∧ draftShape (interactiveDraftState s) →
  Forall wellFormedTeam (teams s') ∧ draftShape (interactiveDraftState s').
Proof.
  intros Hstep [Hwf Hshape]. destruct Hstep.
  - split; [constructor|done].
  - unfold addPlayer. by repeat case_match.
  - unfold removePlayer. by case_match.
  - unfold processCSVHandler. cbn [store isGrouped].
    repeat (case_match || case_bool_decide);
      first [done | split; [constructor|done]].
  - unfold groupPlayers. by case_bool_decide.
  - destruct (canFormTeam s) eqn:Hcan.
    + destruct (selectTeam_ok uA uB uC uD s Hcan) as (a & b & c & d & _ & _ & _ & _ & ->).
      split; [|done]. cbn [snd teams set_groups set_teams].
      apply Forall_app. split; [done|]. apply Forall_singleton, wellFormed_four.
    + unfold selectTeam. by rewrite Hcan.
  - split; [|by apply initialize_shape].
    unfold initializeInteractiveDraft. by case_bool_decide.
  - split; [|by apply pick_shape].
    by rewrite (pick_frame u s).
  - unfold finalizeDraftedTeams.
    destruct (interactiveDraftState s) as [state|] eqn:Hst;
      [|cbn [snd]; by rewrite Hst].
    case_bool_decide; [cbn [snd]; by rewrite Hst|].
    pose proof (finalize_fold_wf (length (teams s)) (draftedTeamsData state)
                  [] (groups s) (Forall_nil_2 _) (proj2 (Hshape state eq_refl))) as Hn.
    destruct (foldl _ _ _) as [finalTeams gs]. cbn [fst snd] in *.
    split; [|done]. cbn [teams set_draft set_teams set_groups].
    apply Forall_app. done.
  - by destruct (assign_onlyHoles teamId hole s) as [ha ->].
  - by destruct (remove_onlyHoles teamId hole s) as [ha ->].
  - by destruct (autoAssign_onlyHoles s) as [ha ->].
  - by destruct (randomize_onlyHoles rnd s) as [ha ->].
  - done.
  - split; [constructor|done].
  - done.
  - done.
Qed.

(** X11. In every state the application reaches each team has exactly
    four members, none of the slots empty, and its [totalHandicap] is the
    value [calculateTeamHandicap] gives for them, the sum of the four
    effective handicaps; and a draft in progress has the round order D, C,
    B, A and four slots in every team it builds. *)
Theorem teams_well_formed s :
  Reach.reachable s →
  Forall wellFormedTeam (teams s) ∧ draftShape (interactiveDraftState s).
Proof.
  induction 1 as [|s s' _ IH Hstep]; [by split|]. by eapply step_shape.
Qed.

End Shape.

Lemma teams_well_formed_witness :
  Forall TeamProps.wellFormedTeam (DataModel.teams Samples.twoTeams).
Proof.
  apply (teams_well_formed Samples.twoTeams reachable_twoTeams).
Defined.

(** ** The end of a draft *)

Section DraftEnd.
Import DataModel DraftProps TeamProps HoleProps AppController.
Implicit Types (s : Store) (st : DraftState) (g : GroupLetter) (gs : Groups).

Lemma indexOfPlayer_found p l :
  existsb (samePlayer p) l = true → ∃ i, indexOfPlayer p l = Some i.
Proof.
  intros (q & Hq & E)%existsb_samePlayer. unfold indexOfPlayer.
  destruct (list_find_elem_of (λ o : Player, ref o = ref p) l q Hq E) as [[i y] ->].
  by exists i.
Qed.

Lemma indexOfPlayer_missing p l :
  existsb (samePlayer p) l = false → indexOfPlayer p l = None.
Proof.
  intros Hex. unfold indexOfPlayer.
  destruct (list_find _ l) as [[i y]|] eqn:E; [|done].
  apply list_find_Some in E as (Hi & Hy & _).
  rewrite (proj2 (existsb_samePlayer p l)) in Hex; [done|].
  exists y. split; [|done]. by eapply list_elem_of_lookup_2.
Qed.

Lemma removeMember_agrees gs member :
  removeMember gs member = removeFromGroups gs member.
Proof.
  destruct member as [p|]; [|done].
  unfold removeMember, removeFromGroups. cbn [removeFromFirst List.find].
  destruct (existsb (samePlayer p) (get_group gA gs)) eqn:EA.
  { by destruct (indexOfPlayer_found _ _ EA) as [i ->]. }
  rewrite (indexOfPlayer_missing _ _ EA).
  destruct (existsb (samePlayer p) (get_group gB gs)) eqn:EB.
  { by destruct (indexOfPlayer_found _ _ EB) as [i ->]. }
  rewrite (indexOfPlayer_missing _ _ EB).
  destruct (existsb (samePlayer p) (get_group gC gs)) eqn:EC.
  { by destruct (indexOfPlayer_found _ _ EC) as [i ->]. }
  rewrite (indexOfPlayer_missing _ _ EC).
  destruct (existsb (samePlayer p) (get_group gD gs)) eqn:ED.
  { by destruct (indexOfPlayer_found _ _ ED) as [i ->]. }
  by rewrite (indexOfPlayer_missing _ _ ED).
Qed.

Lemma removeMembers_agree ms : ∀ gs,
  foldl removeMember gs ms = foldl removeFromGroups gs ms.
Proof.
  induction ms as [|m ms IH]; intros gs; [done|].
  cbn [foldl]. by rewrite removeMember_agrees, IH.
Qed.

Lemma addTeams_fold ts : ∀ s,
  foldl (λ acc team, (addTeamAndRemovePlayers team acc).2) s ts
  = set_groups (foldl removeMember (groups s) (ts ≫= members))
      (set_teams (teams s ++ ts) s).
Proof.
  induction ts as [|t ts IH]; intros s.
  - cbn. rewrite app_nil_r. by destruct s.
  - cbn [foldl]. rewrite IH. unfold addTeamAndRemovePlayers.
    cbn [snd groups teams set_groups set_teams].
    rewrite bind_cons, foldl_app, <- app_assoc. done.
Qed.

Lemma finalize_fold_full m tds : ∀ ft gs,
  Forall fullTeam tds →
  foldl (finalizeOne m) (ft, gs) tds
  = (ft ++ imap (λ i, teamOf m (length ft + i)) tds,
     foldl removeFromGroups gs (tds ≫= draft_members)).
Proof.
  induction tds as [|td tds IH]; intros ft gs Hfull.
  - cbn. by rewrite app_nil_r.
  - apply Forall_cons in Hfull as [(a & b & c & d & Hm) Hfull].
    cbn [foldl]. unfold finalizeOne at 2.
    assert (forallb (λ p, bool_decide (is_Some p)) (draft_members td) = true) as ->.
    { rewrite Hm. cbn. by rewrite ?bool_decide_eq_true_2 by eauto. }
    rewrite IH by done. cbn [members]. f_equal.
    + rewrite <- app_assoc. f_equal. cbn [imap app]. rewrite Nat.add_0_r.
      f_equal. apply imap_ext. intros i x _. cbn. rewrite length_app. cbn.
      f_equal. lia.
    + by rewrite bind_cons, foldl_app.
Qed.

(** X12. The two loops that take the members of a team out of the
    groups agree: the one of [addTeamAndRemovePlayers] and the one of
    [finalizeDraftedTeams] remove the same player from the same group on
    any groups whatever.  So finalizing a draft whose teams are all full
    leaves the store that adding its teams one by one with
    [addTeamAndRemovePlayers], numbered on from the team count, and then
    dropping the draft state would leave. *)
Theorem addTeam_matches_finalize :
  (∀ gs member, removeMember gs member = removeFromGroups gs member) ∧
  (∀ s st,
     interactiveDraftState s = Some st →
     length (draftOrder st) ≤ currentRoundIndex st →
     Forall fullTeam (draftedTeamsData st) →
     (finalizeDraftedTeams s).2
     = set_draft None
         (foldl (λ acc team, (addTeamAndRemovePlayers team acc).2) s
            (imap (teamOf (length (teams s))) (draftedTeamsData st)))).
Proof.
  split; [apply removeMember_agrees|].
  intros s st Hst Hround Hfull. unfold finalizeDraftedTeams. rewrite Hst.
  rewrite bool_decide_eq_false_2 by lia.
  rewrite finalize_fold_full by done. cbn [app length Nat.add snd].
  rewrite addTeams_fold, removeMembers_agree, bind_members_imap by done.
  done.
Qed.

Lemma click_step u s st orig n k :
  interactiveDraftState s = Some st →
  (∀ g, n ≤ length (get_group g orig)) →
  draftInv orig n k st → k < 4 * n →
  ∃ st',
    draftInv orig n (S k) st' ∧
    (makeInteractiveDraftPick u s).2 = set_draft (Some st') s ∧
    handleNextDraftPickHandler u s
    = if decide (S k = 4 * n) then (finalizeDraftedTeams (set_draft (Some st') s)).2
      else set_draft (Some st') s.
Proof.
  intros Hst Hn Hinv Hk.
  destruct (pick_step u s st orig n k Hst Hn Hinv Hk) as (pick & st' & Hpick & Hinv').
  exists st'. split; [done|]. split; [by rewrite Hpick|].
  destruct (pick_cases u s) as [[_ Hno] | (st0 & g & td & Hst0 & Hg & Hpool & Htd)].
  { rewrite Hpick in Hno. by destruct (Hno pick). }
  rewrite Hst in Hst0. injection Hst0 as <-.
  destruct (pick_succeeds u s st g td Hst Hg Hpool Htd)
    as (chosen & st'' & _ & Hpick' & _).
  rewrite Hpick in Hpick'. injection Hpick' as Hp Hs. subst st''.
  unfold handleNextDraftPickHandler. rewrite Hpick, Hp. cbn [isDraftComplete].
  rewrite (di_order _ _ _ _ Hinv). cbn [length].
  destruct (di_cursor _ _ _ _ Hinv') as [Hc Hcur].
  destruct (decide (S k = 4 * n)) as [Hend|Hend].
  - rewrite bool_decide_eq_true_2; [done|].
    destruct Hcur as [[? ?]|[? ?]]; [nia|lia].
  - rewrite bool_decide_eq_false_2; [done|].
    destruct Hcur as [[? ?]|[H0 H4]]; [lia|]. rewrite H0, H4 in Hc. lia.
Qed.

Lemma clicks_run us : ∀ s st orig n k,
  interactiveDraftState s = Some st →
  (∀ g, n ≤ length (get_group g orig)) →
  draftInv orig n k st →
  (k + length us < 4 * n → clicksFrom us s = picksFrom us s) ∧
  (k + length us = 4 * n → us ≠ [] →
   clicksFrom us s = (finalizeDraftedTeams (picksFrom us s)).2).
Proof.
  induction us as [|u us IH]; intros s st orig n k Hst Hn Hinv; [done|].
  cbn [length]. unfold clicksFrom, picksFrom. cbn [foldl].
  fold (clicksFrom us (handleNextDraftPickHandler u s)).
  fold (picksFrom us (makeInteractiveDraftPick u s).2).
  split.
  - intros Hk.
    destruct (click_step u s st orig n k Hst Hn Hinv) as (st' & Hinv' & -> & ->);
      [lia|].
    rewrite decide_False by lia.
    apply (IH (set_draft (Some st') s) st' orig n (S k)); [done..|lia].
  - intros Hk _.
    destruct (click_step u s st orig n k Hst Hn Hinv) as (st' & Hinv' & -> & ->);
      [lia|].
    destruct us as [|u' us].
    + rewrite decide_True by (cbn in Hk; lia). done.
    + rewrite decide_False by (cbn in Hk; lia).
      apply (IH (set_draft (Some st') s) st' orig n (S k)); [done..| |done].
      cbn [length] in *. lia.
Qed.

Lemma finalize_clears s st :
  interactiveDraftState s = Some st →
  length (draftOrder st) ≤ currentRoundIndex st →
  interactiveDraftState (finalizeDraftedTeams s).2 = None.
Proof.
  intros Hst Hround. unfold finalizeDraftedTeams. rewrite Hst.
  rewrite bool_decide_eq_false_2 by lia. by destruct (foldl _ _ _).
Qed.

Lemma click_without_draft u s :
  interactiveDraftState s = None → handleNextDraftPickHandler u s = s.
Proof.
  intros Hst. unfold handleNextDraftPickHandler, makeInteractiveDraftPick.
  by rewrite Hst.
Qed.

Lemma clicks_without_draft us : ∀ s,
  interactiveDraftState s = None → clicksFrom us s = s.
Proof.
  induction us as [|u us IH]; intros s Hst; [done|].
  unfold clicksFrom. cbn [foldl]. rewrite click_without_draft by done.
  by apply IH.
Qed.

Lemma draft_run us s :
  0 < smallestGroup (groups s) →
  length us ≤ 4 * smallestGroup (groups s) →
  ∃ st0 st',
    (initializeInteractiveDraft s).2 = set_draft (Some st0) s ∧
    draftInv (groups s) (smallestGroup (groups s)) 0 st0 ∧
    picksFrom us (initializeInteractiveDraft s).2 = set_draft (Some st') s ∧
    draftInv (groups s) (smallestGroup (groups s)) (length us) st'.
Proof.
  intros Hpos Hlen.
  destruct (initialize_succeeds s Hpos) as (st0 & Hinit & Hinv0).
  destruct (picks_run us (set_draft (Some st0) s) st0 (groups s)
              (smallestGroup (groups s)) 0)
    as (_ & st' & Hrun & Hinv);
    [done | intros g; apply smallestGroup_le | done | lia |].
  exists st0, st'. rewrite Hinit. cbn [snd]. split_and!; done.
Qed.

(** X13. The clicks on "Next Pick" carry a draft to its end.  With n the
    size of the smallest group, the first 4n - 1 clicks after the start of
    the draft only pick and leave the draft open; the click number 4n picks
    and, the pick reporting the draft complete, finalizes at once, so its
    store is the one [finalizeDraftedTeams] leaves after the 4n picks, with
    no draft state; any later click changes nothing. *)
Theorem clicks_finish_draft us s :
  0 < smallestGroup (groups s) →
  let n := smallestGroup (groups s) in
  let started := (initializeInteractiveDraft s).2 in
  (length us < 4 * n →
   clicksFrom us started = picksFrom us started ∧
   is_Some (interactiveDraftState (clicksFrom us started))) ∧
  (length us = 4 * n →
   clicksFrom us started = (finalizeDraftedTeams (picksFrom us started)).2 ∧
   interactiveDraftState (clicksFrom us started) = None ∧
   ∀ later, clicksFrom (us ++ later) started = clicksFrom us started).
Proof.
  intros Hpos n started.
  assert (Hge : ∀ g, n ≤ length (get_group g (groups s)))
    by (intros g; apply smallestGroup_le).
  split.
  - intros Hlen.
    destruct (draft_run us s Hpos) as (st0 & st' & Hinit & Hinv0 & Hrun & Hinv); [lia|].
    fold started in Hinit, Hrun.
    destruct (clicks_run us started st0 (groups s) n 0) as [Hclicks _];
      [by rewrite Hinit|done..|].
    rewrite Hclicks by lia. split; [done|]. by rewrite Hrun.
  - intros Hlen.
    destruct (draft_run us s Hpos) as (st0 & st' & Hinit & Hinv0 & Hrun & Hinv); [lia|].
    fold started in Hinit, Hrun.
    destruct (clicks_run us started st0 (groups s) n 0) as [_ Hclicks];
      [by rewrite Hinit|done..|].
    assert (Hne : us ≠ []) by (intros ->; cbn in Hlen; lia).
    rewrite Hclicks by done.
    assert (Hnone : interactiveDraftState (finalizeDraftedTeams (picksFrom us started)).2
                    = None).
    { apply (finalize_clears _ st'); [by rewrite Hrun|].
      rewrite (di_order _ _ _ _ Hinv). cbn [length].
      destruct (di_cursor _ _ _ _ Hinv) as [Hc [[? ?]|[? ?]]]; [|lia].
      fold n in Hc. nia. }
    split_and!; [done..|].
    intros later. unfold clicksFrom at 1. rewrite foldl_app.
    fold (clicksFrom us started). fold (clicksFrom later (clicksFrom us started)).
    rewrite Hclicks by done. by apply clicks_without_draft.
Qed.

(** X14. A pick beyond the end of a draft.  After the 4n picks of a
    draft that has not been finalized the round index has left the draft
    order, and a further call of [makeInteractiveDraftPick] does not return
    a failure: it throws (the pool of the round is [undefined]), leaving
    the store as it is.  After the finalization a call returns the failure
    "Draft not initialized", again leaving the store as it is. *)
Theorem picks_beyond_draft us u s :
  0 < smallestGroup (groups s) →
  length us = 4 * smallestGroup (groups s) →
  let drafted := picksFrom us (initializeInteractiveDraft s).2 in
  let final := (finalizeDraftedTeams drafted).2 in
  makeInteractiveDraftPick u drafted = (Thrown, drafted) ∧
  makeInteractiveDraftPick u final = (Returned (Fail DraftNotInitialized), final).
Proof.
  intros Hpos Hlen drafted final.
  destruct (draft_run us s Hpos) as (st0 & st' & Hinit & Hinv0 & Hrun & Hinv); [lia|].
  fold drafted in Hrun. rewrite Hlen in Hinv.
  assert (Hround : currentRoundIndex st' = 4).
  { destruct (di_cursor _ _ _ _ Hinv) as [Hc [[? ?]|[? ?]]]; [nia|done]. }
  split.
  - unfold makeInteractiveDraftPick. rewrite Hrun.
    cbn [interactiveDraftState set_draft].
    by rewrite (di_order _ _ _ _ Hinv), Hround.
  - unfold makeInteractiveDraftPick, final.
    rewrite (finalize_clears drafted st'); [done|by rewrite Hrun|].
    rewrite (di_order _ _ _ _ Hinv), Hround. done.
Qed.

End DraftEnd.

Lemma addTeam_matches_finalize_witness :
  (DataModel.finalizeDraftedTeams Samples.draftDone).2
  = DataModel.set_draft None
      (foldl (λ acc team, (DataModel.addTeamAndRemovePlayers team acc).2)
         Samples.draftDone
         (imap (DraftProps.teamOf 0)
            (DataModel.draftedTeamsData Samples.draftDoneState))).
Proof.
  apply (proj2 addTeam_matches_finalize Samples.draftDone Samples.draftDoneState).
  - vm_compute. reflexivity.
  - vm_compute. lia.
  - unfold Samples.draftDoneState. cbn [DataModel.draftedTeamsData].
    repeat (apply Forall_cons; split; [do 4 eexists; reflexivity|]).
    apply Forall_nil_2.
Defined.

Lemma clicks_finish_draft_witness :
  DataModel.interactiveDraftState
    (TeamProps.clicksFrom Samples.eightDraws
       (DataModel.initializeInteractiveDraft Samples.eightBalanced).2)
  = None.
Proof.
  assert (Hpos : 0 < DraftProps.smallestGroup (DataModel.groups Samples.eightBalanced)).
  { apply (bool_decide_unpack _). vm_compute. reflexivity. }
  destruct (clicks_finish_draft Samples.eightDraws Samples.eightBalanced Hpos)
    as [_ Hend].
  destruct Hend as (_ & Hnone & _); [|exact Hnone].
  vm_compute. reflexivity.
Defined.

Lemma picks_beyond_draft_witness :
  DataModel.makeInteractiveDraftPick Samples.u0
    (DraftProps.picksFrom Samples.eightDraws
       (DataModel.initializeInteractiveDraft Samples.eightBalanced).2)
  = (DataModel.Thrown,
     DraftProps.picksFrom Samples.eightDraws
       (DataModel.initializeInteractiveDraft Samples.eightBalanced).2).
Proof.
  assert (Hpos : 0 < DraftProps.smallestGroup (DataModel.groups Samples.eightBalanced)).
  { apply (bool_decide_unpack _). vm_compute. reflexivity. }
  assert (Hlen : length Samples.eightDraws
                 = 4 * DraftProps.smallestGroup (DataModel.groups Samples.eightBalanced)).
  { vm_compute. reflexivity. }
  destruct (picks_beyond_draft Samples.eightDraws Samples.u0 Samples.eightBalanced
              Hpos Hlen) as [Hthrown _].
  exact Hthrown.
Defined.

(** ** The text of a tee time *)

Section Clock.
Import DataModel UIController TeeProps.

Lemma digit_of_digitChar d : (0 ≤ d ≤ 9)%Z → JS.digit_of (digitChar d) = Some d.
Proof.
  intros Hd. unfold JS.digit_of, digitChar. rewrite nat_ascii_embedding by lia.
  replace (48 <=? Z.to_nat d + 48)%nat with true by (symmetry; apply Nat.leb_le; lia).
  replace (Z.to_nat d + 48 <=? 57)%nat with true by (symmetry; apply Nat.leb_le; lia).
  cbn [andb]. f_equal. lia.
Qed.

Lemma digitChar_compare d1 d2 :
  (0 ≤ d1 ≤ 9)%Z → (0 ≤ d2 ≤ 9)%Z →
  Ascii.compare (digitChar d1) (digitChar d2) = (d1 ?= d2)%Z.
Proof.
  intros H1 H2. unfold Ascii.compare, digitChar, ascii_of_nat.
  rewrite !N_ascii_embedding by lia.
  destruct (Z.compare_spec d1 d2),
    (N.compare_spec (N.of_nat (Z.to_nat d1 + 48)) (N.of_nat (Z.to_nat d2 + 48)));
    try done; lia.
Qed.

Lemma pad2_small x :
  (0 ≤ x < 100)%Z →
  pad2 x = String (digitChar (x / 10)) (String (digitChar (x mod 10)) EmptyString).
Proof.
  intros Hx. unfold digitChar.
  rewrite <- (pad2_two_digits (x / 10) (x mod 10)) by (Z.div_mod_to_equations; lia).
  f_equal. Z.div_mod_to_equations; lia.
Qed.

Lemma formatTime_clock t :
  ∃ a b c d,
    (0 ≤ a ≤ 9 ∧ 0 ≤ b ≤ 9 ∧ 0 ≤ c ≤ 5 ∧ 0 ≤ d ≤ 9)%Z ∧ (10 * a + b < 24)%Z ∧
    (t mod 1440 = (10 * a + b) * 60 + (10 * c + d))%Z ∧
    formatTime (Some t) = clockText a b c d.
Proof.
  set (h := ((t / 60) mod 24)%Z). set (m := (t mod 60)%Z).
  assert (Hh : (0 ≤ h < 24)%Z) by (apply Z.mod_pos_bound; lia).
  assert (Hm : (0 ≤ m < 60)%Z) by (apply Z.mod_pos_bound; lia).
  exists (h / 10)%Z, (h mod 10)%Z, (m / 10)%Z, (m mod 10)%Z.
  split_and!; try (clear Hh Hm; subst h m; Z.div_mod_to_equations; lia).
  unfold formatTime. fold h m. rewrite !pad2_small by lia. done.
Qed.

Lemma formatTime_facts t1 t2 :
  parseStartTime (formatTime (Some t1)) = Some (t1 mod 1440)%Z ∧
  ((0 ≤ t1 < 1440)%Z → (0 ≤ t2 < 1440)%Z →
   (String.ltb (formatTime (Some t1)) (formatTime (Some t2)) = true ↔ (t1 < t2)%Z) ∧
   (formatTime (Some t1) = formatTime (Some t2) ↔ t1 = t2)).
Proof.
  destruct (formatTime_clock t1) as (a1 & b1 & c1 & d1 & Hd1 & Hh1 & Ht1 & ->).
  destruct (formatTime_clock t2) as (a2 & b2 & c2 & d2 & Hd2 & Hh2 & Ht2 & ->).
  assert (Hparse : ∀ a b c d,
            (0 ≤ a ≤ 9 ∧ 0 ≤ b ≤ 9 ∧ 0 ≤ c ≤ 5 ∧ 0 ≤ d ≤ 9)%Z → (10 * a + b < 24)%Z →
            parseStartTime (clockText a b c d)
            = Some ((10 * a + b) * 60 + (10 * c + d))%Z).
  { intros a b c d Hd Hh. unfold parseStartTime, clockText.
    rewrite !digit_of_digitChar by lia. cbv zeta.
    rewrite !bool_decide_eq_true_2 by lia. done. }
  split; [by rewrite Hparse, Ht1|].
  intros Hr1 Hr2. rewrite Z.mod_small in Ht1, Ht2 by done. split.
  - unfold String.ltb, clockText. cbn [String.compare].
    rewrite !digitChar_compare by lia.
    change (Ascii.compare ":" ":") with Eq.
    destruct (Z.compare_spec a1 a2), (Z.compare_spec b1 b2),
      (Z.compare_spec c1 c2), (Z.compare_spec d1 d2); split; intros; try done; lia.
  - split.
    + intros Heq. apply (f_equal parseStartTime) in Heq.
      rewrite !Hparse in Heq by done. injection Heq. lia.
    + intros Heq.
      assert (a1 = a2) as -> by lia. assert (b1 = b2) as -> by lia.
      assert (c1 = c2) as -> by lia. by assert (d1 = d2) as -> by lia.
Qed.


(** X15. The text of a tee time.  Whatever the minute count, the
    text [formatTime] makes of it is a valid HH:MM that reads back as the
    minute of the day, the count modulo 24 hours.  For two moments of the
    same day the comparison of the texts, which the tee sheet sorts by, is
    the comparison of the moments, and equal texts are equal moments. *)
Theorem clock_text t1 t2 :
  parseStartTime (formatTime (Some t1)) = Some (t1 mod 1440)%Z ∧
  ((0 ≤ t1 < 1440)%Z → (0 ≤ t2 < 1440)%Z →
   (String.ltb (formatTime (Some t1)) (formatTime (Some t2)) = true ↔ (t1 < t2)%Z) ∧
   (formatTime (Some t1) = formatTime (Some t2) ↔ t1 = t2)).
Proof. apply formatTime_facts. Qed.

End Clock.

Lemma clock_text_witness :
  String.ltb (UIController.formatTime (Some 480%Z)) (UIController.formatTime (Some 490%Z))
  = true.
Proof.
  destruct (clock_text 480 490) as [_ Horder].
  destruct Horder as [Hlt _]; [lia..|].
  apply Hlt. lia.
Defined.

(** ** The order of the sequential tee sheet *)

Section SheetOrder.
Import DataModel UIController TeeProps.

Lemma Sorted_imap {X Y} (R : Y → Y → Prop) (l : list X) : ∀ (f : nat → X → Y),
  (∀ i x y, l !! i = Some x → l !! S i = Some y → R (f i x) (f (S i) y)) →
  Sorted R (imap f l).
Proof.
  induction l as [|x l IH]; intros f Hstep; [constructor|].
  cbn [imap]. constructor.
  - apply IH. intros i a b Ha Hb. apply (Hstep (S i)); done.
  - destruct l as [|y l]; cbn [imap]; constructor.
    by apply (Hstep 0).
Qed.

Lemma StronglySorted_lookup_lt {X} (R : X → X → Prop) (l : list X) :
  StronglySorted R l →
  ∀ i j x y, l !! i = Some x → l !! j = Some y → i < j → R x y.
Proof.
  induction 1 as [|a l Hsorted IH Hall]; intros i j x y Hi Hj Hij; [done|].
  destruct j as [|j]; [lia|]. cbn in Hj. destruct i as [|i]; cbn in Hi.
  - injection Hi as <-. rewrite Forall_forall in Hall. apply Hall.
    by eapply list_elem_of_lookup_2.
  - apply (IH i j); [done..|lia].
Qed.

Lemma assignedSlots_holes s i j a b :
  assignedSlots s !! i = Some a → assignedSlots s !! j = Some b → i < j →
  (a.1 ≤ b.1)%Z.
Proof.
  intros Ha Hb Hij.
  pose proof (shotgunRows_in_hole_order s None holes1to18 holes1to18_sorted) as Hs.
  change (holes1to18 ≫= slotsOn s) with (assignedSlots s) in Hs.
  apply (StronglySorted_lookup_lt _ _ Hs i j (rowAt None a) (rowAt None b));
    [| |done]; rewrite list_lookup_fmap; [by rewrite Ha | by rewrite Hb].
Qed.

(** X16. A sequential tee sheet that stays within the day comes out in
    hole order.  When the start time is a valid HH:MM, the interval is not
    negative and the last tee time falls before midnight, the rows as
    generated (holes 1 to 18, slots in list order) are already in the order
    of the sort, so the sheet lists the assigned teams hole by hole, the
    team at position i with the time start + i * interval. *)
Theorem sequential_in_hole_order s base :
  teams s ≠ [] →
  startFormat (settings s) = "sequential"%string →
  parseStartTime (startTime (settings s)) = Some base →
  (0 ≤ timeInterval (settings s))%Z →
  (base + Z.of_nat (length (assignedSlots s) - 1) * timeInterval (settings s) < 1440)%Z →
  updateTeeSheet s = sheetOf (sequentialRows s (Some base)) ∧
  ∀ i slot, assignedSlots s !! i = Some slot →
    sequentialRows s (Some base) !! i
    = Some (mkRow slot.1
              (formatTime (Some (base + Z.of_nat i * timeInterval (settings s))%Z))
              (id slot.2) (playerLabel <$> members slot.2)).
Proof.
  intros Hts Hfmt Hbase Hiv Hlast.
  destruct (formatTime_parseStartTime _ _ Hbase) as [_ Hrange].
  split; cycle 1.
  { intros i slot Hslot. unfold sequentialRows.
    rewrite list_lookup_imap, Hslot. done. }
  rewrite updateTeeSheet_sequential, Hbase by done. f_equal.
  apply sort_of_sorted. unfold sequentialRows. apply Sorted_imap.
  intros i a b Ha Hb. apply byTimeThenHole_notAfter.
  unfold timeThenHole, sequentialRow, rowAt. cbn [teeTime hole fmap option_fmap option_map].
  pose proof (lookup_lt_Some _ _ _ Hb) as Hlen.
  set (iv := timeInterval (settings s)) in *.
  assert (Hle : (Z.of_nat (S i) * iv ≤ Z.of_nat (length (assignedSlots s) - 1) * iv)%Z)
    by nia.
  assert (H0 : (0 ≤ Z.of_nat i * iv)%Z) by nia.
  destruct (formatTime_facts (base + Z.of_nat i * iv) (base + Z.of_nat (S i) * iv))
    as [_ Horder].
  destruct Horder as [Hlt Heq]; [nia..|].
  destruct (decide (iv = 0%Z)) as [H0iv|Hpos].
  - right. split; [apply Heq; nia|].
    apply (assignedSlots_holes s i (S i)); [done..|lia].
  - left. apply Hlt. nia.
Qed.

Lemma teeSheetData_rows s baseTime :
  ∃ data,
    (foldl (teeSheetHole s baseTime) (0, []) holes1to18).2 = data ∧
    teamId <$> data = (λ slot, id slot.2) <$> assignedSlots s ∧
    hole <$> data = fst <$> assignedSlots s.
Proof.
  destruct (String.eqb (startFormat (settings s)) "shotgun") eqn:Hfmt.
  - rewrite teeSheetHoles_shotgun by done. eexists. split; [done|].
    cbn [snd app]. fold (assignedSlots s).
    rewrite <- !list_fmap_compose. done.
  - rewrite teeSheetHoles_sequential by done. eexists. split; [done|].
    cbn [snd app Nat.add]. fold (assignedSlots s).
    split; apply list_eq; intros i;
      rewrite !list_lookup_fmap, list_lookup_imap;
      by destruct (assignedSlots s !! i).
Qed.

(** X17. The rows of the tee sheet, whatever the start format.  Without
    teams the sheet says "No teams created yet", whatever the assignments
    hold.  With teams it has one row for every id on the holes 1 to 18 that
    names a team of the team list, and no row for an id that names none:
    when there is no such id it says "No teams assigned to holes yet", and
    otherwise the rows carry exactly those teams and their holes, in some
    order. *)
Theorem tee_sheet_rows s :
  (teams s = [] → updateTeeSheet s = NoTeamsYet) ∧
  (teams s ≠ [] → assignedSlots s = [] → updateTeeSheet s = NoTeamsAssigned) ∧
  (teams s ≠ [] → assignedSlots s ≠ [] →
   ∃ rows,
     updateTeeSheet s = Rows rows ∧
     length rows = length (assignedSlots s) ∧
     (λ row, (hole row, teamId row)) <$> rows
     ≡ₚ (λ slot, (slot.1, id slot.2)) <$> assignedSlots s).
Proof.
  split; [apply updateTeeSheet_no_teams|].
  assert (Hsheet : teams s ≠ [] →
            ∃ rows, updateTeeSheet s = sheetOf rows ∧
              (λ row, (hole row, teamId row)) <$> rows
              ≡ₚ (λ slot, (slot.1, id slot.2)) <$> assignedSlots s).
  { intros Hts. unfold updateTeeSheet.
    rewrite bool_decide_eq_false_2 by (by destruct (teams s)). cbv zeta.
    destruct (teeSheetData_rows s (parseStartTime (startTime (settings s))))
      as (data & -> & Hids & Hholes).
    assert (Hdata : (λ row, (hole row, teamId row)) <$> data
                    = (λ slot, (slot.1, id slot.2)) <$> assignedSlots s).
    { apply list_eq. intros i.
      apply (f_equal (λ l, l !! i)) in Hids, Hholes.
      rewrite !list_lookup_fmap in *.
      destruct (data !! i), (assignedSlots s !! i); cbn in *; congruence. }
    destruct (String.eqb _ "sequential"); eexists; (split; [reflexivity|]);
      rewrite <- Hdata; apply fmap_Permutation, sort_Permutation. }
  split.
  - intros Hts Hnone. destruct (Hsheet Hts) as (rows & -> & Hperm).
    rewrite Hnone in Hperm. apply Permutation_nil_r in Hperm.
    by apply fmap_nil_inv in Hperm as ->.
  - intros Hts Hsome. destruct (Hsheet Hts) as (rows & -> & Hperm).
    exists rows. split_and!; [| |done].
    + destruct rows; [|done]. symmetry in Hperm. apply Permutation_nil_r in Hperm.
      by apply fmap_nil_inv in Hperm.
    + apply Permutation_length in Hperm. by rewrite !length_fmap in Hperm.
Qed.

End SheetOrder.

Lemma sequential_in_hole_order_witness :
  UIController.updateTeeSheet (DataModel.autoAssignTeams Samples.twoTeams).2
  = TeeProps.sheetOf
      (TeeProps.sequentialRows (DataModel.autoAssignTeams Samples.twoTeams).2
         (Some 480%Z)).
Proof.
  apply (sequential_in_hole_order (DataModel.autoAssignTeams Samples.twoTeams).2 480).
  - vm_compute. discriminate.
  - vm_compute. reflexivity.
  - vm_compute. reflexivity.
  - vm_compute. discriminate.
  - vm_compute. reflexivity.
Defined.

Lemma tee_sheet_rows_witness :
  UIController.updateTeeSheet Samples.twoTeams = UIController.NoTeamsAssigned.
Proof.
  destruct (tee_sheet_rows Samples.twoTeams) as (_ & Hnone & _).
  apply Hnone.
  - vm_compute. discriminate.
  - vm_compute. reflexivity.
Defined.

(** ** White space around the input texts *)

Section Texts.
Import DataModel TextProps AppController.





































End Texts.


(** ** Changes of the registry *)

Section Resets.
Import DataModel TeamProps AppController UIController.



End Resets.


(** ** The tournament bracket *)

Section BracketShape.
Import DataModel UIController.





End BracketShape.


(** ** Sessions with saving and loading *)

Section Sessions.
Import DataModel DraftProps TeamProps HoleProps SessionProps Session.











End Sessions.


(** ** Assigning a team by hand *)

Section Manual.
Import DataModel HoleProps.
Implicit Types (s : Store) (t h : Z).

Lemma assigned_place ha h t :
  assignedIn (place ha (h, t)) = {[t]} ∪ assignedIn ha.
Proof.
  apply set_eq. intros x.
  rewrite elem_of_union, !elem_of_assignedIn, place_exists, elem_of_singleton.
  tauto.
Qed.

(** X22. Assigning a team by hand, on a store the application reaches.
    A team of the team list is in the list of unassigned teams exactly when
    its id is on no hole.  For such a team and a hole from 1 to 18 the
    assignment is refused as "hole full" when the hole is at its capacity,
    and succeeds otherwise: the id is appended to the list of the hole, the
    assigned ids grow by this one id, and the unassigned teams are the
    former ones without this team.  For a team whose id is on a hole the
    assignment is refused as "already assigned".  A refusal leaves the store
    as it was. *)
Theorem manual_assignment s team hole :
  Reach.reachable s → team ∈ teams s → validHole hole →
  let key := JS.int_toString hole in
  let onHole := default [] (holeAssignments s !! key) in
  (team ∈ getUnassignedTeamsInternal s ↔ id team ∉ getAssignedTeamIds s) ∧
  (id team ∈ getAssignedTeamIds s →
   assignTeamToHole (id team) hole s = (Fail (AlreadyAssigned (id team)), s)) ∧
  (id team ∉ getAssignedTeamIds s → maxTeamsOn hole ≤ length onHole →
   assignTeamToHole (id team) hole s = (Fail (HoleFull hole), s)) ∧
  (id team ∉ getAssignedTeamIds s → length onHole < maxTeamsOn hole →
   ∃ s',
     assignTeamToHole (id team) hole s = (Success (), s') ∧
     holeAssignments s' !! key = Some (onHole ++ [id team]) ∧
     getAssignedTeamIds s' = {[id team]} ∪ getAssignedTeamIds s ∧
     getUnassignedTeamsInternal s'
     = filter (λ other, id other ≠ id team) (getUnassignedTeamsInternal s)).
Proof.
  intros Hreach Hteam [Hlo Hhi] key onHole.
  pose proof (numbered_nonzero _ (reachable_teams_numbered s Hreach)) as Hnz.
  assert (Hid : id team ≠ 0%Z).
  { intros E. apply Hnz. rewrite <- E. by apply list_elem_of_fmap_2. }
  assert (Hvalid : invalidInput (id team) hole = false).
  { unfold invalidInput. repeat (case_bool_decide; simpl); try done; lia. }
  change (getAssignedTeamIds s) with (assignedIn (holeAssignments s)).
  split_and!.
  - unfold getUnassignedTeamsInternal. rewrite list_elem_of_filter.
    change (getAssignedTeamIds s) with (assignedIn (holeAssignments s)). tauto.
  - intros Hin. apply elem_of_assignedIn in Hin.
    unfold assignTeamToHole. rewrite Hvalid. by rewrite bool_decide_eq_true_2.
  - intros Hout Hfull. rewrite elem_of_assignedIn in Hout.
    unfold assignTeamToHole. rewrite Hvalid.
    rewrite bool_decide_eq_false_2 by done.
    by rewrite bool_decide_eq_true_2.
  - intros Hout Hroom. rewrite elem_of_assignedIn in Hout.
    eexists. split; [by apply assign_succeeds|].
    cbn [holeAssignments set_holeAssignments]. split_and!.
    + unfold place. cbn [fst snd]. by rewrite lookup_insert_eq.
    + change (getAssignedTeamIds (set_holeAssignments ?ha s)) with (assignedIn ha).
      apply assigned_place.
    + unfold getUnassignedTeamsInternal. cbn [teams set_holeAssignments].
      change (getAssignedTeamIds (set_holeAssignments ?ha s)) with (assignedIn ha).
      change (getAssignedTeamIds s) with (assignedIn (holeAssignments s)).
      rewrite assigned_place, list_filter_filter. apply list_filter_iff.
      intros other. rewrite not_elem_of_union, elem_of_singleton. tauto.
Qed.

End Manual.

Lemma manual_assignment_witness :
  ∃ s', DataModel.assignTeamToHole 1 3 Samples.twoTeams = (DataModel.Success (), s').
Proof.
  assert (Hteam : ∃ team, DataModel.teams Samples.twoTeams !! 0 = Some team ∧
                          DataModel.id team = 1%Z).
  { vm_compute. eexists. split; reflexivity. }
  destruct Hteam as (team & Hteam & Hid).
  destruct (manual_assignment Samples.twoTeams team 3 reachable_twoTeams)
    as (_ & _ & _ & Hok).
  - by eapply list_elem_of_lookup_2.
  - split; lia.
  - destruct Hok as (s' & Hok & _).
    + rewrite Hid. intros Hin.
      apply elem_of_assignedIn in Hin as (k & l & Hl & _).
      assert (E : DataModel.holeAssignments Samples.twoTeams = ∅)
        by (vm_compute; reflexivity).
      rewrite E, lookup_empty in Hl. discriminate Hl.
    + vm_compute. lia.
    + rewrite Hid in Hok. by exists s'.
Defined.
